(** * merge_sites: canonical keys, recovery of the "sites" array, URL
    resolution and the merge loop of [merge_sites_Version2.py].

    The Python program is embedded shallowly:
    - a [str] is the list of its code points;
    - a decoded JSON document is a value of [json], a dict being the list of
      its items in insertion order;
    - [json.dumps], [json.loads] and the three regular expressions of the
      script are modelled after the CPython 3.11 library;
    - exceptions are values of [result], and the network, the clock and the
      console are an explicit state threaded through the per-URL loop. *)

From Stdlib Require Import ZArith NArith QArith Qround Lia DecimalZ.
From Stdlib Require Import DecimalPos.
From stdpp Require Import base list gmap sorting strings.

(** ** Python strings *)

(** A Python [str]: the sequence of its Unicode code points. *)
Definition pystr := list N.

(** The [str] written by an ASCII literal of the source. *)
Definition py (s : string) : pystr :=
  map Ascii.N_of_ascii (String.list_ascii_of_string s).
Global Arguments py : simpl never.

(** A literal of the source that holds double quotes, written here with a
    single quote in the place of each. *)
Definition pyq (s : string) : pystr :=
  map (λ c, if (c =? 39)%N then 34%N else c) (py s).

(** [a <= b] on [str]: lexicographic on code points. *)
Fixpoint pystr_leb (a b : pystr) : bool :=
  match a, b with
  | [], _ => true
  | _ :: _, [] => false
  | x :: a', y :: b' =>
      if (x <? y)%N then true
      else if (x =? y)%N then pystr_leb a' b'
      else false
  end.

Definition pystr_le (a b : pystr) : Prop := pystr_leb a b = true.

Global Instance pystr_le_dec a b : Decision (pystr_le a b).
Proof. unfold pystr_le. apply _. Defined.

(** ** Exceptions *)

(** The exception classes the script can meet; each is a subclass of
    [Exception], so [except Exception] catches all of them. *)
Inductive exn :=
| JSONDecodeError
| RecursionError
| ValueError
| OverflowError
| UnicodeEncodeError
| RequestException.

Inductive result (A : Type) :=
| Ok (a : A)
| Raise (e : exn).
Arguments Ok {A} a.
Arguments Raise {A} e.

(** ** Decoded JSON values *)

(** What [json.loads] builds: [None], [bool], [int], [float], [str], [list]
    and [dict] with [str] keys.  A [float] is named by the text [json]'s
    [floatstr] prints for it ([float.__repr__] of a finite float, or [NaN],
    [Infinity], [-Infinity]); [repr] round-trips, so this text identifies the
    float.  A [dict] lists its items in insertion order. *)
#[local] Unset Elimination Schemes.
Inductive json :=
| JNull
| JBool (b : bool)
| JInt (z : Z)
| JFloat (r : pystr)
| JStr (s : pystr)
| JList (l : list json)
| JDict (d : list (pystr * json)).
#[local] Set Elimination Schemes.

Section json_induction.
Variable P : json → Prop.
Hypothesis Hnull : P JNull.
Hypothesis Hbool : ∀ b, P (JBool b).
Hypothesis Hint : ∀ z, P (JInt z).
Hypothesis Hfloat : ∀ r, P (JFloat r).
Hypothesis Hstr : ∀ s, P (JStr s).
Hypothesis Hlist : ∀ l, Forall P l → P (JList l).
Hypothesis Hdict : ∀ d, Forall (λ kv, P kv.2) d → P (JDict d).

Fixpoint json_ind' (o : json) : P o :=
  match o with
  | JNull => Hnull
  | JBool b => Hbool b
  | JInt z => Hint z
  | JFloat r => Hfloat r
  | JStr s => Hstr s
  | JList l =>
      Hlist l ((fix go (l : list json) : Forall P l :=
                  match l with
                  | [] => Forall_nil_2 _
                  | x :: l' => Forall_cons_2 _ _ _ (json_ind' x) (go l')
                  end) l)
  | JDict d =>
      Hdict d ((fix go (d : list (pystr * json)) : Forall (λ kv, P kv.2) d :=
                  match d with
                  | [] => Forall_nil_2 _
                  | kv :: d' =>
                      Forall_cons_2 (λ kv, P kv.2) _ _ (json_ind' kv.2) (go d')
                  end) d)
  end.
End json_induction.

(** [isinstance(o, dict)], [isinstance(o, list)], [isinstance(o, str)]. *)
Definition is_dict (o : json) : bool :=
  match o with JDict _ => true | _ => false end.
Definition is_list (o : json) : bool :=
  match o with JList _ => true | _ => false end.
Definition is_str (o : json) : bool :=
  match o with JStr _ => true | _ => false end.

(** [d.get(k)] on the items of a dict; [None] is [JNull], as in Python. *)
Fixpoint dict_lookup (k : pystr) (d : list (pystr * json)) : option json :=
  match d with
  | [] => None
  | (k', v) :: d' => if decide (k' = k) then Some v else dict_lookup k d'
  end.

Definition dict_get (d : list (pystr * json)) (k : pystr) : json :=
  default JNull (dict_lookup k d).

(** [k in d]. *)
Definition dict_in (k : pystr) (d : list (pystr * json)) : bool :=
  bool_decide (is_Some (dict_lookup k d)).

(** [bool(o)]: the truth value Python gives a decoded JSON value. *)
Definition truthy (o : json) : bool :=
  match o with
  | JNull => false
  | JBool b => b
  | JInt z => negb (z =? 0)%Z
  | JFloat r => negb (bool_decide (r = py "0.0" ∨ r = py "-0.0"))
  | JStr s => negb (bool_decide (s = []))
  | JList l => negb (bool_decide (l = []))
  | JDict d => negb (bool_decide (d = []))
  end.

(** [a or b]. *)
Definition py_or (a b : json) : json := if truthy a then a else b.

(** ** json.dumps *)

Local Open Scope N_scope.

(** One digit of Python's [x] format. *)
Definition hexdigit (n : N) : N := if n <? 10 then 48 + n else 87 + n.

(** ['\\u{0:04x}'.format(n)], for [n < 0x10000]. *)
Definition u_escape (n : N) : pystr :=
  [92; 117; hexdigit (n / 4096 mod 16); hexdigit (n / 256 mod 16);
   hexdigit (n / 16 mod 16); hexdigit (n mod 16)].

(** [ESCAPE_DCT] of json/encoder.py: the short escapes, and [\u00XX] for the
    other characters below 0x20. *)
Definition ESCAPE_DCT (c : N) : option pystr :=
  if c =? 92 then Some [92; 92]
  else if c =? 34 then Some [92; 34]
  else if c =? 8 then Some [92; 98]
  else if c =? 12 then Some [92; 102]
  else if c =? 10 then Some [92; 110]
  else if c =? 13 then Some [92; 114]
  else if c =? 9 then Some [92; 116]
  else if c <? 32 then Some (u_escape c)
  else None.

(** [encode_basestring] (ensure_ascii=False): the characters matched by
    [ESCAPE], which are the keys of [ESCAPE_DCT], are replaced; the others are
    copied. *)
Definition escape_char (c : N) : pystr := default [c] (ESCAPE_DCT c).

Definition encode_basestring (s : pystr) : pystr :=
  [34] ++ flat_map escape_char s ++ [34].

(** [encode_basestring_ascii] (ensure_ascii=True): [ESCAPE_ASCII] matches the
    backslash, the quote and everything outside [' '..'~']; a character
    above 0xFFFF becomes a surrogate pair. *)
Definition escape_char_ascii (c : N) : pystr :=
  if (32 <=? c) && (c <=? 126) && negb (c =? 92) && negb (c =? 34) then [c]
  else match ESCAPE_DCT c with
       | Some e => e
       | None =>
           if c <? 65536 then u_escape c
           else
             let n := c - 65536 in
             let s1 := N.lor 55296 (N.land (N.shiftr n 10) 1023) in
             let s2 := N.lor 56320 (N.land n 1023) in
             u_escape s1 ++ u_escape s2
       end.

Definition encode_basestring_ascii (s : pystr) : pystr :=
  [34] ++ flat_map escape_char_ascii s ++ [34].

(** [int.__repr__]: the decimal digits, after a minus sign when negative. *)
Fixpoint uint_chars (d : Decimal.uint) : pystr :=
  match d with
  | Decimal.Nil => []
  | Decimal.D0 d => 48 :: uint_chars d
  | Decimal.D1 d => 49 :: uint_chars d
  | Decimal.D2 d => 50 :: uint_chars d
  | Decimal.D3 d => 51 :: uint_chars d
  | Decimal.D4 d => 52 :: uint_chars d
  | Decimal.D5 d => 53 :: uint_chars d
  | Decimal.D6 d => 54 :: uint_chars d
  | Decimal.D7 d => 55 :: uint_chars d
  | Decimal.D8 d => 56 :: uint_chars d
  | Decimal.D9 d => 57 :: uint_chars d
  end.

Definition int_repr (z : Z) : pystr :=
  match Z.to_int z with
  | Decimal.Pos d => uint_chars d
  | Decimal.Neg d => 45 :: uint_chars d
  end.

(** [sep.join(chunks)]. *)
Fixpoint join (sep : pystr) (chunks : list pystr) : pystr :=
  match chunks with
  | [] => []
  | c :: cs =>
      match cs with
      | [] => c
      | _ :: _ => c ++ sep ++ join sep cs
      end
  end.

(** [sorted(dct.items())]: a dict has no two items with one key, so the
    comparison of two items is decided by their keys.  [sorted] is stable:
    an item is put before the first item whose key is not smaller. *)
Definition key_le {V} (a b : pystr * V) : Prop := pystr_le a.1 b.1.

Fixpoint insert_item {V} (x : pystr * V) (l : list (pystr * V))
  : list (pystr * V) :=
  match l with
  | [] => [x]
  | y :: l' => if pystr_leb x.1 y.1 then x :: l else y :: insert_item x l'
  end.

Definition sorted_items {V} (items : list (pystr * V)) : list (pystr * V) :=
  foldr insert_item [] items.

Section dumps.
Variables (ensure_ascii sort_keys : bool).

Definition encoder (s : pystr) : pystr :=
  if ensure_ascii then encode_basestring_ascii s else encode_basestring s.

Definition item_separator : pystr := py ", ".
Definition key_separator : pystr := py ": ".

(** [_iterencode], [_iterencode_list] and [_iterencode_dict] with
    indent=None, the chunks already joined.  The values of a dict are
    encoded before its items are put in key order, which prints the same
    text as sorting first: the order depends on the keys alone. *)
Fixpoint iterencode (o : json) : pystr :=
  match o with
  | JStr s => encoder s
  | JNull => py "null"
  | JBool true => py "true"
  | JBool false => py "false"
  | JInt z => int_repr z
  | JFloat r => r
  | JList lst =>
      if bool_decide (lst = []) then py "[]"
      else py "[" ++ join item_separator (map iterencode lst) ++ py "]"
  | JDict dct =>
      if bool_decide (dct = []) then py "{}"
      else
        let chunks := map (λ kv, (kv.1, iterencode kv.2)) dct in
        let items := if sort_keys then sorted_items chunks else chunks in
        py "{"
        ++ join item_separator
             (map (λ kc, encoder kc.1 ++ key_separator ++ kc.2) items)
        ++ py "}"
  end.
End dumps.

(** [json.dumps(obj, ensure_ascii=..., sort_keys=...)]. *)
Definition json_dumps (ensure_ascii sort_keys : bool) (obj : json) : pystr :=
  iterencode ensure_ascii sort_keys obj.

(** ** The canonical key (lines 46-47) *)

Definition normalize_site (item : json) : pystr :=
  json_dumps false true item.

(** ** Structural equality of decoded values *)

(** Scalars are equal when they have the same type and the same value; lists
    when they are equal element by element; dicts when they have the same
    number of items and every key of the first is bound, in the second, to an
    equal value, whatever the order of the items. *)
Fixpoint json_eqb (a b : json) {struct a} : bool :=
  match a, b with
  | JNull, JNull => true
  | JBool x, JBool y => bool_decide (x = y)
  | JInt x, JInt y => bool_decide (x = y)
  | JFloat x, JFloat y => bool_decide (x = y)
  | JStr x, JStr y => bool_decide (x = y)
  | JList l1, JList l2 =>
      (fix go (l1 l2 : list json) : bool :=
         match l1, l2 with
         | [], [] => true
         | x :: l1', y :: l2' => json_eqb x y && go l1' l2'
         | _, _ => false
         end) l1 l2
  | JDict d1, JDict d2 =>
      bool_decide (length d1 = length d2)
      && (fix all (d : list (pystr * json)) : bool :=
            match d with
            | [] => true
            | kv :: d' =>
                match dict_lookup kv.1 d2 with
                | Some v' => json_eqb kv.2 v'
                | None => false
                end && all d'
            end) d1
  | _, _ => false
  end.

(** The invariants of a decoded value: the keys of a dict are distinct, and
    the text of a float is one that [floatstr] prints. *)
Definition number_char (c : N) : bool :=
  bool_decide (c ∈ py "0123456789+-.eInfinityNaN").

Definition floatstr_ok (r : pystr) : bool :=
  bool_decide (r = py "NaN" ∨ r = py "Infinity" ∨ r = py "-Infinity")
  || (forallb (λ c, bool_decide (c ∈ py "0123456789+-.e")) r
      && existsb (λ c, bool_decide (c ∈ py ".e")) r
      && match r with
         | c :: _ => bool_decide (c ∈ py "-0123456789")
         | [] => false
         end).

Fixpoint floats_ok (o : json) : bool :=
  match o with
  | JFloat r => floatstr_ok r
  | JList l => forallb floats_ok l
  | JDict d => forallb (λ kv, floats_ok kv.2) d
  | _ => true
  end.

Fixpoint keys_distinct (o : json) : bool :=
  match o with
  | JList l => forallb keys_distinct l
  | JDict d => bool_decide (NoDup d.*1) && forallb (λ kv, keys_distinct kv.2) d
  | _ => true
  end.

Definition json_wf (o : json) : bool := keys_distinct o && floats_ok o.

(** ** Notions used to state the properties of the encoder *)

Abbreviation enc := (iterencode false false).


Definition enc_item (ea : bool) (kv : pystr * json) : pystr :=
  encoder ea kv.1 ++ key_separator ++ iterencode ea false kv.2.

(** The value whose plain encoding is the key-sorted encoding: the items of
    every dict put in key order. *)
Fixpoint sort_keys_of (o : json) : json :=
  match o with
  | JList l => JList (map sort_keys_of l)
  | JDict d => JDict (sorted_items (map (λ kv, (kv.1, sort_keys_of kv.2)) d))
  | _ => o
  end.

(** What may follow an encoded value inside a document: nothing, a comma
    or a closing bracket. *)
Definition delim (r : pystr) : Prop :=
  match r with
  | [] => True
  | c :: _ => c = 44 ∨ c = 93 ∨ c = 125
  end.

(** The first character of an encoded value tells its type, up to the
    number being an int or a float. *)
Definition starts (o : json) (c : N) : Prop :=
  match o with
  | JNull => c = 110
  | JBool true => c = 116
  | JBool false => c = 102
  | JInt _ => 48 ≤ c ≤ 57 ∨ c = 45
  | JFloat _ => 48 ≤ c ≤ 57 ∨ c = 45 ∨ c = 78 ∨ c = 73
  | JStr _ => c = 34
  | JList _ => c = 91
  | JDict _ => c = 123
  end.

(** Literals of the source are unfolded to their code points, and
    membership in a literal becomes a disjunction of equalities. *)
Ltac py_eval :=
  repeat match goal with
         | |- context [py ?s] =>
             let l := eval vm_compute in (py s) in change (py s) with l
         | H : context [py ?s] |- _ =>
             let l := eval vm_compute in (py s) in change (py s) with l in H
         end.

Ltac char_class :=
  py_eval;
  repeat match goal with
         | H : bool_decide _ = true |- _ => apply bool_decide_eq_true in H
         | |- bool_decide _ = true => apply bool_decide_eq_true
         end;
  repeat match goal with
         | H : context [_ ∈ _ :: _] |- _ => rewrite elem_of_cons in H
         | H : context [_ ∈ []] |- _ => rewrite elem_of_nil in H
         | |- context [_ ∈ _ :: _] => rewrite elem_of_cons
         | |- context [_ ∈ []] => rewrite elem_of_nil
         end.


(** ** Control flow of a function body *)

(** What a block of statements does: fall through to the next statement,
    [return] a value, or raise. *)
Inductive flow (A : Type) :=
| Next
| Return (a : A)
| Throw (e : exn).
Arguments Next {A}.
Arguments Return {A} a.
Arguments Throw {A} e.

(** [s1; s2]. *)
Definition seq {A} (s1 s2 : flow A) : flow A :=
  match s1 with
  | Next => s2
  | _ => s1
  end.

(** [x = e; s], where evaluating [e] may raise. *)
Definition bind_flow {X A} (e : result X) (s : X → flow A) : flow A :=
  match e with
  | Ok x => s x
  | Raise err => Throw err
  end.

(** [try: body  except Exception: handler]. *)
Definition try_except {A} (body : flow A) (handler : exn → flow A) : flow A :=
  match body with
  | Throw e => handler e
  | _ => body
  end.

(** A function body whose last statement is [return last]. *)
Definition ends_with {A} (body : flow A) (last : A) : result A :=
  match body with
  | Next => Ok last
  | Return a => Ok a
  | Throw e => Raise e
  end.

Declare Scope flow_scope.
Delimit Scope flow_scope with flow.
Notation "s1 ;; s2" := (seq s1 s2)
  (at level 100, s2 at level 200, right associativity) : flow_scope.
Notation "'let!' x := e 'in' s" := (bind_flow e (λ x, s))
  (at level 10, x binder, s at level 200) : flow_scope.

(** ** json.loads *)

Section loads.
(** [parse_float]: the float a number literal with a fraction or an exponent
    rounds to, given by its [floatstr] text.  Rounding a decimal literal to
    binary floating point is not modelled. *)
Variable parse_float : pystr → pystr.

(** [' \t\n\r']. *)
Definition is_ws (c : N) : bool :=
  (c =? 32) || (c =? 9) || (c =? 10) || (c =? 13).

Fixpoint skip_ws (s : pystr) : pystr :=
  match s with
  | c :: s' => if is_ws c then skip_ws s' else s
  | [] => []
  end.

Definition is_digit (c : N) : bool := (48 <=? c) && (c <=? 57).

Definition hexval (c : N) : option N :=
  if is_digit c then Some (c - 48)
  else if (97 <=? c) && (c <=? 102) then Some (c - 87)
  else if (65 <=? c) && (c <=? 70) then Some (c - 55)
  else None.

(** The four hex digits of a [\uXXXX] escape. *)
Definition decode_uXXXX (h1 h2 h3 h4 : N) : option N :=
  match hexval h1, hexval h2, hexval h3, hexval h4 with
  | Some a, Some b, Some c, Some d => Some (((a * 16 + b) * 16 + c) * 16 + d)
  | _, _, _, _ => None
  end.

(** [BACKSLASH] of json/decoder.py. *)
Definition BACKSLASH (c : N) : option N :=
  if c =? 34 then Some 34
  else if c =? 92 then Some 92
  else if c =? 47 then Some 47
  else if c =? 98 then Some 8
  else if c =? 102 then Some 12
  else if c =? 110 then Some 10
  else if c =? 114 then Some 13
  else if c =? 116 then Some 9
  else None.

Definition cons_char (c : N) (r : result (pystr * pystr))
  : result (pystr * pystr) :=
  match r with
  | Ok (str, rest) => Ok (c :: str, rest)
  | Raise e => Raise e
  end.

(** [scanstring] with strict=True, from the character after the opening
    quote: the decoded string and the text after the closing quote. *)
Fixpoint scanstring (s : pystr) : result (pystr * pystr) :=
  match s with
  | [] => Raise JSONDecodeError
  | c :: s1 =>
      if c =? 34 then Ok ([], s1)
      else if c =? 92 then
        match s1 with
        | [] => Raise JSONDecodeError
        | esc :: s2 =>
            if esc =? 117 then
              match s2 with
              | h1 :: h2 :: h3 :: h4 :: s6 =>
                  match decode_uXXXX h1 h2 h3 h4 with
                  | None => Raise JSONDecodeError
                  | Some uni =>
                      if (55296 <=? uni) && (uni <=? 56319) then
                        match s6 with
                        | b :: u :: g1 :: g2 :: g3 :: g4 :: s12 =>
                            if (b =? 92) && (u =? 117) then
                              match decode_uXXXX g1 g2 g3 g4 with
                              | None => Raise JSONDecodeError
                              | Some uni2 =>
                                  if (56320 <=? uni2) && (uni2 <=? 57343)
                                  then
                                    cons_char
                                      (65536
                                       + N.lor (N.shiftl (uni - 55296) 10)
                                               (uni2 - 56320))
                                      (scanstring s12)
                                  else cons_char uni (scanstring s6)
                              end
                            else cons_char uni (scanstring s6)
                        | _ => cons_char uni (scanstring s6)
                        end
                      else cons_char uni (scanstring s6)
                  end
              | _ => Raise JSONDecodeError
              end
            else
              match BACKSLASH esc with
              | Some ch => cons_char ch (scanstring s2)
              | None => Raise JSONDecodeError
              end
        end
      else if c <? 32 then Raise JSONDecodeError
      else cons_char c (scanstring s1)
  end.

(** The longest prefix of digits, and what follows it. *)
Fixpoint span_digits (s : pystr) : pystr * pystr :=
  match s with
  | c :: s' =>
      if is_digit c then let '(d, r) := span_digits s' in (c :: d, r)
      else ([], s)
  | [] => ([], [])
  end.

(** [NUMBER_RE], with ASCII digits as the C scanner reads them: an integer
    part (an optional minus sign, then 0 or a digit from 1 to 9 and more
    digits), an optional fraction (a dot and digits), an optional exponent
    (e or E, an optional sign, digits).  The three groups and the rest. *)
Definition match_integer (s : pystr) : option (pystr * pystr) :=
  let '(sign, s0) :=
    match s with
    | c :: s' => if c =? 45 then ([45], s') else ([], s)
    | [] => ([], s)
    end in
  match s0 with
  | c :: s1 =>
      if c =? 48 then Some (sign ++ [48], s1)
      else if is_digit c then
        let '(d, r) := span_digits s1 in Some (sign ++ c :: d, r)
      else None
  | [] => None
  end.

Definition match_frac (s : pystr) : pystr * pystr :=
  match s with
  | c :: s1 =>
      if c =? 46 then
        match span_digits s1 with
        | ([], _) => ([], s)
        | (d, r) => (c :: d, r)
        end
      else ([], s)
  | [] => ([], s)
  end.

Definition match_exp (s : pystr) : pystr * pystr :=
  match s with
  | e :: s1 =>
      if (e =? 101) || (e =? 69) then
        let '(sign, s2) :=
          match s1 with
          | c :: s' => if (c =? 45) || (c =? 43) then ([c], s') else ([], s1)
          | [] => ([], s1)
          end in
        match span_digits s2 with
        | ([], _) => ([], s)
        | (d, r) => (e :: sign ++ d, r)
        end
      else ([], s)
  | [] => ([], s)
  end.

(** [int(integer)] for a literal matched by the first group.  (The limit
    CPython 3.11 puts on the number of digits of such a literal is not
    modelled.) *)
Definition digits_value (d : pystr) : Z :=
  fold_left (λ acc c, acc * 10 + Z.of_N (c - 48))%Z d 0%Z.

Definition parse_int (lit : pystr) : Z :=
  match lit with
  | c :: d => if c =? 45 then (- digits_value d)%Z else digits_value lit
  | [] => 0%Z
  end.

Definition match_number (s : pystr) : option (json * pystr) :=
  match match_integer s with
  | None => None
  | Some (integer, s1) =>
      let '(frac, s2) := match_frac s1 in
      let '(exp, s3) := match_exp s2 in
      if bool_decide (frac = []) && bool_decide (exp = [])
      then Some (JInt (parse_int integer), s3)
      else Some (JFloat (parse_float (integer ++ frac ++ exp)), s3)
  end.

(** [s.startswith(lit)], with what follows the literal. *)
Fixpoint strip_prefix (lit s : pystr) : option pystr :=
  match lit, s with
  | [], _ => Some s
  | c :: lit', c' :: s' => if c =? c' then strip_prefix lit' s' else None
  | _ :: _, [] => None
  end.

(** [d[k] = v] on the items of a dict: a key already present keeps its
    place and takes the new value. *)
Fixpoint dict_set (d : list (pystr * json)) (k : pystr) (v : json)
  : list (pystr * json) :=
  match d with
  | [] => [(k, v)]
  | (k', v') :: d' =>
      if decide (k' = k) then (k, v) :: d' else (k', v') :: dict_set d' k v
  end.

(** [scan_once], [JSONArray] and [JSONObject].  [fuel] bounds the number of
    nested calls, and a call without fuel raises [RecursionError];
    [json_loads] gives enough fuel for the whole text, so that this never
    happens.  (The recursion limit of the interpreter, which refuses a
    document nested some thousand levels deep with the same exception, is
    not modelled.) *)
Fixpoint scan_once (fuel : nat) (s : pystr) : result (json * pystr) :=
  match fuel with
  | O => Raise RecursionError
  | S fuel =>
      match s with
      | [] => Raise JSONDecodeError
      | c :: s1 =>
          if c =? 34 then
            match scanstring s1 with
            | Ok (str, rest) => Ok (JStr str, rest)
            | Raise e => Raise e
            end
          else if c =? 123 then
            match skip_ws s1 with
            | c' :: s2 =>
                if c' =? 125 then Ok (JDict [], s2)
                else parse_object fuel (c' :: s2) []
            | [] => Raise JSONDecodeError
            end
          else if c =? 91 then
            match skip_ws s1 with
            | c' :: s2 =>
                if c' =? 93 then Ok (JList [], s2)
                else parse_array fuel (c' :: s2) []
            | [] => Raise JSONDecodeError
            end
          else
            match strip_prefix (py "null") s, strip_prefix (py "true") s,
                  strip_prefix (py "false") s with
            | Some r, _, _ => Ok (JNull, r)
            | _, Some r, _ => Ok (JBool true, r)
            | _, _, Some r => Ok (JBool false, r)
            | None, None, None =>
                match strip_prefix (py "NaN") s,
                      strip_prefix (py "Infinity") s,
                      strip_prefix (py "-Infinity") s with
                | Some r, _, _ => Ok (JFloat (py "NaN"), r)
                | _, Some r, _ => Ok (JFloat (py "Infinity"), r)
                | _, _, Some r => Ok (JFloat (py "-Infinity"), r)
                | None, None, None =>
                    match match_number s with
                    | Some vr => Ok vr
                    | None => Raise JSONDecodeError
                    end
                end
            end
      end
  end
with parse_array (fuel : nat) (s : pystr) (values : list json)
  : result (json * pystr) :=
  match fuel with
  | O => Raise RecursionError
  | S fuel =>
      match scan_once fuel s with
      | Raise e => Raise e
      | Ok (value, s1) =>
          let values := values ++ [value] in
          match skip_ws s1 with
          | c :: s2 =>
              if c =? 93 then Ok (JList values, s2)
              else if c =? 44 then parse_array fuel (skip_ws s2) values
              else Raise JSONDecodeError
          | [] => Raise JSONDecodeError
          end
      end
  end
with parse_object (fuel : nat) (s : pystr) (pairs : list (pystr * json))
  : result (json * pystr) :=
  match fuel with
  | O => Raise RecursionError
  | S fuel =>
      match s with
      | c :: s1 =>
          if c =? 34 then
            match scanstring s1 with
            | Raise e => Raise e
            | Ok (key, s2) =>
                match skip_ws s2 with
                | c' :: s3 =>
                    if c' =? 58 then
                      match scan_once fuel (skip_ws s3) with
                      | Raise e => Raise e
                      | Ok (value, s4) =>
                          let pairs := dict_set pairs key value in
                          match skip_ws s4 with
                          | c'' :: s5 =>
                              if c'' =? 125 then Ok (JDict pairs, s5)
                              else if c'' =? 44
                                   then parse_object fuel (skip_ws s5) pairs
                                   else Raise JSONDecodeError
                          | [] => Raise JSONDecodeError
                          end
                      end
                    else Raise JSONDecodeError
                | [] => Raise JSONDecodeError
                end
            end
          else Raise JSONDecodeError
      | [] => Raise JSONDecodeError
      end
  end.

(** [json.loads(s)]: a text starting with a byte order mark is refused, and
    so is one with anything but white space after the document. *)
Definition json_loads (s : pystr) : result json :=
  match s with
  | 65279 :: _ => Raise JSONDecodeError
  | _ =>
      match scan_once (2 * length s + 2) (skip_ws s) with
      | Raise e => Raise e
      | Ok (obj, rest) =>
          match skip_ws rest with
          | [] => Ok obj
          | _ :: _ => Raise JSONDecodeError
          end
      end
  end.
End loads.

(** A result of a scanner on a text of [n] characters is well behaved when
    it leaves fewer than [n] characters or raises [JSONDecodeError]: it has
    advanced, or it has refused the text, and it has not run out of fuel. *)
Definition advances {X} (n : nat) (r : result (X * pystr)) : Prop :=
  match r with
  | Ok (_, rest) => (length rest < n)%nat
  | Raise e => e = JSONDecodeError
  end.

(** ** Regular expressions *)

(** The part of Python's [re] the script uses: literals and character sets,
    concatenation, greedy and lazy repetition of a one-character atom, an
    optional atom, and a capturing group.  Matching backtracks as [re] does:
    alternatives are tried in order and the first complete match wins. *)
Module Re.

Inductive regex :=
| Chr (p : N → bool)
| Seq (r1 r2 : regex)
| Star (p : N → bool)
| LazyStar (p : N → bool)
| Opt (r : regex)
| Group (r : regex).

(** [x+]. *)
Definition Plus (p : N → bool) : regex := Seq (Chr p) (Star p).

(** One literal character. *)
Definition lit (c : N) : N → bool := N.eqb c.

(** One literal character under [re.IGNORECASE], for a [str] pattern: a
    letter matches both its cases, and [i], [s] and [k] also match the four
    non-ASCII letters that fold to them. *)
Definition lit_i (c : N) : N → bool :=
  let lo := if (65 <=? c) && (c <=? 90) then c + 32 else c in
  if (97 <=? lo) && (lo <=? 122) then
    λ x, (x =? lo) || (x =? lo - 32)
         || (if lo =? 105 then (x =? 304) || (x =? 305) else false)
         || (if lo =? 115 then x =? 383 else false)
         || (if lo =? 107 then x =? 8490 else false)
  else N.eqb c.

(** [\s] for a [str] pattern: the Unicode white space. *)
Definition space (c : N) : bool :=
  ((9 <=? c) && (c <=? 13)) || ((28 <=? c) && (c <=? 32))
  || (c =? 133) || (c =? 160) || (c =? 5760)
  || ((8192 <=? c) && (c <=? 8202))
  || (c =? 8232) || (c =? 8233) || (c =? 8239) || (c =? 8287)
  || (c =? 12288).

(** [[\s\S]]. *)
Definition any (c : N) : bool := space c || negb (space c).

(** The literals of a pattern, one after the other. *)
Fixpoint lits (mk : N → N → bool) (s : pystr) (r : regex) : regex :=
  match s with
  | [] => r
  | c :: s' => Seq (Chr (mk c)) (lits mk s' r)
  end.

Section run.
Context {R : Type}.

(** [p*]: as many characters as possible, then fewer. *)
Fixpoint star (p : N → bool) (s : pystr) (k : pystr → option R)
  : option R :=
  match s with
  | c :: s' =>
      if p c then
        match star p s' k with
        | Some x => Some x
        | None => k s
        end
      else k s
  | [] => k []
  end.

(** [p*?]: as few characters as possible, then more. *)
Fixpoint lazy_star (p : N → bool) (s : pystr) (k : pystr → option R)
  : option R :=
  match k s with
  | Some x => Some x
  | None =>
      match s with
      | c :: s' => if p c then lazy_star p s' k else None
      | [] => None
      end
  end.

(** Match [r] at the start of [s]; [k] receives what is left of the
    text and the text of the group. *)
Fixpoint run (r : regex) (s : pystr) (g : option pystr)
         (k : pystr → option pystr → option R) : option R :=
  match r with
  | Chr p =>
      match s with
      | c :: s' => if p c then k s' g else None
      | [] => None
      end
  | Seq r1 r2 => run r1 s g (λ s' g', run r2 s' g' k)
  | Star p => star p s (λ s', k s' g)
  | LazyStar p => lazy_star p s (λ s', k s' g)
  | Opt r1 =>
      match run r1 s g k with
      | Some x => Some x
      | None => k s g
      end
  | Group r1 =>
      run r1 s g (λ s' _, k s' (Some (take (length s - length s') s)))
  end.
End run.

(** A match object: [group(0)], [group(1)] and the text after the match. *)
Record match_ := { group0 : pystr; group1 : option pystr; after : pystr }.

(** [pattern.match(s)]: a match at the start of [s]. *)
Definition match_at (r : regex) (s : pystr) : option match_ :=
  run r s None
      (λ s' g, Some {| group0 := take (length s - length s') s;
                       group1 := g; after := s' |}).

(** [pattern.search(s)]: the match at the leftmost position that has one. *)
Fixpoint search (r : regex) (s : pystr) : option match_ :=
  match match_at r s with
  | Some m => Some m
  | None =>
      match s with
      | _ :: s' => search r s'
      | [] => None
      end
  end.

(** The scan of [finditer] and [sub]: left to right, a match found at a
    position is taken and the scan resumes after it; [skip] counts the
    characters of the current match still to pass.  (A pattern of the
    script never matches the empty string.) *)
Fixpoint finditer_from (r : regex) (skip : nat) (s : pystr) : list pystr :=
  match skip with
  | S n =>
      match s with
      | _ :: s' => finditer_from r n s'
      | [] => []
      end
  | O =>
      match match_at r s with
      | Some m =>
          group0 m ::
            match s with
            | _ :: s' => finditer_from r (length (group0 m) - 1) s'
            | [] => []
            end
      | None =>
          match s with
          | _ :: s' => finditer_from r 0 s'
          | [] => []
          end
      end
  end.

(** [[m.group(0) for m in re.finditer(pattern, s)]]. *)
Definition finditer (r : regex) (s : pystr) : list pystr :=
  finditer_from r 0 s.

Fixpoint sub_from (r : regex) (skip : nat) (s : pystr) : pystr :=
  match skip with
  | S n =>
      match s with
      | _ :: s' => sub_from r n s'
      | [] => []
      end
  | O =>
      match match_at r s with
      | Some m =>
          default [] (group1 m) ++
            match s with
            | c :: s' =>
                match group0 m with
                | [] => c :: sub_from r 0 s'
                | _ :: _ => sub_from r (length (group0 m) - 1) s'
                end
            | [] => []
            end
      | None =>
          match s with
          | c :: s' => c :: sub_from r 0 s'
          | [] => []
          end
      end
  end.

(** [re.sub(pattern, r"\1", s)]. *)
Definition sub_group1 (r : regex) (s : pystr) : pystr := sub_from r 0 s.

End Re.

(** ** The patterns of the script *)

(** Line 30: the key "sites" in any case between double quotes, white space,
    a colon, white space, then group 1: an opening square bracket, as few
    characters as possible, a closing square bracket. *)
Definition SITES_REGEX : Re.regex :=
  Re.Seq (Re.Chr (Re.lit_i 34))
    (Re.lits Re.lit_i (py "sites")
       (Re.Seq (Re.Chr (Re.lit_i 34))
          (Re.Seq (Re.Star Re.space)
             (Re.Seq (Re.Chr (Re.lit 58))
                (Re.Seq (Re.Star Re.space)
                   (Re.Group
                      (Re.Seq (Re.Chr (Re.lit 91))
                         (Re.Seq (Re.LazyStar Re.any)
                            (Re.Chr (Re.lit 93)))))))))).

(** Line 69: a comma, white space, then group 1: a closing square bracket or
    a closing brace. *)
Definition TRAILING_COMMA : Re.regex :=
  Re.Seq (Re.Chr (Re.lit 44))
    (Re.Seq (Re.Star Re.space)
       (Re.Group (Re.Chr (λ c, (c =? 93) || (c =? 125))))).

(** Line 138: http, an optional s, a colon and two slashes, then one or more
    characters that are neither white space, nor a quote of either kind, nor
    a comma. *)
Definition URL_REGEX : Re.regex :=
  Re.lits Re.lit (py "http")
    (Re.Seq (Re.Opt (Re.Chr (Re.lit 115)))
       (Re.lits Re.lit (py "://")
          (Re.Plus (λ c, negb (Re.space c || (c =? 39) || (c =? 34)
                               || (c =? 44)))))).

(** ** Recovery of the sites array (lines 50-76) *)

Section extract.
Variable parse_float : pystr → pystr.

Local Open Scope flow_scope.

(** The test of lines 53 and 92. *)
Definition has_sites_list (obj : json) : bool :=
  match obj with
  | JDict d => dict_in (py "sites") d && is_list (dict_get d (py "sites"))
  | _ => false
  end.

(** A list value as the list of its elements. *)
Definition elements (o : json) : list json :=
  match o with
  | JList l => l
  | _ => []
  end.

(** [obj["sites"]]. *)
Definition sites_item (obj : json) : json :=
  match obj with
  | JDict d => dict_get d (py "sites")
  | _ => JNull
  end.

(** Lines 51-59: the strict parse of the whole document. *)
Definition strict_parse (text : pystr) : flow (list json) :=
  try_except
    (let! obj := json_loads parse_float text in
     (if has_sites_list obj then Return (elements (sites_item obj))
      else Next) ;;
     (if is_list obj then Return (elements obj) else Next))
    (λ _, Next).

(** Lines 61-75: the regex recovery and the trailing-comma repair. *)
Definition regex_recovery (text : pystr) : flow (list json) :=
  match Re.search SITES_REGEX text with
  | Some m =>
      let arr_text := default [] (Re.group1 m) in
      try_except
        (let! arr := json_loads parse_float arr_text in
         if is_list arr then Return (elements arr) else Next)
        (λ _,
           let cleaned := Re.sub_group1 TRAILING_COMMA arr_text in
           try_except
             (let! arr := json_loads parse_float cleaned in
              if is_list arr then Return (elements arr) else Next)
             (λ _, Next))
  | None => Next
  end.

Definition extract_sites_from_text (text : pystr) : result (list json) :=
  ends_with (strict_parse text ;; regex_recovery text) [].
End extract.

(** ** Resolution of the URLs of the index (lines 127-139) *)

(** The test of line 128. *)
Definition has_urls_list (data : json) : bool :=
  match data with
  | JDict d => dict_in (py "urls") d && is_list (dict_get d (py "urls"))
  | _ => false
  end.

(** [entry.get("url") or entry.get("Url") or entry.get("link")]. *)
Definition entry_url (d : list (pystr * json)) : json :=
  py_or (py_or (dict_get d (py "url")) (dict_get d (py "Url")))
        (dict_get d (py "link")).

(** One turn of the loop of lines 129-135, [urls] being the list built so
    far. *)
Definition add_entry (urls : list json) (entry : json) : list json :=
  match entry with
  | JDict d =>
      let u := entry_url d in
      if truthy u then urls ++ [u] else urls
  | JStr _ => urls ++ [entry]
  | _ => urls
  end.

Definition resolve_urls (data : json) : list json :=
  if has_urls_list data then
    match data with
    | JDict d => foldl add_entry [] (elements (dict_get d (py "urls")))
    | _ => []
    end
  else
    foldl (λ urls m, urls ++ [JStr m]) []
          (Re.finditer URL_REGEX (json_dumps true false data)).

(** The resolution of one entry as the specification words it: a string is
    taken as it is, an object gives the value of the first key it has among
    [url], [Url] and [link], and nothing when it has none of them. *)
Definition first_present (d : list (pystr * json)) : option json :=
  match dict_lookup (py "url") d with
  | Some v => Some v
  | None =>
      match dict_lookup (py "Url") d with
      | Some v => Some v
      | None => dict_lookup (py "link") d
      end
  end.

Definition resolve_entry_spec (entry : json) : option json :=
  match entry with
  | JStr _ => Some entry
  | JDict d => first_present d
  | _ => None
  end.

Definition resolve_urls_spec (entries : list json) : list json :=
  omap resolve_entry_spec entries.

(** The resolution of one entry as the code does it: the value of the first
    of the three keys whose value is true in the sense of [bool]. *)
Definition first_truthy (d : list (pystr * json)) : option json :=
  head (filter (λ v, truthy v = true)
               [dict_get d (py "url"); dict_get d (py "Url");
                dict_get d (py "link")]).

Definition resolve_entry (entry : json) : option json :=
  match entry with
  | JStr _ => Some entry
  | JDict d => first_truthy d
  | _ => None
  end.

(** ** The network, the clock and the console *)

(** A response of [requests.get]: [r.status_code], [r.text] and what
    [r.json()] gives, a decoded value or an exception. *)
Record response := {
  status_code : Z;
  text : pystr;
  json_ : result json;
}.

(** The lines the script prints. *)
Inductive line :=
| InfoFound (n : nat) (max : Z)
| InfoGet (url : json)
| WarnStatus (url : json) (status : Z)
| InfoNoSites (url : json)
| ErrorFetch (url : json) (e : exn)
| InfoTotal (n : nat).

(** What the script does to the outside, in order. *)
Inductive event :=
| EPrint (l : line)
| EGet (url : json) (timeout : Z)
| ESleep (seconds : Q).

(** The URL a line shows, for the lines that show one; the two other lines
    are made of ASCII characters only. *)
Definition line_url (l : line) : option json :=
  match l with
  | InfoGet url | WarnStatus url _ | InfoNoSites url | ErrorFetch url _ =>
      Some url
  | InfoFound _ _ | InfoTotal _ => None
  end.

(** The delays [time.sleep] can count without doubt: it counts a sleep in
    nanoseconds on 64 bits, signed, and nine thousand million seconds fit,
    whatever their sign. *)
Definition time_sleep_range (seconds : Q) : Prop :=
  (inject_Z (-9000000000) <= seconds <= inject_Z 9000000000)%Q.

(** The URLs of the requests of a trace. *)
Definition gets (t : list event) : list json :=
  omap (λ e, match e with EGet u _ => Some u | _ => None end) t.

(** The sleeps of a trace. *)
Definition sleeps (t : list event) : list Q :=
  omap (λ e, match e with ESleep d => Some d | _ => None end) t.

Section merge.
Variable parse_float : pystr → pystr.

(** The network and the remote hosts, in some state.  [requests_get] is
    [requests.get(url, headers=HEADERS, timeout=timeout)]: a response, or
    an exception (no connection, timeout, invalid URL), and the state
    after the request.  [elapse] is the state after a sleep. *)
Variable World : Type.
Variable requests_get : json → Z → World → result response * World.
Variable elapse : Q → World → World.

(** [sys.stdout], for a line that shows a URL: whether its encoding and
    error handler take every character of the line, the URL and the text of
    the exception included.  (In UTF-8 with the strict handler a lone
    surrogate, which [json.loads] builds from an escape, is not taken.) *)
Variable stdout_takes : line → bool.

Record io := { world : World; trace : list event }.

(** An expression or a call: a value or an exception, and the state
    after. *)
Definition comp (A : Type) : Type := io → result A * io.

(** A block of statements of a function that returns an [A]. *)
Definition stmt (A : Type) : Type := io → flow A * io.

Definition cret {A} (a : A) : comp A := λ σ, (Ok a, σ).

Definition cbind {X A} (e : comp X) (k : X → comp A) : comp A :=
  λ σ, match e σ with
       | (Ok x, σ') => k x σ'
       | (Raise err, σ') => (Raise err, σ')
       end.

(** [try: body  except Exception as e: handler], as the last statement. *)
Definition ctry {A} (body : comp A) (handler : exn → comp A) : comp A :=
  λ σ, match body σ with
       | (Raise e, σ') => handler e σ'
       | r => r
       end.

Definition snext {A} : stmt A := λ σ, (Next, σ).
Definition sreturn {A} (a : A) : stmt A := λ σ, (Return a, σ).

(** [s1; s2]. *)
Definition sseq {A} (s1 s2 : stmt A) : stmt A :=
  λ σ, match s1 σ with
       | (Next, σ') => s2 σ'
       | r => r
       end.

(** [x = e; s]. *)
Definition sdo {X A} (e : comp X) (s : X → stmt A) : stmt A :=
  λ σ, match e σ with
       | (Ok x, σ') => s x σ'
       | (Raise err, σ') => (Throw err, σ')
       end.

(** [try: body  except Exception: handler], followed by more statements. *)
Definition stry {A} (body : stmt A) (handler : exn → stmt A) : stmt A :=
  λ σ, match body σ with
       | (Throw e, σ') => handler e σ'
       | r => r
       end.

(** A block followed by the last statements of the function. *)
Definition sends {A} (body : stmt A) (last : comp A) : comp A :=
  λ σ, match body σ with
       | (Next, σ') => last σ'
       | (Return a, σ') => (Ok a, σ')
       | (Throw e, σ') => (Raise e, σ')
       end.

Definition emit (e : event) : io → io :=
  λ σ, {| world := world σ; trace := trace σ ++ [e] |}.

(** [print(...)]: a line that [sys.stdout] cannot encode raises
    [UnicodeEncodeError] and prints nothing.  The lines without a URL hold
    ASCII characters only and are printed.  (A stream that is closed or
    full is not modelled.) *)
Definition print (l : line) : comp unit :=
  λ σ, match line_url l with
       | Some _ =>
           if stdout_takes l then (Ok (), emit (EPrint l) σ)
           else (Raise UnicodeEncodeError, σ)
       | None => (Ok (), emit (EPrint l) σ)
       end.

(** [sys.stdout] takes the lines that show the URL [u], for a URL that is
    true in the sense of [bool]; nothing is printed for another one. *)
Definition url_prints (u : json) : Prop :=
  truthy u = true → ∀ l, line_url l = Some u → stdout_takes l = true.

(** [requests.get(url, headers=HEADERS, timeout=timeout)]. *)
Definition get (url : json) (timeout : Z) : comp response :=
  λ σ, let '(r, w) := requests_get url timeout (world σ) in
       (r, {| world := w; trace := trace σ ++ [EGet url timeout] |}).

(** The number of nanoseconds [time.sleep] counts for a delay: the delay
    times [10^9], rounded away from zero.  (The interpreter rounds the
    product to a double first; the model takes it exact.) *)
Definition sleep_ns (seconds : Q) : Z :=
  let ns := (seconds * inject_Z (10 ^ 9))%Q in
  if Qle_bool 0 ns then Qceiling ns else Qfloor ns.

(** [time.sleep(seconds)]: a count of nanoseconds that does not fit 64
    bits raises [OverflowError], whatever its sign, and a negative one that
    fits raises [ValueError]. *)
Definition time_sleep (seconds : Q) : comp unit :=
  λ σ, let ns := sleep_ns seconds in
       if negb ((- 2 ^ 63 <=? ns) && (ns <? 2 ^ 63))%Z
       then (Raise OverflowError, σ)
       else if (ns <? 0)%Z then (Raise ValueError, σ)
       else (Ok (), {| world := elapse seconds (world σ);
                       trace := trace σ ++ [ESleep seconds] |}).

(** A pure call inside a block. *)
Definition pure_ {A} (r : result A) : comp A := λ σ, (r, σ).

Declare Scope stmt_scope.
Delimit Scope stmt_scope with stmt.
Local Notation "s1 ;; s2" := (sseq s1 s2)
  (at level 100, s2 at level 200, right associativity) : stmt_scope.
Local Notation "'let!' x := e 'in' s" := (sdo e (λ x, s))
  (at level 10, x binder, s at level 200) : stmt_scope.
Local Open Scope stmt_scope.

(** ** The per-URL step (lines 79-110) *)

Definition fetch_and_extract (url : json) (timeout : Z) : comp (list json) :=
  sends
    ((if negb (truthy url) then sreturn [] else snext) ;;
     let! _ := print (InfoGet url) in snext)
    (ctry
       (cbind (get url timeout) (λ r,
          sends
            ((if negb (status_code r =? 200)%Z
              then let! _ := print (WarnStatus url (status_code r)) in
                   sreturn []
              else snext) ;;
             stry
               (let! obj := pure_ (json_ r) in
                (if has_sites_list obj
                 then sreturn (elements (sites_item obj)) else snext) ;;
                (if is_list obj then sreturn (elements obj) else snext) ;;
                (if is_dict obj
                 then let sites := sites_item obj in
                      if is_list sites then sreturn (elements sites)
                      else snext
                 else snext))
               (λ _, snext) ;;
             let! sites := pure_ (extract_sites_from_text parse_float (text r)) in
             (if truthy (JList sites) then sreturn sites else snext))
            (cbind (print (InfoNoSites url)) (λ _, cret []))))
       (λ e, cbind (print (ErrorFetch url e)) (λ _, cret []))).

(** ** The merge loop (lines 143-156) *)

Record acc := {
  merged : list json;
  seen : gset pystr;
  processed : Z;
}.

(** Lines 151-154, for one site. *)
Definition add_site (a : acc) (s : json) : acc :=
  let key := normalize_site s in
  if decide (key ∈ seen a) then a
  else {| merged := merged a ++ [s];
          seen := seen a ∪ {[key]};
          processed := processed a |}.

Definition count_url (a : acc) : acc :=
  {| merged := merged a; seen := seen a; processed := processed a + 1 |}.

(** [args.max and processed >= args.max]. *)
Definition cap_reached (max : Z) (a : acc) : bool :=
  truthy (JInt max) && (max <=? processed a)%Z.

Fixpoint merge_loop (max : Z) (delay : Q) (urls : list json) (a : acc)
  : comp acc :=
  match urls with
  | [] => cret a
  | u :: urls' =>
      if cap_reached max a then cret a
      else
        cbind (fetch_and_extract u 25) (λ sites,
          let a := count_url (foldl add_site a sites) in
          cbind (time_sleep delay) (λ _, merge_loop max delay urls' a))
  end.

Definition acc0 : acc := {| merged := []; seen := ∅; processed := 0 |}.

(** Lines 127-158: from the loaded index to the merged list.  Loading the
    index and writing the output file are modelled apart, in [Script]. *)
Definition main (data : json) (max : Z) (delay : Q) : comp (list json) :=
  let urls := resolve_urls data in
  cbind (print (InfoFound (length urls) max)) (λ _,
    cbind (merge_loop max delay urls acc0) (λ a,
      cbind (print (InfoTotal (length (merged a)))) (λ _,
        cret (merged a)))).

(** ** What the loop fetched *)

(** The lists [fetch_and_extract] returned, one for each URL the loop
    processed, in order. *)
Fixpoint loop_fetches (max : Z) (delay : Q) (urls : list json) (a : acc)
         (σ : io) : list (list json) :=
  match urls with
  | [] => []
  | u :: urls' =>
      if cap_reached max a then []
      else
        match fetch_and_extract u 25 σ with
        | (Ok sites, σ1) =>
            let a := count_url (foldl add_site a sites) in
            sites ::
              match time_sleep delay σ1 with
              | (Ok _, σ2) => loop_fetches max delay urls' a σ2
              | (Raise _, _) => []
              end
        | (Raise _, _) => []
        end
  end.
End merge.

Arguments world {World} _.
Arguments trace {World} _.
Arguments Build_io {World} _ _.

(** The accumulator [a] with its count of processed URLs set to [n]. *)
Definition with_processed (a : acc) (n : Z) : acc :=
  {| merged := merged a; seen := seen a; processed := n |}.

(** The sites of a list that are the first with their canonical key, in
    the order of the list. *)
Fixpoint first_seen (l : list json) : list json :=
  match l with
  | [] => []
  | s :: l' =>
      s :: filter (λ x, normalize_site x ≠ normalize_site s) (first_seen l')
  end.

(** ** Texts and documents of the examples *)

Definition text_sites_object : pystr := pyq "{'sites': [1,2]}".

(** [[{"sites": [5]}]]: an array that the strict parse returns whole, and
    in which the pattern finds [[5]]. *)
Definition text_sites_inside : pystr := pyq "[{'sites': [5]}]".
Definition text_trailing_comma : pystr :=
  pyq "prefix garbage 'sites': [1, 2,] suffix".
Definition text_nested_sites : pystr := pyq "{'data': {'sites': [1, 2]}}".
Definition text_sites_not_list : pystr := pyq "{'sites': {'sites': [3]}}".
Definition text_bare_array : pystr := pyq "[ {'a':1} ]".
Definition text_no_json : pystr := py "hello world".

Definition site_ab : json :=
  JDict [(py "name", JStr (py "x")); (py "tags", JList [JInt 1; JNull])].
Definition site_ba : json :=
  JDict [(py "tags", JList [JInt 1; JNull]); (py "name", JStr (py "x"))].


(** [{"urls": ["http://x/1", {"url": "http://x/2"}, {"link": "http://x/3"},
    {"nope": "z"}]}]. *)
Definition index_example : json :=
  JDict [(py "urls",
          JList [JStr (py "http://x/1");
                 JDict [(py "url", JStr (py "http://x/2"))];
                 JDict [(py "link", JStr (py "http://x/3"))];
                 JDict [(py "nope", JStr (py "z"))]])].

(** [{"urls": [{"url": "", "link": "http://x/3"}]}]. *)
Definition entries_empty_url : list json :=
  [JDict [(py "url", JStr []); (py "link", JStr (py "http://x/3"))]].
Definition index_empty_url : json := JDict [(py "urls", JList entries_empty_url)].

(** The values an object entry has under the three keys are all true. *)
Definition present_truthy (entry : json) : Prop :=
  match entry with
  | JDict d =>
      ∀ k v, k ∈ [py "url"; py "Url"; py "link"] →
             dict_lookup k d = Some v → truthy v = true
  | _ => True
  end.

(** ** What a pattern matches *)

(** The texts a pattern matches, whatever the order in which the
    alternatives are tried. *)
Inductive re_matches : Re.regex → pystr → Prop :=
| matches_chr p c : p c = true → re_matches (Re.Chr p) [c]
| matches_seq r1 r2 a b :
    re_matches r1 a → re_matches r2 b → re_matches (Re.Seq r1 r2) (a ++ b)
| matches_star p l :
    Forall (λ c, p c = true) l → re_matches (Re.Star p) l
| matches_lazy_star p l :
    Forall (λ c, p c = true) l → re_matches (Re.LazyStar p) l
| matches_opt_some r a : re_matches r a → re_matches (Re.Opt r) a
| matches_opt_none r : re_matches (Re.Opt r) []
| matches_group r a : re_matches r a → re_matches (Re.Group r) a.

(** [toks] are the matches of [r] in a text, from left to right and without
    overlap: before the first match no position has a match, the match taken
    at a position is the one [match] finds there, and the rest of the text is
    scanned from the end of the match. *)
Inductive scan (r : Re.regex) : pystr → list pystr → Prop :=
| scan_done s :
    (∀ pre post, s = pre ++ post → Re.match_at r post = None) →
    scan r s []
| scan_hit gap t rest toks m :
    (∀ pre post, gap = pre ++ post → post ≠ [] →
                 Re.match_at r (post ++ t ++ rest) = None) →
    Re.match_at r (t ++ rest) = Some m → Re.group0 m = t → t ≠ [] →
    scan r rest toks →
    scan r (gap ++ t ++ rest) (t :: toks).

(** A character of the tail of a URL token: no white space, no quote of
    either kind, no comma. *)
Definition url_char (c : N) : bool :=
  negb (Re.space c || (c =? 39) || (c =? 34) || (c =? 44)).

(** A URL token: the scheme, then one or more [url_char]. *)
Definition url_token (t : pystr) : Prop :=
  ∃ tail, (t = py "http://" ++ tail ∨ t = py "https://" ++ tail)
          ∧ tail ≠ [] ∧ Forall (λ c, url_char c = true) tail.


(** ** A network for the examples *)

(** [http://x/1] answers 200 with a document that lists one site twice, its
    keys in two orders; [http://x/2] answers 404; any other request fails.
    The state counts the requests. *)
Definition demo_get (url : json) (timeout : Z) (w : nat)
  : result response * nat :=
  match url with
  | JStr s =>
      if bool_decide (s = py "http://x/1") then
        (Ok {| status_code := 200;
               text := py "";
               json_ := Ok (JDict [(py "sites", JList [site_ab; site_ba])]) |},
         S w)
      else if bool_decide (s = py "http://x/2") then
        (Ok {| status_code := 404; text := py "not found";
               json_ := Raise JSONDecodeError |}, S w)
      else (Raise RequestException, S w)
  | _ => (Raise RequestException, S w)
  end.

Definition demo_elapse (seconds : Q) (w : nat) : nat := w.

(** A code point of the surrogate range, which UTF-8 does not encode. *)
Definition surrogate (c : N) : bool := (55296 <=? c) && (c <=? 57343).

(** A [sys.stdout] in UTF-8 with the strict handler, for exceptions whose
    text it takes: a line is refused when its URL is a string that holds a
    surrogate.  (The text [str] gives for a URL that is not a string shows
    the strings inside it escaped.) *)
Definition utf8_stdout (l : line) : bool :=
  match line_url l with
  | Some (JStr s) => negb (existsb surrogate s)
  | _ => true
  end.

Definition demo_io : io nat := {| world := O; trace := [] |}.

Definition demo_urls : list json :=
  [JStr (py "http://x/1"); JStr (py "http://x/2"); JStr (py "http://x/1")].

(** ** json.dump with an indent (line 162) *)

(** [_make_iterencode] of json/encoder.py for any indent and separators:
    [indent] is the text of one level, when there is one; [level] is
    [_current_indent_level].  As in [iterencode], the chunks are joined and
    the values of a dict are encoded before its items are put in key
    order. *)
Section make_iterencode.
Variables (ensure_ascii sort_keys : bool).
Variable indent : option pystr.
Variables (item_sep key_sep : pystr).

(** ['\n' + _indent * level]; nothing when there is no indent. *)
Definition newline_indent (level : nat) : pystr :=
  match indent with
  | Some i => 10 :: concat (replicate level i)
  | None => []
  end.

Fixpoint make_iterencode (level : nat) (o : json) : pystr :=
  match o with
  | JStr s => encoder ensure_ascii s
  | JNull => py "null"
  | JBool true => py "true"
  | JBool false => py "false"
  | JInt z => int_repr z
  | JFloat r => r
  | JList lst =>
      if bool_decide (lst = []) then py "[]"
      else
        py "[" ++ newline_indent (S level)
        ++ join (item_sep ++ newline_indent (S level))
                (map (make_iterencode (S level)) lst)
        ++ newline_indent level ++ py "]"
  | JDict dct =>
      if bool_decide (dct = []) then py "{}"
      else
        let chunks :=
          map (λ kv, (kv.1, make_iterencode (S level) kv.2)) dct in
        let items := if sort_keys then sorted_items chunks else chunks in
        py "{" ++ newline_indent (S level)
        ++ join (item_sep ++ newline_indent (S level))
                (map (λ kc, encoder ensure_ascii kc.1 ++ key_sep ++ kc.2)
                     items)
        ++ newline_indent level ++ py "}"
  end.
End make_iterencode.

(** The text [json.dump(obj, f, ensure_ascii=..., indent=n)] writes to [f]:
    the indent is [n] spaces, and with an indent the item separator is a
    comma alone. *)
Definition json_dump (ensure_ascii : bool) (n : nat) (obj : json) : pystr :=
  make_iterencode ensure_ascii false (Some (replicate n 32))
                  (py ",") (py ": ") 0 obj.

(** ** Values that are read back as they are *)

(** A float text the decoder reads back as itself: one of the three
    constants, or a number literal with a fraction or an exponent that
    [parse_float] maps to itself. *)
Definition float_read_back (parse_float : pystr → pystr) (r : pystr) : bool :=
  bool_decide (r = py "NaN" ∨ r = py "Infinity" ∨ r = py "-Infinity")
  || match match_number parse_float r with
     | Some (JFloat r', []) => bool_decide (r' = r)
     | _ => false
     end.

Fixpoint floats_read_back (parse_float : pystr → pystr) (o : json) : bool :=
  match o with
  | JFloat r => float_read_back parse_float r
  | JList l => forallb (floats_read_back parse_float) l
  | JDict d => forallb (λ kv, floats_read_back parse_float kv.2) d
  | _ => true
  end.

(** What may follow a value in a document: nothing, white space, a comma or
    a closing bracket. *)
Definition value_end (rest : pystr) : Prop :=
  match rest with
  | [] => True
  | c :: _ => is_ws c = true ∨ c = 44 ∨ c = 93 ∨ c = 125
  end.

(** The result of a scanner with some fuel: the value and the rest expected,
    or no fuel left. *)
Definition reads {X} (r : result (X * pystr)) (v : X) (rest : pystr) : Prop :=
  r = Ok (v, rest) ∨ r = Raise RecursionError.

(** [{"name": "x", "rate": 1.5, "ids": [-3, 0]}], and the same site with its
    items in key order. *)
Definition site_rate : json :=
  JDict [(py "name", JStr (py "x")); (py "rate", JFloat (py "1.5"));
         (py "ids", JList [JInt (-3); JInt 0])].
Definition site_rate_sorted : json :=
  JDict [(py "ids", JList [JInt (-3); JInt 0]); (py "name", JStr (py "x"));
         (py "rate", JFloat (py "1.5"))].

(** A site can be written and read back: its keys are distinct and its
    floats are read back as they are. *)
Definition site_ok (parse_float : pystr → pystr) (s : json) : bool :=
  keys_distinct s && floats_read_back parse_float s.

(** [out] of line 160. *)
Definition out_of (merged : list json) : json :=
  JDict [(py "sites", JList merged)].

(** A [parse_float] for the examples: a literal in the form [floatstr]
    prints (it is read back as itself) is kept, and any other literal gives
    [0.0].  (Rounding is not modelled.) *)
Definition demo_parse_float (lit : pystr) : pystr :=
  if float_read_back id lit then lit else py "0.0".

Definition text_rate : pystr := pyq "[{'rate': 1.5, 'n': -2}, 7.0]".

(** ** What the patterns capture *)

(** The number of lists in a value, the value itself included. *)
Fixpoint lists_in (o : json) : nat :=
  match o with
  | JList l => S (foldr (λ x n, lists_in x + n)%nat O l)
  | JDict d => foldr (λ kv n, lists_in kv.2 + n)%nat O d
  | _ => O
  end.

(** The number of closing square brackets in a text. *)
Definition closers (s : pystr) : nat :=
  length (filter (λ c, c = 93) (s : list N)).

(** A character the trailing-comma repair never deletes: neither a comma
    nor white space. *)
Definition kept (c : N) : Prop := c ≠ 44 ∧ Re.space c = false.

Global Instance kept_dec c : Decision (kept c).
Proof. unfold kept. apply _. Defined.

(** A document that is not JSON, whose first site holds a list. *)
Definition text_truncated : pystr :=
  pyq "x 'Sites' : [{'ext': [1, 2]}, {'b': 3}] y".

(** [{"page": "http://x/é"}]: an index without a [urls] list, with a URL
    that holds a character outside ASCII. *)
Definition index_accent : json :=
  JDict [(py "page", JStr (py "http://x/" ++ [233]))].

(** ** More examples for the loop *)

(** A host that answers every request with the document
    [{"sites": [1,2]}], and whose [r.json()] is [json.loads(r.text)]. *)
Definition same_get (url : json) (timeout : Z) (w : nat)
  : result response * nat :=
  (Ok {| status_code := 200; text := text_sites_object;
         json_ := json_loads id text_sites_object |}, S w).

(** [site_ab], a site with its key and [site_ab] with its items in another
    order, in two orders. *)
Definition sites_one_order : list json := [site_ab; site_rate; site_ba].
Definition sites_other_order : list json := [site_ba; site_ab; site_rate].

(** ** The script from its arguments to its output file
       (lines 33-43 and 113-163) *)

Module Script.

(** What is raised outside the loop: an exception of the classes above, the
    [HTTPError] of [raise_for_status], or what opening, reading or writing
    a file raises ([OSError], a [UnicodeError], and for the output file
    whatever stops [json.dump] on its way).  Each is a subclass of
    [Exception]. *)
Inductive raised :=
| Lib (e : exn)
| HTTPError (status : Z)
| FileError.

(** The lines the script prints outside the loop. *)
Inductive notice :=
| InfoFetchingInput (path : pystr)
| InfoLoadingInput (path : pystr)
| Fatal (e : raised)
| WarnNoUrls
| InfoWrote (path : pystr).

(** What the script does to the outside: an event of lines 141-158, a
    line printed elsewhere, a file opened for reading, a file opened for
    writing and the text written to it. *)
Inductive action :=
| Loop (e : event)
| Say (n : notice)
| ReadFile (path : pystr)
| WriteFile (path : pystr) (content : pystr).

(** How the script ends: after its last line, by [sys.exit], or by an
    exception that nothing catches. *)
Inductive ending :=
| Completed
| Exited (code : Z)
| Uncaught (e : raised).

(** [args], as [parse_args] returns it; parsing the command line is not
    modelled. *)
Record args := {
  input : pystr;
  output : pystr;
  delay : Q;
  max : Z;
}.

(** The requests of a log, each with its timeout, the files read and the
    files written. *)
Definition requests (t : list action) : list (json * Z) :=
  omap (λ x, match x with Loop (EGet u timeout) => Some (u, timeout)
                     | _ => None end) t.
Definition files_read (t : list action) : list pystr :=
  omap (λ x, match x with ReadFile p => Some p | _ => None end) t.
Definition files_written (t : list action) : list (pystr * pystr) :=
  omap (λ x, match x with WriteFile p c => Some (p, c) | _ => None end) t.
Definition naps (t : list action) : list Q :=
  omap (λ x, match x with Loop (ESleep d) => Some d | _ => None end) t.

Section script.
Variable parse_float : pystr → pystr.
Variable World : Type.
Variable requests_get : json → Z → World → result response * World.
Variable elapse : Q → World → World.
Variable stdout_takes : line → bool.

(** [urlparse(s).scheme], or the exception [urlparse] raises. *)
Variable urlparse_scheme : pystr → result pystr.

(** [open(path, "r", encoding="utf-8")] and [f.read()]: the text of the
    file, or nothing when opening or reading raises; and the state
    after. *)
Variable read_text : pystr → World → option pystr * World.

(** [open(path, "w", encoding="utf-8")], the writes of [json.dump] and the
    closing of the file, as one step: whether all of it went through, and
    the state after. *)
Variable write_text : pystr → pystr → World → bool * World.

Record sys := { net : World; log : list action }.

(** A line printed outside the loop.  These lines show the two paths of
    the command line and the text of the exception of line 123; that
    [sys.stdout] takes them is assumed here. *)
Definition say (n : notice) (s : sys) : sys :=
  {| net := net s; log := log s ++ [Say n] |}.

(** A computation of lines 79-158 run from the state [s]: what it does is
    added to the log. *)
Definition run {A} (c : comp World A) (s : sys) : result A * sys :=
  let '(r, σ) := c {| world := net s; trace := [] |} in
  (r, {| net := world σ; log := log s ++ (Loop <$> trace σ) |}).

(** [r.raise_for_status()]. *)
Definition raise_for_status (r : response) : bool :=
  (400 <=? status_code r)%Z && (status_code r <? 600)%Z.

(** Lines 33-43. *)
Definition load_input (path_or_url : pystr) (s : sys)
  : (json + raised) * sys :=
  match urlparse_scheme path_or_url with
  | Raise e => (inr (Lib e), s)
  | Ok scheme =>
      if bool_decide (scheme = py "http" ∨ scheme = py "https") then
        let s1 := say (InfoFetchingInput path_or_url) s in
        match run (get World requests_get (JStr path_or_url) 30) s1 with
        | (Raise e, s2) => (inr (Lib e), s2)
        | (Ok r, s2) =>
            if raise_for_status r then (inr (HTTPError (status_code r)), s2)
            else
              match json_ r with
              | Ok data => (inl data, s2)
              | Raise e => (inr (Lib e), s2)
              end
        end
      else
        let s1 := say (InfoLoadingInput path_or_url) s in
        let '(file, w) := read_text path_or_url (net s1) in
        let s2 := {| net := w; log := log s1 ++ [ReadFile path_or_url] |} in
        match file with
        | None => (inr FileError, s2)
        | Some text =>
            match json_loads parse_float text with
            | Ok data => (inl data, s2)
            | Raise e => (inr (Lib e), s2)
            end
        end
  end.

(** The state in which line 141 is reached: line 137 has printed its
    warning when the index has no list of URLs. *)
Definition warned (data : json) (s : sys) : sys :=
  if has_urls_list data then s else say WarnNoUrls s.

(** Lines 113-163, from the parsed arguments; lines 127-158 are [main]
    above. *)
Definition main (a : args) (s : sys) : ending * sys :=
  match load_input (input a) s with
  | (inr e, s1) => (Exited 1, say (Fatal e) s1)
  | (inl data, s1) =>
      match run (main parse_float World requests_get elapse stdout_takes
                      data (max a) (delay a)) (warned data s1) with
      | (Raise e, s3) => (Uncaught (Lib e), s3)
      | (Ok merged, s3) =>
          let content := json_dump false 2 (out_of merged) in
          let '(written, w) := write_text (output a) content (net s3) in
          let s4 := {| net := w;
                       log := log s3 ++ [WriteFile (output a) content] |} in
          if written then (Completed, say (InfoWrote (output a)) s4)
          else (Uncaught FileError, s4)
      end
  end.
End script.

Arguments net {World} _.
Arguments log {World} _.
Arguments Build_sys {World} _ _.
Arguments say {World} _ _.
Arguments run {World A} _ _.
Arguments warned {World} _ _.

(** *** A file system and a command line for the examples *)

(** The scheme of a path that starts with [http://] or [https://], and no
    scheme for another path. *)
Definition demo_scheme (path : pystr) : result pystr :=
  if bool_decide (take 7 path = py "http://") then Ok (py "http")
  else if bool_decide (take 8 path = py "https://") then Ok (py "https")
  else Ok [].

(** The file [18.json] holds [{"urls": ["http://x/1", "http://x/2"]}]; no
    other file can be read. *)
Definition demo_read (path : pystr) (w : nat) : option pystr * nat :=
  if bool_decide (path = py "18.json")
  then (Some (pyq "{'urls': ['http://x/1', 'http://x/2']}"), w)
  else (None, w).

Definition demo_write (path content : pystr) (w : nat) : bool * nat :=
  (true, w).

Definition demo_args : args :=
  {| input := py "18.json"; output := py "files/merged_sites.json";
     delay := 1 # 2; max := 0 |}.

Definition demo_sys : sys nat := {| net := O; log := [] |}.

End Script.


(** [{"page": "http://x/a,b c"}]: a URL that holds a comma and a space. *)
Definition index_comma : json :=
  JDict [(py "page", JStr (py "http://x/a,b c"))].

(** What follows a match of the URL pattern: the end of the text, or a
    character a URL cannot hold. *)
Definition url_end (rest : pystr) : Prop :=
  match rest with
  | [] => True
  | c :: _ => url_char c = false
  end.
(** * Properties *)

(** ** The order on [str] *)

Lemma pystr_leb_refl a : pystr_leb a a = true.
Proof.
  induction a as [|x a IH]; simpl; [done|].
  rewrite N.ltb_irrefl, N.eqb_refl. exact IH.
Qed.

Lemma pystr_leb_total a b : pystr_leb a b = true ∨ pystr_leb b a = true.
Proof.
  revert b. induction a as [|x a IH]; intros [|y b]; simpl; auto.
  destruct (N.ltb_spec x y), (N.ltb_spec y x); auto; try lia.
  assert (x = y) as -> by lia. rewrite N.eqb_refl. apply IH.
Qed.

Lemma pystr_leb_trans a b c :
  pystr_leb a b = true → pystr_leb b c = true → pystr_leb a c = true.
Proof.
  revert b c. induction a as [|x a IH]; intros [|y b] [|z c]; simpl; auto;
    try discriminate.
  destruct (N.ltb_spec x y), (N.ltb_spec y z), (N.ltb_spec x z);
    destruct (N.eqb_spec x y), (N.eqb_spec y z), (N.eqb_spec x z);
    try lia; try discriminate; eauto.
Qed.

Lemma pystr_leb_antisym a b :
  pystr_leb a b = true → pystr_leb b a = true → a = b.
Proof.
  revert b. induction a as [|x a IH]; intros [|y b]; simpl; auto;
    try discriminate.
  destruct (N.ltb_spec x y), (N.ltb_spec y x);
    destruct (N.eqb_spec x y), (N.eqb_spec y x);
    try lia; try discriminate.
  intros. subst. f_equal. auto.
Qed.

(** ** [str] literals of the encoder are prefix codes *)

Lemma hexdigit_inj a b : a < 16 → b < 16 → hexdigit a = hexdigit b → a = b.
Proof.
  unfold hexdigit. intros.
  destruct (N.ltb_spec a 10), (N.ltb_spec b 10); lia.
Qed.

Lemma u_escape_inj c c' : c < 32 → c' < 32 → u_escape c = u_escape c' → c = c'.
Proof.
  unfold u_escape. intros Hc Hc' H.
  injection H as _ _ H1 H0'.
  apply hexdigit_inj in H1; [|apply N.mod_lt; lia..].
  rename H0' into H0. apply hexdigit_inj in H0; [|apply N.mod_lt; lia..].
  rewrite !N.mod_small in H1 by (apply N.Div0.div_lt_upper_bound; lia).
  rewrite (N.div_mod c 16), (N.div_mod c' 16) by lia. lia.
Qed.

Lemma escape_char_cases c :
  (escape_char c = [c] ∧ 32 ≤ c ∧ c ≠ 34 ∧ c ≠ 92)
  ∨ (∃ x, escape_char c = [92; x] ∧ x ≠ 117
          ∧ (x = 92 ∧ c = 92 ∨ x = 34 ∧ c = 34 ∨ x = 98 ∧ c = 8
             ∨ x = 102 ∧ c = 12 ∨ x = 110 ∧ c = 10 ∨ x = 114 ∧ c = 13
             ∨ x = 116 ∧ c = 9))
  ∨ (escape_char c = u_escape c ∧ c < 32).
Proof.
  unfold escape_char, ESCAPE_DCT.
  repeat (match goal with
          | |- context [N.eqb ?a ?b] => destruct (N.eqb_spec a b)
          | |- context [N.ltb ?a ?b] => destruct (N.ltb_spec a b)
          end; simpl);
    first [ left; repeat split; (done || lia)
          | right; left; eexists; split; [reflexivity|]; split; [lia|]; lia
          | right; right; split; (done || lia) ].
Qed.

Lemma escape_char_prefix c c' r r' :
  escape_char c ++ r = escape_char c' ++ r' → c = c' ∧ r = r'.
Proof.
  destruct (escape_char_cases c) as [(->&?&?&?)|[(x&->&?&Hx)|(->&?)]];
    destruct (escape_char_cases c') as [(->&?&?&?)|[(x'&->&?&Hx')|(->&?)]];
    unfold u_escape; simpl; intros Heq; simplify_eq; try lia; try done.
  - split; [lia|done].
  - split; [|done]. apply u_escape_inj; [done..|]. unfold u_escape. congruence.
Qed.

Lemma escape_char_head c :
  ∃ x t, escape_char c = x :: t ∧ x ≠ 34.
Proof.
  destruct (escape_char_cases c) as [(->&?&?&?)|[(x&->&?&Hx)|(->&?)]];
    unfold u_escape; do 2 eexists; (split; [done|lia]).
Qed.

Lemma flat_map_escape_inj s s' r r' :
  flat_map escape_char s ++ 34 :: r = flat_map escape_char s' ++ 34 :: r' →
  s = s' ∧ r = r'.
Proof.
  revert s'. induction s as [|c s IH]; intros [|c' s']; simpl.
  - intros [=]. done.
  - destruct (escape_char_head c') as (x&t&->&?). simpl. intros [=]. lia.
  - destruct (escape_char_head c) as (x&t&->&?). simpl. intros [=]. lia.
  - rewrite <-!app_assoc. intros H.
    apply escape_char_prefix in H as [-> H]. apply IH in H as [-> ->]. done.
Qed.

Lemma encode_basestring_inj s s' r r' :
  encode_basestring s ++ r = encode_basestring s' ++ r' → s = s' ∧ r = r'.
Proof.
  unfold encode_basestring. simpl. rewrite <-!app_assoc. simpl.
  intros [=H]. by apply flat_map_escape_inj.
Qed.

(** ** Numbers are tokens that end at a delimiter *)

Lemma uint_chars_digits d : Forall (λ c, 48 ≤ c ≤ 57) (uint_chars d).
Proof. induction d; simpl; constructor; (lia || done). Qed.

Lemma uint_chars_inj d d' : uint_chars d = uint_chars d' → d = d'.
Proof.
  revert d'. induction d; intros []; simpl; intros [=]; f_equal; auto.
Qed.

Lemma uint_chars_nonnil d :
  d ≠ Decimal.Nil → ∃ c t, uint_chars d = c :: t ∧ 48 ≤ c ≤ 57.
Proof. destruct d; simpl; intros; try done; do 2 eexists; (split; [done|lia]). Qed.

Lemma to_int_nonnil z :
  match Z.to_int z with Decimal.Pos d | Decimal.Neg d => d ≠ Decimal.Nil end.
Proof.
  destruct z; simpl; try done; apply DecimalPos.Unsigned.to_uint_nonnil.
Qed.

Lemma int_repr_inj z z' : int_repr z = int_repr z' → z = z'.
Proof.
  unfold int_repr. intros H.
  rewrite <-(DecimalZ.of_to z), <-(DecimalZ.of_to z'). f_equal.
  destruct (Z.to_int z) as [d|d], (Z.to_int z') as [d'|d'].
  - f_equal. by apply uint_chars_inj.
  - pose proof (uint_chars_digits d) as Hd. rewrite H in Hd.
    apply Forall_cons_1 in Hd as [? _]. lia.
  - pose proof (uint_chars_digits d') as Hd. rewrite <-H in Hd.
    apply Forall_cons_1 in Hd as [? _]. lia.
  - injection H as H. f_equal. by apply uint_chars_inj.
Qed.

Lemma int_repr_chars z : Forall (λ c, 48 ≤ c ≤ 57 ∨ c = 45) (int_repr z).
Proof.
  unfold int_repr. destruct (Z.to_int z) as [d|d]; [|constructor; [by right|]];
    (eapply Forall_impl; [apply uint_chars_digits|]; simpl; intros; by left).
Qed.

Lemma int_repr_head z :
  ∃ c t, int_repr z = c :: t ∧ (48 ≤ c ≤ 57 ∨ c = 45).
Proof.
  unfold int_repr. pose proof (to_int_nonnil z) as Hz.
  destruct (Z.to_int z) as [d|d].
  - destruct (uint_chars_nonnil d Hz) as (c&t&->&?). eauto.
  - eauto.
Qed.

Lemma token_span (P : N → Prop) l1 l2 r1 r2 :
  Forall P l1 → Forall P l2 →
  (∀ c, P c → c ≠ 44 ∧ c ≠ 93 ∧ c ≠ 125) →
  delim r1 → delim r2 →
  l1 ++ r1 = l2 ++ r2 → l1 = l2 ∧ r1 = r2.
Proof.
  intros H1 H2 HP Hr1 Hr2. revert l2 H2.
  induction H1 as [|x l1 Hx _ IH]; intros l2 H2; destruct H2 as [|y l2 Hy H2];
    simpl; intros Heq.
  - done.
  - subst r1. simpl in Hr1. apply HP in Hy. lia.
  - subst r2. simpl in Hr2. apply HP in Hx. lia.
  - injection Heq as -> Heq. apply IH in Heq as [-> ->]; done.
Qed.

Lemma number_char_not_delim c :
  number_char c = true → c ≠ 44 ∧ c ≠ 93 ∧ c ≠ 125.
Proof. unfold number_char. intros H. char_class. lia. Qed.

Lemma int_repr_number_chars z :
  Forall (λ c, number_char c = true) (int_repr z).
Proof.
  eapply Forall_impl; [apply int_repr_chars|]. simpl. intros c Hc.
  unfold number_char. char_class. lia.
Qed.

Lemma forallb_Forall {A} (f : A → bool) l :
  forallb f l = true ↔ Forall (λ x, f x = true) l.
Proof.
  induction l as [|x l IH]; simpl.
  - split; [constructor|done].
  - rewrite andb_true_iff, IH, Forall_cons. done.
Qed.

Lemma floatstr_ok_cases r :
  floatstr_ok r = true →
  Forall (λ c, number_char c = true) r
  ∧ (∃ c t, r = c :: t ∧ (48 ≤ c ≤ 57 ∨ c = 45 ∨ c = 78 ∨ c = 73))
  ∧ ¬ Forall (λ c, 48 ≤ c ≤ 57 ∨ c = 45) r.
Proof.
  unfold floatstr_ok. rewrite orb_true_iff, !andb_true_iff.
  intros [H|[[Hall Hex] Hhd]].
  - apply bool_decide_eq_true in H. py_eval.
    destruct H as [->|[->| ->]]; (split; [|split]).
    all: try (repeat constructor; unfold number_char; char_class; lia).
    all: try (do 2 eexists; split; [done|lia]).
    all: intros HF; repeat (apply Forall_cons_1 in HF as [? HF]); lia.
  - apply forallb_Forall in Hall. split; [|split].
    + eapply Forall_impl; [exact Hall|]. simpl. intros c Hc.
      unfold number_char. char_class. lia.
    + destruct r as [|c t]; [done|]. do 2 eexists. split; [done|].
      char_class. lia.
    + intros HF. apply existsb_exists in Hex as (c&Hin&Hc).
      apply list_elem_of_In in Hin. rewrite Forall_forall in HF.
      apply HF in Hin. char_class. lia.
Qed.

(** ** The unsorted encoder is injective *)

Lemma join_cons_app sep c cs r :
  join sep (c :: cs) ++ r
  = c ++ match cs with [] => r | _ :: _ => sep ++ join sep cs ++ r end.
Proof. destruct cs; simpl; [done|]. by rewrite <-!app_assoc. Qed.

Lemma iterencode_list ea sk l r :
  iterencode ea sk (JList l) ++ r
  = 91 :: join item_separator (map (iterencode ea sk) l) ++ 93 :: r.
Proof.
  destruct l; [done|]. cbn [iterencode].
  rewrite bool_decide_eq_false_2 by done. py_eval. by rewrite <-!app_assoc.
Qed.

Lemma iterencode_dict ea d r :
  iterencode ea false (JDict d) ++ r
  = 123 :: join item_separator (map (enc_item ea) d) ++ 125 :: r.
Proof.
  destruct d; [done|]. cbn [iterencode].
  rewrite bool_decide_eq_false_2 by done. py_eval.
  rewrite map_map, <-!app_assoc. done.
Qed.

Lemma enc_head o :
  floats_ok o = true → ∃ c t, enc o = c :: t ∧ starts o c.
Proof.
  destruct o as [|[]|z|r|s|l|d]; intros Hok.
  1-3, 6: by do 2 eexists.
  - apply int_repr_head.
  - apply floatstr_ok_cases in Hok as (_&H&_). exact H.
  - rewrite <-(app_nil_r (enc _)), iterencode_list. by do 2 eexists.
  - rewrite <-(app_nil_r (enc _)), iterencode_dict. by do 2 eexists.
Qed.

Lemma starts_not_delim o c : starts o c → c ≠ 44 ∧ c ≠ 93 ∧ c ≠ 125.
Proof. destruct o as [|[]| | | | |]; simpl; lia. Qed.

Section join_inj.
Context {A : Type} (f : A → pystr) (Q : A → Prop) (close : N).
Hypothesis close_bracket : close = 93 ∨ close = 125.
Hypothesis f_head :
  ∀ x, Q x → ∃ c t, f x = c :: t ∧ c ≠ 44 ∧ c ≠ 93 ∧ c ≠ 125.

Lemma join_inj l :
  Forall (λ x, ∀ y r1 r2, Q x → Q y → delim r1 → delim r2 →
               f x ++ r1 = f y ++ r2 → x = y ∧ r1 = r2) l →
  ∀ l' r r', Forall Q l → Forall Q l' →
    join item_separator (map f l) ++ close :: r
    = join item_separator (map f l') ++ close :: r' →
    l = l' ∧ r = r'.
Proof using close_bracket f_head.
  induction 1 as [|x l Hx _ IH]; intros [|y l'] r r' HQ HQ'.
  - simpl. intros [=]. done.
  - apply Forall_cons_1 in HQ' as [Hy _].
    destruct (f_head y Hy) as (c&t&Hc&?).
    change (map f (y :: l')) with (f y :: map f l').
    rewrite join_cons_app, Hc. simpl. intros [=]. lia.
  - apply Forall_cons_1 in HQ as [Hx' _].
    destruct (f_head x Hx') as (c&t&Hc&?).
    change (map f (x :: l)) with (f x :: map f l).
    rewrite join_cons_app, Hc. simpl. intros [=]. lia.
  - apply Forall_cons_1 in HQ as [HQx HQ].
    apply Forall_cons_1 in HQ' as [HQy HQ'].
    change (map f (x :: l)) with (f x :: map f l).
    change (map f (y :: l')) with (f y :: map f l').
    rewrite !join_cons_app. unfold item_separator. py_eval. intros Heq.
    apply Hx in Heq as [-> Heq]; [|done|done|..].
    + destruct l as [|x' l], l' as [|y' l'].
      * simpl in Heq. by injection Heq as ->.
      * simpl in Heq. injection Heq as Hc _. lia.
      * simpl in Heq. injection Heq as Hc _. lia.
      * apply app_inv_head in Heq. apply IH in Heq as [-> ->]; done.
    + destruct (map f l); simpl; lia.
    + destruct (map f l'); simpl; lia.
Qed.
End join_inj.

Lemma floats_ok_list l :
  floats_ok (JList l) = true ↔ Forall (λ x, floats_ok x = true) l.
Proof. simpl. apply forallb_Forall. Qed.

Lemma floats_ok_dict d :
  floats_ok (JDict d) = true ↔ Forall (λ kv, floats_ok kv.2 = true) d.
Proof. simpl. apply forallb_Forall. Qed.

Lemma enc_item_head (kv : pystr * json) :
  ∃ c t, enc_item false kv = c :: t ∧ c ≠ 44 ∧ c ≠ 93 ∧ c ≠ 125.
Proof. do 2 eexists. split; [done|lia]. Qed.

Lemma enc_inj a :
  ∀ b r1 r2, floats_ok a = true → floats_ok b = true → delim r1 → delim r2 →
    enc a ++ r1 = enc b ++ r2 → a = b ∧ r1 = r2.
Proof.
  induction a as [|x|z|r|s|l IH|d IH] using json_ind';
    intros b r1 r2 Ha Hb Hr1 Hr2 Heq; destruct b as [|y|z'|r'|s'|l'|d'];
    try (exfalso;
         destruct (enc_head _ Ha) as (c&t&E1&S1);
         destruct (enc_head _ Hb) as (c'&t'&E2&S2);
         rewrite E1, E2 in Heq; injection Heq as -> _;
         simpl in S1, S2;
         repeat match goal with b : bool |- _ => destruct b end; lia).
  - simpl in Heq. by simplify_eq.
  - destruct x, y; simpl in Heq; by simplify_eq.
  - simpl in Heq.
    apply token_span with (P := λ c, number_char c = true) in Heq
      as [Heq ->]; auto using int_repr_number_chars, number_char_not_delim.
    apply int_repr_inj in Heq as ->. done.
  - exfalso. simpl in Heq.
    apply token_span with (P := λ c, number_char c = true) in Heq
      as [Heq ->]; auto using int_repr_number_chars, number_char_not_delim.
    + apply floatstr_ok_cases in Hb as (_&_&Hb). apply Hb.
      rewrite <-Heq. apply int_repr_chars.
    + by apply floatstr_ok_cases in Hb as (Hb&_).
  - exfalso. simpl in Heq.
    apply token_span with (P := λ c, number_char c = true) in Heq
      as [Heq ->]; auto using int_repr_number_chars, number_char_not_delim.
    + apply floatstr_ok_cases in Ha as (_&_&Ha). apply Ha.
      rewrite Heq. apply int_repr_chars.
    + by apply floatstr_ok_cases in Ha as (Ha&_).
  - simpl in Heq.
    apply token_span with (P := λ c, number_char c = true) in Heq
      as [Heq ->]; auto using number_char_not_delim.
    + by subst.
    + by apply floatstr_ok_cases in Ha as (Ha&_).
    + by apply floatstr_ok_cases in Hb as (Hb&_).
  - apply encode_basestring_inj in Heq as [-> ->]. done.
  - rewrite !iterencode_list in Heq. injection Heq as Heq.
    apply join_inj with (Q := λ x, floats_ok x = true) in Heq as [-> ->];
      [done|by left| |done|by apply floats_ok_list..].
    intros x Hx. destruct (enc_head x Hx) as (c&t&->&Hc).
    apply starts_not_delim in Hc. eauto.
  - rewrite !iterencode_dict in Heq. injection Heq as Heq.
    apply join_inj with (Q := λ kv, floats_ok kv.2 = true) in Heq as [-> ->];
      [done|by right|intros; apply enc_item_head| |by apply floats_ok_dict..].
    eapply Forall_impl; [exact IH|]. cbn beta.
    intros [k v] IHv [k' v'] q1 q2 Hv Hv' Hq1 Hq2. cbn [fst snd] in *.
    unfold enc_item, encoder. cbn [fst snd]. rewrite <-!app_assoc. intros Hkv.
    apply encode_basestring_inj in Hkv as [-> Hkv].
    apply app_inv_head in Hkv. apply IHv in Hkv as [-> ->]; done.
Qed.

Lemma enc_injective a b :
  floats_ok a = true → floats_ok b = true → enc a = enc b → a = b.
Proof.
  intros Ha Hb Heq.
  destruct (enc_inj a b [] [] Ha Hb I I) as [-> _]; [|done].
  by rewrite !app_nil_r.
Qed.

(** ** Sorting the items of a dict *)

Lemma insert_item_perm {V} (x : pystr * V) l : insert_item x l ≡ₚ x :: l.
Proof.
  induction l as [|y l IH]; simpl; [done|].
  destruct (pystr_leb x.1 y.1); [done|]. rewrite IH. apply Permutation_swap.
Qed.

Lemma sorted_items_perm {V} (l : list (pystr * V)) : sorted_items l ≡ₚ l.
Proof.
  induction l as [|x l IH]; simpl; [done|].
  rewrite insert_item_perm. by f_equiv.
Qed.

Lemma insert_item_sorted {V} (x : pystr * V) l :
  StronglySorted key_le l → StronglySorted key_le (insert_item x l).
Proof.
  induction 1 as [|y l Hl IH Hy]; simpl.
  - repeat constructor.
  - destruct (pystr_leb x.1 y.1) eqn:Hxy.
    + constructor; [by constructor|]. constructor; [done|].
      eapply Forall_impl; [exact Hy|]. intros z Hz.
      unfold key_le, pystr_le in *. eauto using pystr_leb_trans.
    + constructor; [done|]. rewrite insert_item_perm. constructor; [|done].
      unfold key_le, pystr_le.
      destruct (pystr_leb_total x.1 y.1); congruence.
Qed.

Lemma sorted_items_sorted {V} (l : list (pystr * V)) :
  StronglySorted key_le (sorted_items l).
Proof.
  induction l; simpl; [constructor|]. by apply insert_item_sorted.
Qed.

Lemma insert_item_map {V W} (g : V → W) (x : pystr * V) l :
  insert_item (x.1, g x.2) (map (λ kv, (kv.1, g kv.2)) l)
  = map (λ kv, (kv.1, g kv.2)) (insert_item x l).
Proof.
  induction l as [|y l IH]; simpl; [done|].
  destruct (pystr_leb x.1 y.1); simpl; [done|]. by rewrite IH.
Qed.

Lemma sorted_items_map {V W} (g : V → W) (l : list (pystr * V)) :
  sorted_items (map (λ kv, (kv.1, g kv.2)) l)
  = map (λ kv, (kv.1, g kv.2)) (sorted_items l).
Proof.
  induction l as [|x l IH]; simpl; [done|].
  by rewrite IH, insert_item_map.
Qed.

Global Instance pystr_le_antisym : AntiSymm (=) pystr_le.
Proof. intros a b. apply pystr_leb_antisym. Qed.

Lemma same_keys_eq {V} (s1 s2 : list (pystr * V)) :
  s1.*1 = s2.*1 → NoDup s1.*1 → (∀ x, x ∈ s1 → x ∈ s2) → s1 = s2.
Proof.
  revert s2. induction s1 as [|[k v] s1 IH]; intros [|[k' v'] s2]; simpl;
    try done.
  intros [= -> Hk] [Hnin Hnd]%NoDup_cons Hsub.
  assert (v = v') as ->.
  { pose proof (Hsub (k', v) ltac:(left)) as Hin.
    apply elem_of_cons in Hin as [|Hin]; [congruence|].
    destruct Hnin. rewrite Hk. by apply (list_elem_of_fmap_2 fst) in Hin. }
  f_equal. apply IH; [done..|].
  intros x Hx. pose proof (Hsub x ltac:(by right)) as Hin.
  apply elem_of_cons in Hin as [->|Hin]; [|done].
  destruct Hnin. by apply (list_elem_of_fmap_2 fst) in Hx.
Qed.

Lemma sorted_items_unique {V} (l1 l2 : list (pystr * V)) :
  NoDup l1.*1 → l1 ≡ₚ l2 → sorted_items l1 = sorted_items l2.
Proof.
  intros Hnd Hperm.
  assert (sorted_items l1 ≡ₚ sorted_items l2) as Hs.
  { by rewrite !sorted_items_perm. }
  apply same_keys_eq.
  - apply (StronglySorted_unique pystr_le).
    + apply (StronglySorted_fmap fst key_le pystr_le); [done|].
      apply sorted_items_sorted.
    + apply (StronglySorted_fmap fst key_le pystr_le); [done|].
      apply sorted_items_sorted.
    + by rewrite Hs.
  - by rewrite sorted_items_perm.
  - intros x. by rewrite Hs.
Qed.

(** ** Sorted encoding is the plain encoding of the sorted value *)

Lemma iterencode_dict_sorted ea d r :
  iterencode ea true (JDict d) ++ r
  = 123 :: join item_separator
             (map (λ kc, encoder ea kc.1 ++ key_separator ++ kc.2)
                  (sorted_items (map (λ kv, (kv.1, iterencode ea true kv.2)) d)))
        ++ 125 :: r.
Proof.
  destruct d as [|kv d]; [done|]. cbn [iterencode].
  rewrite bool_decide_eq_false_2 by done. py_eval.
  by rewrite <-!app_assoc.
Qed.

Lemma map_ext_Forall {A B} (f g : A → B) l :
  Forall (λ x, f x = g x) l → map f l = map g l.
Proof. induction 1; simpl; congruence. Qed.

Lemma iterencode_sorted ea o :
  iterencode ea true o = iterencode ea false (sort_keys_of o).
Proof.
  induction o as [| | | | |l IH|d IH] using json_ind'; try done.
  - rewrite <-(app_nil_r (iterencode ea true _)),
      <-(app_nil_r (iterencode ea false _)).
    cbn [sort_keys_of]. rewrite !iterencode_list, map_map.
    by rewrite (map_ext_Forall _ _ _ IH).
  - rewrite <-(app_nil_r (iterencode ea true _)),
      <-(app_nil_r (iterencode ea false _)).
    cbn [sort_keys_of]. rewrite iterencode_dict_sorted, iterencode_dict.
    do 3 f_equal. unfold enc_item.
    rewrite (sorted_items_map (iterencode ea true)), (sorted_items_map sort_keys_of).
    rewrite !map_map. apply map_ext_Forall. rewrite sorted_items_perm.
    eapply Forall_impl; [exact IH|]. intros [k v] Hv. cbn [fst snd] in *.
    by rewrite Hv.
Qed.

Lemma Forall_mp {A} (P Q : A → Prop) l :
  Forall (λ x, P x → Q x) l → Forall P l → Forall Q l.
Proof. induction 1; inversion 1; constructor; auto. Qed.

Lemma floats_ok_sort_keys_of o :
  floats_ok o = true → floats_ok (sort_keys_of o) = true.
Proof.
  induction o as [| | | | |l IH|d IH] using json_ind'; try done.
  - rewrite !floats_ok_list. cbn [sort_keys_of]. rewrite floats_ok_list.
    intros Hl. change (map sort_keys_of l) with (sort_keys_of <$> l).
    rewrite Forall_fmap. exact (Forall_mp _ _ _ IH Hl).
  - rewrite floats_ok_dict. cbn [sort_keys_of]. rewrite floats_ok_dict.
    intros Hd. rewrite sorted_items_perm.
    change (map ?f d) with (f <$> d).
    rewrite Forall_fmap. exact (Forall_mp _ _ _ IH Hd).
Qed.

Lemma normalize_site_eq_sorted a b :
  floats_ok a = true → floats_ok b = true →
  normalize_site a = normalize_site b ↔ sort_keys_of a = sort_keys_of b.
Proof.
  intros Ha Hb. unfold normalize_site, json_dumps.
  rewrite !iterencode_sorted. split; [|by intros ->].
  apply enc_injective; by apply floats_ok_sort_keys_of.
Qed.

(** ** Structural equality is equality of the sorted values *)

Lemma json_eqb_list l1 l2 :
  json_eqb (JList l1) (JList l2) = true
  ↔ Forall2 (λ x y, json_eqb x y = true) l1 l2.
Proof.
  cbn [json_eqb]. revert l2.
  induction l1 as [|x l1 IH]; intros [|y l2]; simpl.
  - split; [constructor|done].
  - split; [done|inversion 1].
  - split; [done|inversion 1].
  - rewrite andb_true_iff, IH. split.
    + intros [??]. by constructor.
    + inversion 1; by subst.
Qed.

Lemma json_eqb_dict d1 d2 :
  json_eqb (JDict d1) (JDict d2) = true
  ↔ length d1 = length d2
    ∧ Forall (λ kv, ∃ v', dict_lookup kv.1 d2 = Some v'
                          ∧ json_eqb kv.2 v' = true) d1.
Proof.
  cbn [json_eqb]. rewrite andb_true_iff, bool_decide_eq_true.
  apply and_iff_compat_l.
  induction d1 as [|[k v] d1 IH]; simpl.
  - split; [constructor|done].
  - rewrite andb_true_iff, IH, Forall_cons. apply and_iff_compat_r. simpl.
    destruct (dict_lookup k d2) as [v'|].
    + split; [eauto|]. by intros (?&[= <-]&?).
    + split; [done|]. by intros (?&?&?).
Qed.

Lemma dict_lookup_Some_elem k d v : dict_lookup k d = Some v → (k, v) ∈ d.
Proof.
  induction d as [|[k' v'] d IH]; simpl; [done|].
  destruct (decide (k' = k)) as [->|].
  - intros [= ->]. left.
  - intros. right. auto.
Qed.

Lemma dict_lookup_NoDup k v d :
  NoDup d.*1 → (k, v) ∈ d → dict_lookup k d = Some v.
Proof.
  induction d as [|[k' v'] d IH]; simpl.
  - by intros _ ?%elem_of_nil.
  - intros [Hnin Hnd]%NoDup_cons [[= -> ->]|Hin]%elem_of_cons.
    + by rewrite decide_True.
    + rewrite decide_False; [auto|]. intros ->. apply Hnin.
      by apply (list_elem_of_fmap_2 fst) in Hin.
Qed.

Lemma keys_distinct_list l :
  keys_distinct (JList l) = true ↔ Forall (λ x, keys_distinct x = true) l.
Proof. simpl. apply forallb_Forall. Qed.

Lemma keys_distinct_dict d :
  keys_distinct (JDict d) = true
  ↔ NoDup d.*1 ∧ Forall (λ kv, keys_distinct kv.2 = true) d.
Proof.
  simpl. by rewrite andb_true_iff, bool_decide_eq_true, forallb_Forall.
Qed.

Lemma map_eq_Forall2 {A B} (f : A → B) l l' :
  map f l = map f l' ↔ Forall2 (λ x y, f x = f y) l l'.
Proof.
  revert l'. induction l as [|x l IH]; intros [|y l']; simpl.
  - split; [constructor|done].
  - split; [done|inversion 1].
  - split; [done|inversion 1].
  - split.
    + intros [= ? ?%IH]. by constructor.
    + inversion 1; subst. f_equal; [done|]. by apply IH.
Qed.

Lemma sort_keys_of_eq_iff a :
  ∀ b, keys_distinct a = true → keys_distinct b = true →
       sort_keys_of a = sort_keys_of b ↔ json_eqb a b = true.
Proof.
  induction a as [| | | | |l IH|d IH] using json_ind';
    intros [| | | | |l'|d'] Ha Hb;
    try (simpl; rewrite ?bool_decide_eq_true; by split; [intros [=]|intros ?];
         simplify_eq);
    try (split; [by destruct l' | by destruct d']);
    try (split; [by intros [=] | by intros [=]]).
  - (* lists *)
    apply keys_distinct_list in Ha, Hb.
    rewrite json_eqb_list. cbn [sort_keys_of].
    transitivity (map sort_keys_of l = map sort_keys_of l');
      [split; [by intros [=]|by intros ->]|].
    rewrite map_eq_Forall2.
    revert l' Hb. induction IH as [|x l Hx _ IHl]; intros l' Hb.
    + split; inversion 1; constructor.
    + apply Forall_cons_1 in Ha as [Hax Ha].
      split; inversion 1 as [|? y ? l'' Hxy Hl]; subst;
        apply Forall_cons_1 in Hb as [Hby Hb];
        (constructor; [by apply (Hx y)|by apply IHl]).
  - (* dicts *)
    apply keys_distinct_dict in Ha as [Hnd Ha], Hb as [Hnd' Hb].
    rewrite json_eqb_dict. cbn [sort_keys_of].
    set (c := λ kv : pystr * json, (kv.1, sort_keys_of kv.2)).
    assert (∀ d0 : list (pystr * json), (map c d0).*1 = d0.*1) as Hkeys.
    { intros d0. change (map c d0) with (c <$> d0).
      rewrite <-list_fmap_compose. done. }
    rewrite Forall_forall in IH, Ha, Hb.
    split.
    + intros [= Heq].
      assert (map c d ≡ₚ map c d') as Hperm.
      { by rewrite <-(sorted_items_perm (map c d)), Heq, sorted_items_perm. }
      split.
      { apply Permutation_length in Hperm. by rewrite !length_map in Hperm. }
      apply Forall_forall. intros [k v] Hin.
      assert (c (k, v) ∈ map c d') as Hin'.
      { rewrite <-Hperm. by apply (list_elem_of_fmap_2 c). }
      apply (list_elem_of_fmap_1 c) in Hin' as ([k' v']&[= <- Hv]&Hin').
      exists v'. split; [by apply dict_lookup_NoDup|].
      apply (IH _ Hin); [by apply (Ha _ Hin)|by apply (Hb _ Hin')|done].
    + intros [Hlen Hall]. rewrite Forall_forall in Hall. f_equal.
      apply sorted_items_unique; [by rewrite Hkeys|].
      apply submseteq_length_Permutation; [|by rewrite !length_map, Hlen].
      apply NoDup_submseteq.
      { apply (NoDup_fmap_1 fst). by rewrite Hkeys. }
      intros x ([k v]&->&Hin)%(list_elem_of_fmap_1 c).
      destruct (Hall _ Hin) as (v'&Hlook&Hv). simpl in Hlook, Hv.
      apply dict_lookup_Some_elem in Hlook.
      apply (IH _ Hin) in Hv; [|by apply (Ha _ Hin)|by apply (Hb _ Hlook)].
      apply (list_elem_of_fmap_2' c _ (k, v')); [done|].
      unfold c. cbn [fst snd] in *. by rewrite Hv.
Qed.

Lemma normalize_site_eq_iff a b :
  json_wf a = true → json_wf b = true →
  normalize_site a = normalize_site b ↔ json_eqb a b = true.
Proof.
  unfold json_wf. rewrite !andb_true_iff. intros [Hka Hfa] [Hkb Hfb].
  rewrite normalize_site_eq_sorted by done. by apply sort_keys_of_eq_iff.
Qed.

Lemma normalize_site_reorder d d' :
  json_wf (JDict d) = true → d ≡ₚ d' →
  normalize_site (JDict d) = normalize_site (JDict d').
Proof.
  unfold json_wf. rewrite andb_true_iff. intros [Hk Hf] Hperm.
  apply keys_distinct_dict in Hk as [Hnd _].
  unfold normalize_site, json_dumps. rewrite !iterencode_sorted.
  cbn [sort_keys_of]. do 2 f_equal.
  apply sorted_items_unique.
  - change (map ?f d) with (f <$> d). by rewrite <-list_fmap_compose.
  - change (map ?f d) with (f <$> d). change (map ?f d') with (f <$> d').
    by rewrite Hperm.
Qed.

(** C1.  For decoded JSON values [a] and [b] (the keys of each dict distinct,
    each float printed as [floatstr] prints it, which is what [json_loads]
    builds, see [json_loads_wf]), the canonical keys
    [normalize_site a] and [normalize_site b] are the same string if and only
    if [a] and [b] are structurally equal: dicts compared by key whatever the
    order of their items, lists by value and order, scalars by type and
    value.  In particular a dict whose items are reordered keeps its key. *)
Theorem normalize_site_structural (a b : json) :
  json_wf a = true → json_wf b = true →
  (normalize_site a = normalize_site b ↔ json_eqb a b = true)
  ∧ (∀ d d', a = JDict d → b = JDict d' → d ≡ₚ d' →
             normalize_site a = normalize_site b).
Proof.
  intros Ha Hb. split; [by apply normalize_site_eq_iff|].
  intros d d' -> -> Hperm. by apply normalize_site_reorder.
Qed.

Lemma normalize_site_structural_witness :
  json_wf site_ab = true ∧ json_wf site_ba = true
  ∧ (normalize_site site_ab = normalize_site site_ba
     ↔ json_eqb site_ab site_ba = true).
Proof.
  split; [reflexivity|]. split; [reflexivity|].
  apply (normalize_site_structural site_ab site_ba); reflexivity.
Defined.

(** ** The decoder has fuel enough *)

Lemma advances_mono {X} n m (r : result (X * pystr)) :
  advances n r → (n ≤ m)%nat → advances m r.
Proof. destruct r as [[v rest]|e]; simpl; [lia|done]. Qed.

Lemma cons_char_advances n c r : advances n r → advances n (cons_char c r).
Proof. by destruct r as [[str rest]|e]. Qed.

Lemma skip_ws_length s : (length (skip_ws s) ≤ length s)%nat.
Proof.
  induction s as [|c s IH]; simpl; [done|].
  destruct (is_ws c); simpl; lia.
Qed.

Lemma scanstring_advances s : advances (length s) (scanstring s).
Proof.
  remember (length s) as n eqn:Hn. revert s Hn.
  induction n as [n IH] using lt_wf_ind. intros s ->.
  assert (∀ c s', (length s' < length s)%nat →
                  advances (length s) (cons_char c (scanstring s'))) as Hrec.
  { intros c s' Hlt. apply cons_char_advances.
    eapply advances_mono; [by apply (IH (length s'))|lia]. }
  destruct s as [|c s1]; [done|]. cbn [scanstring].
  repeat case_match; subst; try done; try (cbn [advances length]; lia);
    apply Hrec; cbn [length]; lia.
Qed.

Lemma span_digits_length s d r :
  span_digits s = (d, r) → (length r ≤ length s)%nat.
Proof.
  revert d r. induction s as [|c s IH]; simpl; intros d r.
  - by intros [= <- <-].
  - destruct (is_digit c); [|intros [= <- <-]; simpl; lia].
    destruct (span_digits s) as [d' r']. intros [= <- <-].
    specialize (IH _ _ eq_refl). lia.
Qed.

Lemma match_integer_length s lit r :
  match_integer s = Some (lit, r) → (length r < length s)%nat.
Proof.
  unfold match_integer. intros H.
  repeat case_match; simplify_eq; cbn [length] in *;
    repeat match goal with
           | H : span_digits _ = _ |- _ => apply span_digits_length in H
           end; try lia.
Qed.

Lemma match_frac_length s f r :
  match_frac s = (f, r) → (length r ≤ length s)%nat.
Proof.
  unfold match_frac. intros H.
  repeat case_match; simplify_eq; cbn [length] in *;
    repeat match goal with
           | H : span_digits _ = _ |- _ => apply span_digits_length in H
           end; try lia.
Qed.

Lemma match_exp_length s x r :
  match_exp s = (x, r) → (length r ≤ length s)%nat.
Proof.
  unfold match_exp. intros H.
  repeat case_match; simplify_eq; cbn [length] in *;
    repeat match goal with
           | H : span_digits _ = _ |- _ => apply span_digits_length in H
           end; cbn [length] in *; try lia.
Qed.

Lemma match_number_length pf s v r :
  match_number pf s = Some (v, r) → (length r < length s)%nat.
Proof.
  unfold match_number. intros H.
  destruct (match_integer s) as [[lit s1]|] eqn:Hi; [|done].
  destruct (match_frac s1) as [f s2] eqn:Hf.
  destruct (match_exp s2) as [x s3] eqn:Hx.
  apply match_integer_length in Hi. apply match_frac_length in Hf.
  apply match_exp_length in Hx.
  case_match; simplify_eq; lia.
Qed.

Lemma strip_prefix_length lit s r :
  strip_prefix lit s = Some r → length s = (length lit + length r)%nat.
Proof.
  revert s. induction lit as [|c lit IH]; intros s; simpl.
  - by intros [= ->].
  - destruct s as [|c' s]; [done|]. destruct (c =? c'); [|done].
    intros H%IH. simpl. lia.
Qed.

Ltac scanner_facts :=
  repeat match goal with
         | H : scanstring ?s = _ |- _ =>
             let F := fresh "F" in
             pose proof (scanstring_advances s) as F; rewrite H in F;
             cbn [advances] in F; clear H
         | H : skip_ws ?s = _ |- _ =>
             let F := fresh "F" in
             pose proof (skip_ws_length s) as F; rewrite H in F;
             cbn [length] in F; clear H
         | H : strip_prefix ?lit ?s = Some _ |- _ =>
             apply strip_prefix_length in H; cbn [length] in H
         | H : match_number _ _ = Some _ |- _ =>
             apply match_number_length in H; cbn [length] in H
         end.

Lemma scanner_fuel pf fuel :
  (∀ s, (2 * length s < fuel)%nat →
        advances (length s) (scan_once pf fuel s))
  ∧ (∀ s values, (2 * length s + 1 < fuel)%nat →
                 advances (length s) (parse_array pf fuel s values))
  ∧ (∀ s pairs, (2 * length s + 1 < fuel)%nat →
                advances (length s) (parse_object pf fuel s pairs)).
Proof.
  induction fuel as [|fuel (IHs&IHa&IHo)].
  { repeat split; intros; lia. }
  assert (∀ s n, (2 * length s < fuel)%nat → (length s ≤ n)%nat →
                 advances n (scan_once pf fuel s)) as Hs.
  { intros s n H1 H2. eapply advances_mono; [by apply IHs|done]. }
  assert (∀ s values n, (2 * length s + 1 < fuel)%nat → (length s ≤ n)%nat →
                        advances n (parse_array pf fuel s values)) as Ha.
  { intros s values n H1 H2. eapply advances_mono; [by apply IHa|done]. }
  assert (∀ s pairs n, (2 * length s + 1 < fuel)%nat → (length s ≤ n)%nat →
                       advances n (parse_object pf fuel s pairs)) as Ho.
  { intros s pairs n H1 H2. eapply advances_mono; [by apply IHo|done]. }
  clear IHs IHa IHo.
  split; [|split].
  - intros s Hf. destruct s as [|c s1]; [done|]. cbn [scan_once].
    cbn [length] in Hf.
    repeat case_match; subst; simplify_eq;
      repeat match goal with vr : (json * pystr)%type |- _ => destruct vr end;
      scanner_facts; py_eval;
      try done; try (cbn [advances length] in *; lia);
      first [apply Ha | apply Ho]; cbn [length] in *; lia.
  - intros s values Hf. cbn [parse_array].
    destruct (scan_once pf fuel s) as [[value s1]|e] eqn:Hscan.
    2:{ pose proof (Hs s (length s) ltac:(lia) ltac:(lia)) as F.
        by rewrite Hscan in F. }
    pose proof (Hs s (length s) ltac:(lia) ltac:(lia)) as F.
    rewrite Hscan in F. cbn [advances] in F.
    repeat case_match; subst; scanner_facts;
      try done; try (cbn [advances length] in *; lia).
    match goal with
    | |- context [skip_ws ?r] => pose proof (skip_ws_length r)
    end.
    apply Ha; lia.
  - intros s pairs Hf. cbn [parse_object].
    destruct s as [|c s1]; [done|]. cbn [length] in Hf.
    destruct (c =? 34); [|done].
    destruct (scanstring s1) as [[key s2]|e] eqn:Hkey.
    2:{ pose proof (scanstring_advances s1) as F. by rewrite Hkey in F. }
    pose proof (scanstring_advances s1) as Fk. rewrite Hkey in Fk.
    cbn [advances] in Fk.
    destruct (skip_ws s2) as [|c1 s3] eqn:Hw2; [done|].
    pose proof (skip_ws_length s2) as Fw2. rewrite Hw2 in Fw2.
    cbn [length] in Fw2.
    destruct (c1 =? 58); [|done].
    pose proof (skip_ws_length s3) as Fw3.
    destruct (scan_once pf fuel (skip_ws s3)) as [[value s4]|e] eqn:Hscan.
    2:{ pose proof (Hs (skip_ws s3) (length (skip_ws s3))
                      ltac:(lia) ltac:(lia)) as F.
        by rewrite Hscan in F. }
    pose proof (Hs (skip_ws s3) (length (skip_ws s3))
                  ltac:(lia) ltac:(lia)) as F.
    rewrite Hscan in F. cbn [advances] in F.
    destruct (skip_ws s4) as [|c2 s5] eqn:Hw4; [done|].
    pose proof (skip_ws_length s4) as Fw4. rewrite Hw4 in Fw4.
    cbn [length] in Fw4.
    destruct (c2 =? 125); [cbn [advances length]; lia|].
    destruct (c2 =? 44); [|done].
    pose proof (skip_ws_length s5) as Fw5.
    apply Ho; cbn [length]; lia.
Qed.

(** [json_loads] never runs out of fuel: the only exception it raises is
    [JSONDecodeError]. *)
Lemma json_loads_fuel pf s e :
  json_loads pf s = Raise e → e = JSONDecodeError.
Proof.
  unfold json_loads.
  pose proof (proj1 (scanner_fuel pf (2 * length s + 2)) (skip_ws s)) as F.
  pose proof (skip_ws_length s) as Hw.
  specialize (F ltac:(lia)).
  destruct (scan_once pf (2 * length s + 2) (skip_ws s)) as [[obj rest]|e'];
    repeat case_match; by intros [= <-].
Qed.

(** ** What the decoder builds is a decoded value *)

Lemma json_wf_list l :
  json_wf (JList l) = true ↔ Forall (λ x, json_wf x = true) l.
Proof.
  unfold json_wf. cbn [keys_distinct floats_ok].
  rewrite andb_true_iff, !forallb_Forall, <-Forall_and.
  apply Forall_iff. intros x. by rewrite andb_true_iff.
Qed.

Lemma json_wf_dict d :
  json_wf (JDict d) = true
  ↔ NoDup d.*1 ∧ Forall (λ kv, json_wf kv.2 = true) d.
Proof.
  assert (Forall (λ kv : pystr * json, json_wf kv.2 = true) d
          ↔ Forall (λ kv, keys_distinct kv.2 = true) d
            ∧ Forall (λ kv, floats_ok kv.2 = true) d) as ->.
  { rewrite <-Forall_and. apply Forall_iff. intros kv. unfold json_wf.
    by rewrite andb_true_iff. }
  unfold json_wf. cbn [keys_distinct floats_ok].
  rewrite !andb_true_iff, bool_decide_eq_true, !forallb_Forall. tauto.
Qed.

Lemma dict_set_keys d k v :
  (∀ k', k' ∈ (dict_set d k v).*1 ↔ k' = k ∨ k' ∈ d.*1)
  ∧ (NoDup d.*1 → NoDup (dict_set d k v).*1).
Proof.
  induction d as [|[k0 v0] d [IHin IHnd]]; simpl.
  - split.
    + intros k'. rewrite elem_of_cons, !elem_of_nil. tauto.
    + intros _. apply NoDup_singleton.
  - destruct (decide (k0 = k)) as [->|Hne]; simpl.
    + split; [|done]. intros k'. rewrite !elem_of_cons. tauto.
    + split.
      * intros k'. rewrite !elem_of_cons, IHin. tauto.
      * intros [Hnin Hnd]%NoDup_cons. apply NoDup_cons. split; [|auto].
        rewrite IHin. intros [?|?]; [congruence|done].
Qed.

Lemma dict_set_wf d k v :
  json_wf (JDict d) = true → json_wf v = true →
  json_wf (JDict (dict_set d k v)) = true.
Proof.
  rewrite !json_wf_dict. intros [Hnd Hall] Hv.
  split; [by apply dict_set_keys|].
  clear Hnd. induction Hall as [|[k0 v0] d H0 Hd IH]; simpl.
  - by repeat constructor.
  - destruct (decide (k0 = k)); constructor; done.
Qed.

Lemma match_number_wf pf s v r :
  (∀ lit, floatstr_ok (pf lit) = true) →
  match_number pf s = Some (v, r) → json_wf v = true.
Proof.
  intros Hpf. unfold match_number.
  repeat case_match; intros; simplify_eq; [done|].
  unfold json_wf. simpl. apply Hpf.
Qed.

Lemma scanner_wf pf fuel :
  (∀ lit, floatstr_ok (pf lit) = true) →
  (∀ s v r, scan_once pf fuel s = Ok (v, r) → json_wf v = true)
  ∧ (∀ s values v r,
       json_wf (JList values) = true →
       parse_array pf fuel s values = Ok (v, r) → json_wf v = true)
  ∧ (∀ s pairs v r,
       json_wf (JDict pairs) = true →
       parse_object pf fuel s pairs = Ok (v, r) → json_wf v = true).
Proof.
  intros Hpf. induction fuel as [|fuel (IHs&IHa&IHo)]; [done|].
  split; [|split].
  - intros s v r. cbn [scan_once].
    repeat case_match; intros; simplify_eq; try done;
      first [ by (eapply IHa; [|eassumption])
            | by (eapply IHo; [|eassumption])
            | by eapply match_number_wf ].
  - intros s values v r Hvalues. cbn [parse_array].
    destruct (scan_once pf fuel s) as [[value s1]|e] eqn:Hscan; [|done].
    apply IHs in Hscan.
    assert (json_wf (JList (values ++ [value])) = true) as Hvalues'.
    { apply json_wf_list, Forall_app. split; [by apply json_wf_list|].
      by repeat constructor. }
    repeat case_match; intros; simplify_eq;
      [done|by (eapply IHa; [|eassumption])].
  - intros s pairs v r Hpairs. cbn [parse_object].
    repeat case_match; intros; simplify_eq;
      match goal with
      | H : scan_once _ _ _ = Ok _ |- _ => apply IHs in H
      end;
      [by apply dict_set_wf
      |eapply IHo; [|eassumption]; by apply dict_set_wf].
Qed.

(** A value [json_loads] returns has distinct keys in each dict and floats
    as [parse_float] makes them. *)
Lemma json_loads_wf pf s v :
  (∀ lit, floatstr_ok (pf lit) = true) →
  json_loads pf s = Ok v → json_wf v = true.
Proof.
  intros Hpf. unfold json_loads.
  repeat case_match; intros; simplify_eq;
    by eapply (proj1 (scanner_wf pf _ Hpf)).
Qed.

(** For two texts that [json_loads] decodes, the canonical keys of the
    values are equal exactly when the values are structurally equal. *)
Lemma normalize_site_decoded pf s1 s2 a b :
  (∀ lit, floatstr_ok (pf lit) = true) →
  json_loads pf s1 = Ok a → json_loads pf s2 = Ok b →
  normalize_site a = normalize_site b ↔ json_eqb a b = true.
Proof.
  intros Hpf Ha Hb. apply normalize_site_eq_iff; by eapply json_loads_wf.
Qed.

(** ** The trailing-comma repair *)

Lemma sub_from_skip r n s :
  (n ≤ length s)%nat → Re.sub_from r n s = Re.sub_from r 0 (drop n s).
Proof.
  revert s. induction n as [|n IH]; intros [|c s] Hn; simpl in *; try done.
  - lia.
  - apply IH. lia.
Qed.

Lemma star_takes_all {R} p ws b rest (k : pystr → option R) x :
  Forall (λ c, p c = true) ws → p b = false → k (b :: rest) = Some x →
  Re.star p (ws ++ b :: rest) k = Some x.
Proof.
  intros Hws Hb Hk. induction Hws as [|w ws Hw _ IH]; simpl.
  - by rewrite Hb.
  - by rewrite Hw, IH.
Qed.

Lemma match_at_trailing_comma ws b rest :
  Forall (λ c, Re.space c = true) ws → b = 93 ∨ b = 125 →
  Re.match_at TRAILING_COMMA (44 :: ws ++ b :: rest)
  = Some {| Re.group0 := 44 :: ws ++ [b]; Re.group1 := Some [b];
            Re.after := rest |}.
Proof.
  intros Hws Hb. unfold Re.match_at, TRAILING_COMMA.
  cbn [Re.run Re.lit]. rewrite N.eqb_refl.
  erewrite star_takes_all;
    [reflexivity|done|by destruct Hb as [-> | ->]|].
  cbn [Re.run length].
  assert ((b =? 93) || (b =? 125) = true) as ->
    by (destruct Hb as [-> | ->]; done).
  rewrite !length_app. cbn [length].
  replace (S (length ws + S (length rest)) - length rest)%nat
    with (length (44 :: ws ++ [b])) by (rewrite length_cons, length_app; simpl; lia).
  replace (S (length rest) - length rest)%nat with 1%nat by lia.
  change (44 :: ws ++ b :: rest) with ((44 :: ws) ++ b :: rest).
  rewrite (app_assoc _ [b] rest : (44 :: ws) ++ b :: rest = _).
  by rewrite take_app_length.
Qed.

(** A comma, the white space after it and a closing bracket or brace are
    replaced by the bracket or brace. *)
Lemma sub_trailing_comma ws b rest :
  Forall (λ c, Re.space c = true) ws → b = 93 ∨ b = 125 →
  Re.sub_group1 TRAILING_COMMA (44 :: ws ++ b :: rest)
  = b :: Re.sub_group1 TRAILING_COMMA rest.
Proof.
  intros Hws Hb. unfold Re.sub_group1. cbn [Re.sub_from].
  rewrite (match_at_trailing_comma ws b rest Hws Hb).
  cbn [Re.group0 Re.group1 default app length]. f_equal.
  replace (S (length (ws ++ [b])) - 1)%nat with (length (ws ++ [b])) by lia.
  rewrite (app_assoc _ [b] rest : ws ++ b :: rest = _).
  rewrite sub_from_skip by (rewrite (length_app (ws ++ [b])); lia).
  by rewrite drop_app_length.
Qed.

(** A text without a comma is left as it is. *)
Lemma sub_no_comma s :
  44 ∉ s → Re.sub_group1 TRAILING_COMMA s = s.
Proof.
  unfold Re.sub_group1.
  induction s as [|c s IH]; [done|]. intros [Hc Hs]%not_elem_of_cons.
  cbn [Re.sub_from]. unfold Re.match_at, TRAILING_COMMA at 1.
  cbn [Re.run]. unfold Re.lit.
  destruct (N.eqb_spec 44 c) as [Heq|_]; [done|]. by rewrite IH.
Qed.

(** ** The recovery of the sites array *)

Lemma strict_parse_not_Throw pf text e : strict_parse pf text ≠ Throw e.
Proof.
  unfold strict_parse. destruct (json_loads pf text) as [obj|e']; [|done].
  simpl. destruct (has_sites_list obj); [done|].
  simpl. destruct (is_list obj); done.
Qed.

Lemma regex_recovery_not_Throw pf text e : regex_recovery pf text ≠ Throw e.
Proof.
  unfold regex_recovery. destruct (Re.search SITES_REGEX text) as [m|]; [|done].
  destruct (json_loads pf (default [] (Re.group1 m))) as [arr|e1]; simpl.
  { destruct (is_list arr); done. }
  destruct (json_loads pf _) as [arr|e2]; simpl; [|done].
  destruct (is_list arr); done.
Qed.

Lemma extract_sites_from_text_total pf text :
  ∃ l, extract_sites_from_text pf text = Ok l.
Proof.
  unfold extract_sites_from_text.
  pose proof (strict_parse_not_Throw pf text) as H1.
  pose proof (regex_recovery_not_Throw pf text) as H2.
  destruct (strict_parse pf text) as [|l|e]; simpl; [|by eauto|by destruct (H1 e)].
  destruct (regex_recovery pf text) as [|l|e]; simpl; [by eauto..|].
  by destruct (H2 e).
Qed.

Lemma strict_parse_other_shape pf text obj :
  json_loads pf text = Ok obj →
  has_sites_list obj = false → is_list obj = false →
  strict_parse pf text = Next.
Proof.
  intros H1 H2 H3. unfold strict_parse. rewrite H1. cbn [bind_flow].
  by rewrite H2, H3.
Qed.

(** C3.  The strategies are tried in order and the first success wins,
    for every text.  First the strict parse: when the whole text decodes
    to a dict with a list under [sites], that list is returned, and when it
    decodes to a list, that list is returned, whatever the pattern would
    find in the text.  Only when the strict parse returns nothing (the
    text does not decode, or to a value of another shape) is the pattern
    searched: when the capture decodes, its elements are returned (or
    nothing if it is not a list) and no repair is tried; only when
    decoding the capture raises is the repair applied, once, and the
    repaired capture decoded.  In every other case the result is empty.
    So [{"sites": [1,2]}] gives [[1, 2]] by the strict parse; the array
    [[{"sites": [5]}]] is returned whole although the pattern finds [[5]]
    in it; and for [prefix garbage "sites": [1, 2,] suffix] the strict
    parse raises, the pattern captures [[1, 2,]], decoding the capture
    raises, the repair gives [[1, 2]], which decodes, and [[1, 2]] is
    returned. *)
Theorem extract_sites_priority (parse_float : pystr → pystr) :
  let loads := json_loads parse_float in
  let extract := extract_sites_from_text parse_float in
  let repair := Re.sub_group1 TRAILING_COMMA in
  let nothing_strict text :=
    ∀ obj, loads text = Ok obj →
           has_sites_list obj = false ∧ is_list obj = false in
  (∀ text obj,
     loads text = Ok obj → has_sites_list obj = true →
     extract text = Ok (elements (sites_item obj)))
  ∧ (∀ text obj,
       loads text = Ok obj → has_sites_list obj = false →
       is_list obj = true →
       extract text = Ok (elements obj))
  ∧ (∀ text, nothing_strict text →
       Re.search SITES_REGEX text = None → extract text = Ok [])
  ∧ (∀ text m capture,
       nothing_strict text →
       Re.search SITES_REGEX text = Some m → Re.group1 m = Some capture →
       (∀ arr, loads capture = Ok arr →
               extract text = Ok (if is_list arr then elements arr else []))
       ∧ (∀ e arr, loads capture = Raise e → loads (repair capture) = Ok arr →
                   extract text
                   = Ok (if is_list arr then elements arr else []))
       ∧ (∀ e e', loads capture = Raise e →
                  loads (repair capture) = Raise e' →
                  extract text = Ok []))
  ∧ (loads text_sites_object
     = Ok (JDict [(py "sites", JList [JInt 1; JInt 2])])
     ∧ strict_parse parse_float text_sites_object = Return [JInt 1; JInt 2]
     ∧ extract text_sites_object = Ok [JInt 1; JInt 2])
  ∧ (loads text_sites_inside
     = Ok (JList [JDict [(py "sites", JList [JInt 5])]])
     ∧ regex_recovery parse_float text_sites_inside = Return [JInt 5]
     ∧ extract text_sites_inside = Ok [JDict [(py "sites", JList [JInt 5])]])
  ∧ (loads text_trailing_comma = Raise JSONDecodeError
     ∧ strict_parse parse_float text_trailing_comma = Next
     ∧ (∃ m, Re.search SITES_REGEX text_trailing_comma = Some m
             ∧ Re.group1 m = Some (py "[1, 2,]"))
     ∧ loads (py "[1, 2,]") = Raise JSONDecodeError
     ∧ repair (py "[1, 2,]") = py "[1, 2]"
     ∧ loads (py "[1, 2]") = Ok (JList [JInt 1; JInt 2])
     ∧ extract text_trailing_comma = Ok [JInt 1; JInt 2]).
Proof.
  intros loads extract repair nothing_strict.
  subst loads extract repair nothing_strict. cbv beta.
  assert (∀ text,
            (∀ obj, json_loads parse_float text = Ok obj →
                    has_sites_list obj = false ∧ is_list obj = false) →
            strict_parse parse_float text = Next) as Hnext.
  { intros text Hno. unfold strict_parse.
    destruct (json_loads parse_float text) as [obj|e]; [|done].
    destruct (Hno obj eq_refl) as [Hs Hl]. cbn [bind_flow].
    by rewrite Hs, Hl. }
  split.
  { intros text obj Hload Hs.
    unfold extract_sites_from_text, strict_parse. rewrite Hload.
    cbn [bind_flow]. by rewrite Hs. }
  split.
  { intros text obj Hload Hs Hl.
    unfold extract_sites_from_text, strict_parse. rewrite Hload.
    cbn [bind_flow]. by rewrite Hs, Hl. }
  split.
  { intros text Hno Hsearch. unfold extract_sites_from_text.
    rewrite (Hnext text Hno). unfold regex_recovery. by rewrite Hsearch. }
  split.
  { intros text m capture Hno Hsearch Hgroup.
    unfold extract_sites_from_text. rewrite (Hnext text Hno).
    unfold regex_recovery. rewrite Hsearch, Hgroup.
    cbn [seq default from_option]. unfold id.
    split; [|split].
    - intros arr ->. cbn [bind_flow]. by destruct (is_list arr).
    - intros e arr -> Hrep. cbn [bind_flow try_except]. rewrite Hrep.
      cbn [bind_flow]. by destruct (is_list arr).
    - intros e e' -> Hrep. cbn [bind_flow try_except]. by rewrite Hrep. }
  split.
  { assert (strict_parse parse_float text_sites_object
            = Return [JInt 1; JInt 2]) as Hstrict by (by vm_compute).
    split; [by vm_compute|]. split; [done|].
    unfold extract_sites_from_text. by rewrite Hstrict. }
  split.
  { split; [by vm_compute|]. split; by vm_compute. }
  split; [by vm_compute|]. split; [by vm_compute|]. split.
  { eexists. split; by vm_compute. }
  repeat split; by vm_compute.
Qed.

(** C4.  When the whole text decodes to a value that is neither a dict with
    a list under [sites] nor a list, the strict parse returns nothing and
    the function goes on to the regex recovery on the same text: its result
    is the result of the recovery. *)
Theorem strict_parse_falls_through
  (parse_float : pystr → pystr) (text : pystr) (obj : json) :
  json_loads parse_float text = Ok obj →
  has_sites_list obj = false → is_list obj = false →
  strict_parse parse_float text = Next
  ∧ extract_sites_from_text parse_float text
    = ends_with (regex_recovery parse_float text) [].
Proof.
  intros Hobj Hsites Hlist.
  pose proof (strict_parse_other_shape _ _ _ Hobj Hsites Hlist) as Hnext.
  split; [done|]. unfold extract_sites_from_text. by rewrite Hnext.
Qed.

Lemma strict_parse_falls_through_witness :
  let obj := JDict [(py "data", JDict [(py "sites", JList [JInt 1; JInt 2])])] in
  json_loads id text_nested_sites = Ok obj
  ∧ has_sites_list obj = false ∧ is_list obj = false
  ∧ strict_parse id text_nested_sites = Next
  ∧ extract_sites_from_text id text_nested_sites
    = ends_with (regex_recovery id text_nested_sites) []
  ∧ ends_with (regex_recovery id text_nested_sites) [] = Ok [JInt 1; JInt 2].
Proof.
  intros obj.
  assert (json_loads id text_nested_sites = Ok obj) as Hobj by (by vm_compute).
  assert (has_sites_list obj = false) as Hs by (by vm_compute).
  assert (is_list obj = false) as Hl by (by vm_compute).
  split; [exact Hobj|]. split; [exact Hs|]. split; [exact Hl|].
  destruct (strict_parse_falls_through id text_nested_sites obj Hobj Hs Hl)
    as [H1 H2].
  split; [exact H1|]. split; [exact H2|]. by vm_compute.
Defined.

(** An object whose [sites] is not a list also goes on to the recovery,
    which here finds the list of the inner object. *)
Lemma sites_not_a_list_falls_through (parse_float : pystr → pystr) :
  strict_parse parse_float text_sites_not_list = Next
  ∧ extract_sites_from_text parse_float text_sites_not_list = Ok [JInt 3].
Proof. split; by vm_compute. Qed.

(** C5.  [extract_sites_from_text] returns a list for every text and never
    raises.  A text that is a bare array is decoded and returned as it is;
    a text that does not decode and in which the pattern finds nothing gives
    the empty list, as a normal result. *)
Theorem extract_sites_never_raises (parse_float : pystr → pystr) :
  (∀ text, ∃ l, extract_sites_from_text parse_float text = Ok l)
  ∧ extract_sites_from_text parse_float text_bare_array
    = Ok [JDict [(py "a", JInt 1)]]
  ∧ (∀ text e,
       json_loads parse_float text = Raise e →
       Re.search SITES_REGEX text = None →
       extract_sites_from_text parse_float text = Ok [])
  ∧ extract_sites_from_text parse_float text_no_json = Ok [].
Proof.
  split; [apply extract_sites_from_text_total|].
  split; [by vm_compute|]. split; [|by vm_compute].
  intros text e Hload Hsearch.
  unfold extract_sites_from_text, strict_parse, regex_recovery.
  by rewrite Hload, Hsearch.
Qed.

Lemma extract_sites_never_raises_witness :
  json_loads id text_no_json = Raise JSONDecodeError
  ∧ Re.search SITES_REGEX text_no_json = None
  ∧ extract_sites_from_text id text_no_json = Ok [].
Proof.
  assert (json_loads id text_no_json = Raise JSONDecodeError) as Hload
    by (by vm_compute).
  assert (Re.search SITES_REGEX text_no_json = None) as Hsearch
    by (by vm_compute).
  split; [exact Hload|]. split; [exact Hsearch|].
  exact (proj1 (proj2 (proj2 (extract_sites_never_raises id)))
           text_no_json JSONDecodeError Hload Hsearch).
Defined.

(** ** Resolution of the URLs *)

Lemma first_truthy_entry_url d :
  first_truthy d = if truthy (entry_url d) then Some (entry_url d) else None.
Proof.
  unfold first_truthy, entry_url, py_or. simpl.
  repeat (rewrite ?filter_cons, ?filter_nil; case_decide; simpl);
    repeat match goal with
           | H : truthy ?x = true |- _ => rewrite H
           | H : truthy ?x ≠ true |- _ => apply not_true_is_false in H; rewrite H
           end; done.
Qed.

Lemma foldl_add_entry urls entries :
  foldl add_entry urls entries = urls ++ omap resolve_entry entries.
Proof.
  revert urls. induction entries as [|e entries IH]; intros urls; simpl.
  - by rewrite app_nil_r.
  - rewrite IH. destruct e as [| | | |s|l|d]; simpl; try done.
    + by rewrite <-app_assoc.
    + rewrite first_truthy_entry_url.
      destruct (truthy (entry_url d)); simpl; [|done]. by rewrite <-app_assoc.
Qed.

Lemma has_urls_list_lookup d entries :
  dict_lookup (py "urls") d = Some (JList entries) →
  has_urls_list (JDict d) = true ∧ dict_get d (py "urls") = JList entries.
Proof.
  intros H. unfold has_urls_list, dict_in, dict_get. rewrite H. simpl.
  done.
Qed.

Lemma resolve_urls_entries d entries :
  dict_lookup (py "urls") d = Some (JList entries) →
  resolve_urls (JDict d) = omap resolve_entry entries.
Proof.
  intros [H1 H2]%has_urls_list_lookup. unfold resolve_urls.
  rewrite H1, H2. simpl. by rewrite foldl_add_entry.
Qed.

Lemma first_truthy_present d :
  present_truthy (JDict d) → first_truthy d = first_present d.
Proof.
  intros Hp. rewrite first_truthy_entry_url.
  unfold entry_url, first_present, py_or, dict_get.
  assert (∀ k v, k ∈ [py "url"; py "Url"; py "link"] →
                 dict_lookup k d = Some v → truthy v = true) as H by exact Hp.
  assert (∀ k, k = py "url" ∨ k = py "Url" ∨ k = py "link" →
               k ∈ [py "url"; py "Url"; py "link"]) as Hin.
  { intros k. rewrite !elem_of_cons. tauto. }
  destruct (dict_lookup (py "url") d) as [v1|] eqn:E1; simpl.
  { pose proof (H (py "url") v1 (Hin (py "url") ltac:(auto)) E1) as Ht.
    by repeat (rewrite Ht; simpl). }
  destruct (dict_lookup (py "Url") d) as [v2|] eqn:E2; simpl.
  { pose proof (H (py "Url") v2 (Hin (py "Url") ltac:(auto)) E2) as Ht.
    by repeat (rewrite Ht; simpl). }
  destruct (dict_lookup (py "link") d) as [v3|] eqn:E3; simpl; [|done].
  pose proof (H (py "link") v3 (Hin (py "link") ltac:(auto)) E3) as Ht.
  by repeat (rewrite Ht; simpl).
Qed.

(** The claim C6 as the specification words it fails: an object entry whose
    [url] is the empty string and whose [link] is a URL has a first present
    value, the empty string, and the code takes the [link]. *)
Lemma resolve_urls_first_present_counterexample :
  resolve_urls index_empty_url = [JStr (py "http://x/3")]
  ∧ resolve_urls_spec entries_empty_url = [JStr []]
  ∧ resolve_urls index_empty_url ≠ resolve_urls_spec entries_empty_url.
Proof. split; [by vm_compute|]. split; [by vm_compute|]. by vm_compute. Qed.

(** C6, amended.  For an index that is an object whose [urls] is a list, the
    resolved URLs are, in order: each string entry as it is, and for each
    object entry the value of the first key among [url], [Url], [link] whose
    value is true in the sense of [bool] (not null, not empty, not zero); an
    object entry without such a value, and an entry that is neither a string
    nor an object, gives nothing.  When every value present under these keys
    is true, this is the first present value.  The example of the
    specification resolves to its three URLs. *)
Theorem resolve_urls_first_truthy
  (d : list (pystr * json)) (entries : list json) :
  dict_lookup (py "urls") d = Some (JList entries) →
  resolve_urls (JDict d) = omap resolve_entry entries
  ∧ (Forall present_truthy entries →
     resolve_urls (JDict d) = resolve_urls_spec entries)
  ∧ resolve_urls index_example
    = [JStr (py "http://x/1"); JStr (py "http://x/2"); JStr (py "http://x/3")].
Proof.
  intros Hd. pose proof (resolve_urls_entries d entries Hd) as Hres.
  split; [done|]. split; [|by vm_compute].
  intros Hall. rewrite Hres. unfold resolve_urls_spec.
  clear Hd Hres. induction Hall as [|e entries He _ IH]; simpl; [done|].
  change (list_omap json json ?f entries) with (omap f entries).
  rewrite IH. destruct e as [| | | |s|l|d']; simpl; try done.
  by rewrite first_truthy_present.
Qed.

Lemma resolve_urls_first_truthy_witness :
  dict_lookup (py "urls") [(py "urls", JList entries_empty_url)]
  = Some (JList entries_empty_url)
  ∧ resolve_urls index_empty_url = omap resolve_entry entries_empty_url.
Proof.
  split; [reflexivity|].
  exact (proj1 (resolve_urls_first_truthy
                  [(py "urls", JList entries_empty_url)] entries_empty_url
                  eq_refl)).
Defined.

(** ** The matcher finds matches of the pattern *)

Lemma star_sound {R} p s (k : pystr → option R) x :
  Re.star p s k = Some x →
  ∃ pre s', s = pre ++ s' ∧ Forall (λ c, p c = true) pre ∧ k s' = Some x.
Proof.
  induction s as [|c s IH]; simpl.
  - intros H. by exists [], [].
  - destruct (p c) eqn:Hc; [|intros H; by exists [], (c :: s)].
    destruct (Re.star p s k) as [y|] eqn:Hs.
    + intros [= ->]. destruct (IH eq_refl) as (pre&s'&->&Hpre&Hk).
      exists (c :: pre), s'. auto.
    + intros H. by exists [], (c :: s).
Qed.

Lemma lazy_star_sound {R} p s (k : pystr → option R) x :
  Re.lazy_star p s k = Some x →
  ∃ pre s', s = pre ++ s' ∧ Forall (λ c, p c = true) pre ∧ k s' = Some x.
Proof.
  induction s as [|c s IH]; simpl.
  - destruct (k []) eqn:Hk; [|done]. intros [= ->]. by exists [], [].
  - destruct (k (c :: s)) eqn:Hk.
    { intros [= ->]. by exists [], (c :: s). }
    destruct (p c) eqn:Hc; [|done].
    intros H. destruct (IH H) as (pre&s'&->&Hpre&Hk').
    exists (c :: pre), s'. auto.
Qed.

Lemma run_sound {R} r :
  ∀ s g (k : pystr → option pystr → option R) x,
    Re.run r s g k = Some x →
    ∃ pre s' g', s = pre ++ s' ∧ re_matches r pre ∧ k s' g' = Some x.
Proof.
  induction r as [p|r1 IH1 r2 IH2|p|p|r IH|r IH]; intros s g k x; simpl.
  - destruct s as [|c s]; [done|]. destruct (p c) eqn:Hc; [|done].
    intros H. exists [c], s, g. split; [done|]. split; [by constructor|done].
  - intros H. apply IH1 in H as (pre1&s1&g1&->&Hm1&H).
    apply IH2 in H as (pre2&s2&g2&->&Hm2&H).
    exists (pre1 ++ pre2), s2, g2. rewrite <-app_assoc.
    split; [done|]. split; [by constructor|done].
  - intros H. apply star_sound in H as (pre&s'&->&Hpre&H).
    exists pre, s', g. split; [done|]. split; [by constructor|done].
  - intros H. apply lazy_star_sound in H as (pre&s'&->&Hpre&H).
    exists pre, s', g. split; [done|]. split; [by constructor|done].
  - destruct (Re.run r s g k) as [y|] eqn:Hr.
    + intros [= ->]. apply IH in Hr as (pre&s'&g'&->&Hm&H).
      exists pre, s', g'. split; [done|]. split; [by constructor|done].
    + intros H. exists [], s, g. split; [done|].
      split; [apply matches_opt_none|done].
  - intros H. apply IH in H as (pre&s'&g'&->&Hm&H).
    eexists pre, s', _. split; [done|]. split; [by constructor|exact H].
Qed.

Lemma match_at_sound r s m :
  Re.match_at r s = Some m →
  s = Re.group0 m ++ Re.after m ∧ re_matches r (Re.group0 m).
Proof.
  unfold Re.match_at. intros H.
  apply run_sound in H as (pre&s'&g'&->&Hm&[= <-]). simpl.
  rewrite length_app, Nat.add_sub, take_app_length. done.
Qed.

Lemma matches_seq_inv r1 r2 t :
  re_matches (Re.Seq r1 r2) t →
  ∃ a b, t = a ++ b ∧ re_matches r1 a ∧ re_matches r2 b.
Proof. inversion 1; subst; eauto. Qed.

Lemma matches_chr_inv p t :
  re_matches (Re.Chr p) t → ∃ c, t = [c] ∧ p c = true.
Proof. inversion 1; subst; eauto. Qed.

Lemma matches_star_inv p t :
  re_matches (Re.Star p) t → Forall (λ c, p c = true) t.
Proof. by inversion 1. Qed.

Lemma matches_opt_inv r t :
  re_matches (Re.Opt r) t → re_matches r t ∨ t = [].
Proof. inversion 1; subst; auto. Qed.

Lemma matches_lits mk s r t :
  re_matches (Re.lits mk s r) t →
  ∃ a b, t = a ++ b ∧ Forall2 (λ c x, mk c x = true) s a ∧ re_matches r b.
Proof.
  revert t. induction s as [|c s IH]; simpl; intros t H.
  - exists [], t. split; [done|]. split; [constructor|done].
  - apply matches_seq_inv in H as (a&b&->&Ha&Hb).
    apply matches_chr_inv in Ha as (x&->&Hx).
    apply IH in Hb as (a'&b'&->&Hs&Hr).
    exists (x :: a'), b'. split; [done|]. split; [by constructor|done].
Qed.

Lemma Forall2_lit s a : Forall2 (λ c x, Re.lit c x = true) s a → a = s.
Proof.
  induction 1 as [|c x s a Hc _ IH]; [done|].
  unfold Re.lit in Hc. apply N.eqb_eq in Hc. by subst.
Qed.

Lemma matches_URL_REGEX t : re_matches URL_REGEX t → url_token t.
Proof.
  unfold URL_REGEX. intros H.
  apply matches_lits in H as (a&b&->&Ha%Forall2_lit&H). subst a.
  apply matches_seq_inv in H as (o&b'&->&Ho&Hb).
  apply matches_lits in Hb as (a&b&->&Ha%Forall2_lit&H). subst a.
  unfold Re.Plus in H.
  apply matches_seq_inv in H as (one&more&->&Hone&Hmore).
  apply matches_chr_inv in Hone as (c&->&Hc).
  apply matches_star_inv in Hmore.
  exists (c :: more). split; [|split; [done|by constructor]].
  apply matches_opt_inv in Ho as [Hs| ->].
  - apply matches_chr_inv in Hs as (x&->&Hx).
    unfold Re.lit in Hx. apply N.eqb_eq in Hx. subst. by right.
  - by left.
Qed.

(** ** [finditer] scans from left to right *)

Lemma finditer_from_skip r n s :
  (n ≤ length s)%nat → Re.finditer_from r n s = Re.finditer_from r 0 (drop n s).
Proof.
  revert s. induction n as [|n IH]; intros [|c s] Hn; simpl in *; try done.
  - lia.
  - apply IH. lia.
Qed.

Lemma scan_cons_gap r c s toks :
  Re.match_at r (c :: s) = None → scan r s toks → scan r (c :: s) toks.
Proof.
  intros Hnone Hscan.
  destruct Hscan as [s Hs|gap t rest toks m Hgap Hm Ht Hne Hrest].
  - constructor. intros [|c' pre] post; simpl.
    + by intros <-.
    + intros [= <- ->]. by apply (Hs pre).
  - change (c :: gap ++ t ++ rest) with ((c :: gap) ++ t ++ rest).
    apply scan_hit with m; try done.
    intros [|c' pre] post; simpl.
    + by intros <- _.
    + intros [= <- ->]. by apply (Hgap pre).
Qed.

Lemma finditer_scan r :
  (∀ s m, Re.match_at r s = Some m → Re.group0 m ≠ []) →
  ∀ s, scan r s (Re.finditer r s).
Proof.
  intros Hne s. unfold Re.finditer.
  remember (length s) as n eqn:Hn. revert s Hn.
  induction n as [n IH] using lt_wf_ind. intros s ->.
  destruct (Re.match_at r s) as [m|] eqn:Hm.
  - pose proof (Hne _ _ Hm) as Hm0.
    destruct (match_at_sound _ _ _ Hm) as [Hs _].
    destruct (Re.group0 m) as [|c t'] eqn:Ht; [done|].
    assert (Re.finditer_from r 0 s
            = (c :: t') :: Re.finditer_from r 0 (Re.after m)) as ->.
    { destruct s as [|c0 s0]; [done|]. injection Hs as -> Hs0.
      cbn [Re.finditer_from]. rewrite Hm, Ht. f_equal.
      cbn [length]. rewrite Nat.sub_succ, Nat.sub_0_r.
      rewrite finditer_from_skip by (rewrite Hs0, length_app; lia).
      by rewrite Hs0, drop_app_length. }
    rewrite Hs. change ((c :: t') ++ Re.after m)
      with ([] ++ (c :: t') ++ Re.after m).
    apply scan_hit with m.
    + intros pre post Hnil Hpost. by destruct pre, post.
    + by rewrite <-Hs.
    + done.
    + done.
    + apply (IH (length (Re.after m))); [|done].
      rewrite Hs, length_app. simpl. lia.
  - destruct s as [|c s].
    + cbn [Re.finditer_from]. rewrite Hm. constructor. intros pre post Heq.
      by destruct pre, post.
    + cbn [Re.finditer_from]. rewrite Hm. apply scan_cons_gap; [done|].
      apply (IH (length s)); [simpl; lia|done].
Qed.

Lemma URL_REGEX_nonempty s m :
  Re.match_at URL_REGEX s = Some m → Re.group0 m ≠ [].
Proof.
  intros [_ Hm]%match_at_sound. apply matches_URL_REGEX in Hm.
  destruct Hm as (tail&[-> | ->]&_&_); done.
Qed.

Lemma scan_tokens r s toks :
  scan r s toks → Forall (re_matches r) toks.
Proof.
  induction 1 as [|gap t rest toks m _ Hm Ht _ _ IH]; constructor; [|done].
  apply match_at_sound in Hm as [_ Hm]. by rewrite Ht in Hm.
Qed.

Lemma foldl_append_JStr urls ms :
  foldl (λ urls m, urls ++ [JStr m]) urls ms = urls ++ (JStr <$> ms).
Proof.
  revert urls. induction ms as [|m ms IH]; intros urls; simpl.
  - by rewrite app_nil_r.
  - by rewrite IH, <-app_assoc.
Qed.

Lemma fallback_is_finditer data :
  has_urls_list data = false →
  resolve_urls data = JStr <$> Re.finditer URL_REGEX (json_dumps true false data).
Proof.
  intros H. unfold resolve_urls. rewrite H. by rewrite foldl_append_JStr.
Qed.

(** ** Keeping the first site of each key *)

Lemma foldl_add_site_merged a l :
  merged (foldl add_site a l)
  = merged a ++ filter (λ x, normalize_site x ∉ seen a) (first_seen l).
Proof.
  revert a. induction l as [|s l IH]; intros a; simpl.
  - by rewrite app_nil_r.
  - rewrite IH. unfold add_site. destruct (decide (normalize_site s ∈ seen a))
      as [Hin|Hnin]; simpl.
    + rewrite filter_cons_False by (intros H; by apply H).
      rewrite list_filter_filter_l; [done|].
      intros x Hx Heq. apply Hx. by rewrite Heq.
    + rewrite filter_cons_True by done. rewrite <-app_assoc. simpl.
      do 2 f_equal. rewrite list_filter_filter. apply list_filter_iff.
      intros x. rewrite elem_of_union, elem_of_singleton. tauto.
Qed.

Lemma merged_acc0 l : merged (foldl add_site acc0 l) = first_seen l.
Proof.
  rewrite foldl_add_site_merged. simpl.
  induction (first_seen l) as [|x fs IH]; [done|].
  rewrite filter_cons_True by set_solver. by rewrite IH.
Qed.

Lemma first_seen_sublist l : first_seen l `sublist_of` l.
Proof.
  induction l as [|s l IH]; simpl; [done|].
  apply sublist_skip. etrans; [apply sublist_filter|done].
Qed.

Lemma first_seen_NoDup l : NoDup (normalize_site <$> first_seen l).
Proof.
  induction l as [|s l IH]; simpl; [constructor|].
  apply NoDup_cons. split.
  - intros (x&Hk&Hx)%list_elem_of_fmap_1.
    apply list_elem_of_filter in Hx as [Hne _]. by apply Hne.
  - eapply sublist_NoDup; [exact IH|]. apply fmap_sublist, sublist_filter.
Qed.

Lemma first_seen_first l s :
  s ∈ first_seen l →
  ∃ l1 l2, l = l1 ++ s :: l2 ∧ normalize_site s ∉ normalize_site <$> l1.
Proof.
  induction l as [|s0 l IH]; simpl; [by intros ?%elem_of_nil|].
  intros [->|Hin]%elem_of_cons.
  - exists [], l. split; [done|]. simpl. apply not_elem_of_nil.
  - apply list_elem_of_filter in Hin as [Hne Hin].
    destruct (IH Hin) as (l1&l2&->&Hl1).
    exists (s0 :: l1), l2. split; [done|]. simpl.
    rewrite not_elem_of_cons. done.
Qed.

Lemma first_seen_keys l s :
  s ∈ l → normalize_site s ∈ normalize_site <$> first_seen l.
Proof.
  induction l as [|s0 l IH]; simpl; [by intros ?%elem_of_nil|].
  intros [->|Hin]%elem_of_cons; [left|].
  destruct (decide (normalize_site s = normalize_site s0)) as [->|Hne];
    [left|right].
  apply IH in Hin as (x&Hk&Hx)%list_elem_of_fmap_1.
  rewrite Hk. apply list_elem_of_fmap_2, list_elem_of_filter.
  split; [congruence|done].
Qed.

Lemma filter_key_nil (l : list json) k :
  k ∉ normalize_site <$> l → filter (λ x, normalize_site x = k) l = [].
Proof.
  induction l as [|x l IH]; simpl; [done|].
  intros [Hne Hnin]%not_elem_of_cons.
  rewrite filter_cons_False by congruence. by apply IH.
Qed.

Lemma filter_key_length (l : list json) k :
  NoDup (normalize_site <$> l) → k ∈ normalize_site <$> l →
  length (filter (λ x, normalize_site x = k) l) = 1%nat.
Proof.
  induction l as [|x l IH]; simpl; [by intros _ ?%elem_of_nil|].
  intros [Hnin Hnd]%NoDup_cons Hin.
  destruct (decide (normalize_site x = k)) as [<-|Hne].
  - rewrite filter_cons_True by done. by rewrite filter_key_nil.
  - rewrite filter_cons_False by done.
    apply elem_of_cons in Hin as [->|Hin]; [done|]. by apply IH.
Qed.

Lemma filter_ext_Forall {A} (P Q : A → Prop)
  `{∀ x, Decision (P x)} `{∀ x, Decision (Q x)} (l : list A) :
  Forall (λ x, P x ↔ Q x) l → filter P l = filter Q l.
Proof.
  induction 1 as [|x l Hx _ IH]; [done|].
  rewrite !filter_cons, IH. destruct (decide (P x)), (decide (Q x)); tauto.
Qed.

Lemma first_seen_one_copy l s :
  Forall (λ x, json_wf x = true) l → s ∈ l →
  length (filter (λ x, json_eqb x s = true) (first_seen l)) = 1%nat.
Proof.
  intros Hwf Hs.
  rewrite (filter_ext_Forall _ (λ x, normalize_site x = normalize_site s)).
  - apply filter_key_length; [apply first_seen_NoDup|by apply first_seen_keys].
  - rewrite Forall_forall in Hwf. apply Forall_forall. intros x Hx.
    symmetry. apply normalize_site_eq_iff; apply Hwf; [|done].
    eapply elem_of_sublist; [exact Hx|apply first_seen_sublist].
Qed.

(** ** The per-URL step *)

Section merge_proofs.
Context (parse_float : pystr → pystr) (World : Type).
Context (requests_get : json → Z → World → result response * World).
Context (elapse : Q → World → World).
Context (stdout_takes : line → bool).

Local Abbreviation fetch :=
  (fetch_and_extract parse_float World requests_get stdout_takes).
Local Abbreviation loop :=
  (merge_loop parse_float World requests_get elapse stdout_takes).
Local Abbreviation fetches :=
  (loop_fetches parse_float World requests_get elapse stdout_takes).
Local Abbreviation io := (io World).
Local Abbreviation prints := (url_prints stdout_takes).

(** [time.sleep] takes the delay: it returns after the sleep. *)
Local Abbreviation slept delay :=
  (∀ σ : io,
     time_sleep World elapse delay σ
     = (Ok (), {| world := elapse delay (world σ);
                  trace := trace σ ++ [ESleep delay] |})).

Ltac unfold_io :=
  unfold fetch_and_extract, sends, sseq, sdo, stry, ctry, cbind, cret,
    print, get, pure_, snext, sreturn, emit, time_sleep.

Ltac close_fetch :=
  simpl; try rewrite <-!app_assoc;
  first [ by (do 2 eexists; split; [reflexivity|done])
        | by (do 2 eexists; split; [f_equal; f_equal; symmetry; apply app_nil_r|done]) ].

(** *** [time.sleep] *)

Lemma sleep_ns_nonneg delay :
  time_sleep_range delay → (0 <= delay)%Q →
  (0 ≤ sleep_ns delay ≤ 9000000000000000000)%Z.
Proof.
  intros [_ Hmax] Hd. unfold sleep_ns. cbv zeta.
  assert (0 <= delay * inject_Z (10 ^ 9))%Q as Hns.
  { apply Qmult_le_0_compat; [done|]. by vm_compute. }
  rewrite (proj2 (Qle_bool_iff _ _) Hns).
  split.
  - change 0%Z with (Qceiling (inject_Z 0)). by apply Qceiling_resp_le.
  - change 9000000000000000000%Z
      with (Qceiling (inject_Z 9000000000000000000)).
    apply Qceiling_resp_le.
    change (inject_Z 9000000000000000000)
      with (inject_Z 9000000000 * inject_Z (10 ^ 9))%Q.
    apply Qmult_le_compat_r; [done|]. by vm_compute.
Qed.

Lemma sleep_ns_negative delay :
  time_sleep_range delay → (delay < 0)%Q →
  (-9000000000000000000 ≤ sleep_ns delay < 0)%Z.
Proof.
  intros [Hmin _] Hd. unfold sleep_ns. cbv zeta.
  assert (delay * inject_Z (10 ^ 9) < 0)%Q as Hns.
  { apply (Qlt_le_trans _ (0 * inject_Z (10 ^ 9))); [|by vm_compute].
    apply Qmult_lt_compat_r; [by vm_compute|done]. }
  destruct (Qle_bool 0 (delay * inject_Z (10 ^ 9))) eqn:Hle.
  { apply Qle_bool_iff in Hle. by apply Qlt_not_le in Hns. }
  split.
  - change (-9000000000000000000)%Z
      with (Qfloor (inject_Z (-9000000000000000000))).
    apply Qfloor_resp_le.
    change (inject_Z (-9000000000000000000))
      with (inject_Z (-9000000000) * inject_Z (10 ^ 9))%Q.
    apply Qmult_le_compat_r; [done|]. by vm_compute.
  - pose proof (Qfloor_le (delay * inject_Z (10 ^ 9))) as Hfl.
    assert (inject_Z (Qfloor (delay * inject_Z (10 ^ 9))) < inject_Z 0)%Q
      as Hlt by (eapply Qle_lt_trans; [exact Hfl|exact Hns]).
    by rewrite <-Zlt_Qlt in Hlt.
Qed.

Lemma time_sleep_takes delay :
  time_sleep_range delay → (0 <= delay)%Q → slept delay.
Proof.
  intros Hr Hd σ. unfold time_sleep. cbv zeta.
  pose proof (sleep_ns_nonneg delay Hr Hd) as [H0 Hmax].
  assert ((- 2 ^ 63 <=? sleep_ns delay)%Z = true) as -> by (apply Z.leb_le; lia).
  assert ((sleep_ns delay <? 2 ^ 63)%Z = true) as -> by (apply Z.ltb_lt; lia).
  cbn [andb negb].
  by assert ((sleep_ns delay <? 0)%Z = false) as -> by (apply Z.ltb_ge; lia).
Qed.

Lemma time_sleep_refuses delay (σ : io) :
  time_sleep_range delay → (delay < 0)%Q →
  time_sleep World elapse delay σ = (Raise ValueError, σ).
Proof.
  intros Hr Hd. unfold time_sleep. cbv zeta.
  pose proof (sleep_ns_negative delay Hr Hd) as [Hmin H0].
  assert ((- 2 ^ 63 <=? sleep_ns delay)%Z = true) as -> by (apply Z.leb_le; lia).
  assert ((sleep_ns delay <? 2 ^ 63)%Z = true) as -> by (apply Z.ltb_lt; lia).
  cbn [andb negb].
  by assert ((sleep_ns delay <? 0)%Z = true) as -> by (apply Z.ltb_lt; lia).
Qed.

Lemma time_sleep_returns delay (σ σ' : io) :
  time_sleep World elapse delay σ = (Ok (), σ') →
  σ' = {| world := elapse delay (world σ);
          trace := trace σ ++ [ESleep delay] |}.
Proof.
  unfold time_sleep. cbv zeta.
  destruct (negb _); [done|]. destruct (sleep_ns delay <? 0)%Z; [done|].
  by intros [= <-].
Qed.



(** *** The per-URL step *)

Lemma fetch_and_extract_falsy url t (σ : io) :
  truthy url = false → fetch url t σ = (Ok [], σ).
Proof. intros H. unfold_io. by rewrite H. Qed.

Lemma fetch_and_extract_spec url t (σ : io) :
  prints url →
  ∃ l t',
    fetch url t σ
    = (Ok l, {| world := if truthy url
                         then (requests_get url t (world σ)).2
                         else world σ;
                trace := trace σ ++ t' |})
    ∧ gets t' = (if truthy url then [url] else [])
    ∧ sleeps t' = [].
Proof.
  intros Hp. destruct (truthy url) eqn:Hu.
  2:{ rewrite fetch_and_extract_falsy by done. exists [], [].
      rewrite app_nil_r. by destruct σ. }
  specialize (Hp Hu).
  pose proof (Hp (InfoGet url) eq_refl) as Hget.
  pose proof (Hp (InfoNoSites url) eq_refl) as Hnone.
  unfold_io. rewrite Hu. simpl. rewrite Hget. simpl.
  destruct (requests_get url t (world σ)) as [[r|e] w]; simpl.
  2:{ rewrite (Hp (ErrorFetch url e) eq_refl). close_fetch. }
  destruct (status_code r =? 200)%Z; simpl.
  2:{ rewrite (Hp (WarnStatus url (status_code r)) eq_refl). close_fetch. }
  destruct (json_ r) as [obj|e]; simpl.
  - destruct (has_sites_list obj); simpl; [close_fetch|].
    destruct (is_list obj); simpl; [close_fetch|].
    destruct (is_dict obj); simpl;
      [destruct (is_list (sites_item obj)); simpl; [close_fetch|]|];
      (destruct (extract_sites_from_text_total parse_float (text r))
         as [[|s sites] ->]; simpl; rewrite ?Hnone; close_fetch).
  - destruct (extract_sites_from_text_total parse_float (text r))
      as [[|s sites] ->]; simpl; rewrite ?Hnone; close_fetch.
Qed.

Lemma has_sites_list_false_item obj :
  has_sites_list obj = false → is_list (sites_item obj) = false.
Proof.
  destruct obj as [| | | | | |d]; try done.
  unfold has_sites_list, sites_item, dict_in, dict_get.
  by destruct (dict_lookup (py "sites") d) as [v|].
Qed.

Lemma fetch_and_extract_get_raises url t (σ : io) e w :
  truthy url = true → prints url →
  requests_get url t (world σ) = (Raise e, w) →
  fetch url t σ
  = (Ok [], {| world := w;
               trace := trace σ ++ [EPrint (InfoGet url); EGet url t;
                                    EPrint (ErrorFetch url e)] |}).
Proof.
  intros Hu Hp Hget. specialize (Hp Hu).
  unfold_io. rewrite Hu. simpl. rewrite (Hp (InfoGet url) eq_refl). simpl.
  rewrite Hget. simpl. rewrite (Hp (ErrorFetch url e) eq_refl).
  by rewrite <-!app_assoc.
Qed.

Lemma fetch_and_extract_bad_status url t (σ : io) r w :
  truthy url = true → prints url →
  requests_get url t (world σ) = (Ok r, w) →
  status_code r ≠ 200%Z →
  fetch url t σ
  = (Ok [], {| world := w;
               trace := trace σ ++ [EPrint (InfoGet url); EGet url t;
                                    EPrint (WarnStatus url (status_code r))] |}).
Proof.
  intros Hu Hp Hget Hst. specialize (Hp Hu).
  unfold_io. rewrite Hu. simpl. rewrite (Hp (InfoGet url) eq_refl). simpl.
  rewrite Hget. simpl.
  apply Z.eqb_neq in Hst. rewrite Hst. simpl.
  rewrite (Hp (WarnStatus url (status_code r)) eq_refl).
  by rewrite <-!app_assoc.
Qed.

Lemma fetch_and_extract_nothing url t (σ : io) r w :
  truthy url = true → prints url →
  requests_get url t (world σ) = (Ok r, w) →
  status_code r = 200%Z →
  ((∃ e, json_ r = Raise e)
   ∨ (∃ obj, json_ r = Ok obj ∧ has_sites_list obj = false
             ∧ is_list obj = false)) →
  extract_sites_from_text parse_float (text r) = Ok [] →
  fetch url t σ
  = (Ok [], {| world := w;
               trace := trace σ ++ [EPrint (InfoGet url); EGet url t;
                                    EPrint (InfoNoSites url)] |}).
Proof.
  intros Hu Hp Hget Hst Hjson Hext. specialize (Hp Hu).
  pose proof (Hp (InfoNoSites url) eq_refl) as Hnone.
  unfold_io. rewrite Hu. simpl. rewrite (Hp (InfoGet url) eq_refl). simpl.
  rewrite Hget. simpl. rewrite Hst. simpl.
  destruct Hjson as [[e ->]|(obj&->&Hs&Hl)]; simpl.
  - rewrite Hext. simpl. rewrite Hnone. by rewrite <-!app_assoc.
  - rewrite Hs, Hl, (has_sites_list_false_item _ Hs). simpl.
    destruct (is_dict obj); simpl; rewrite Hext; simpl; rewrite Hnone;
      by rewrite <-!app_assoc.
Qed.

(** A line that [sys.stdout] refuses ends the per-URL step: line 82 stands
    before the [try]. *)
Lemma fetch_and_extract_refused url t (σ : io) :
  truthy url = true → stdout_takes (InfoGet url) = false →
  fetch url t σ = (Raise UnicodeEncodeError, σ).
Proof. intros Hu Hno. unfold_io. rewrite Hu. simpl. by rewrite Hno. Qed.

(** The case analysis of the per-URL step on a URL that is true: what
    [sys.stdout] does with each line, the request, the status, what
    [r.json()] gives and what the recovery finds.  [fin] closes each
    case. *)
Ltac fetch_tail url r fin :=
  destruct (extract_sites_from_text_total parse_float (text r))
    as [[|?s ?sites] ->]; simpl;
  [ destruct (stdout_takes (InfoNoSites url)) eqn:?; simpl;
    [ fin
    | destruct (stdout_takes (ErrorFetch url UnicodeEncodeError)) eqn:?;
      simpl; fin ]
  | fin ].

Ltac fetch_cases url t σ fin :=
  let r := fresh "r" in
  let e := fresh "e" in
  let obj := fresh "obj" in
  destruct (stdout_takes (InfoGet url)) eqn:?; simpl; [|fin];
  destruct (requests_get url t (world σ)) as [[r|e] ?w] eqn:?; simpl;
  [ destruct (status_code r =? 200)%Z eqn:?; simpl;
    [ destruct (json_ r) as [obj|?e] eqn:?; simpl;
      [ destruct (has_sites_list obj) eqn:?; simpl; [fin|];
        destruct (is_list obj) eqn:?; simpl; [fin|];
        destruct (is_dict obj) eqn:?; simpl;
        [ destruct (is_list (sites_item obj)) eqn:?; simpl; [fin|] | ];
        fetch_tail url r fin
      | fetch_tail url r fin ]
    | destruct (stdout_takes (WarnStatus url (status_code r))) eqn:?; simpl;
      [ fin
      | destruct (stdout_takes (ErrorFetch url UnicodeEncodeError)) eqn:?;
        simpl; fin ] ]
  | destruct (stdout_takes (ErrorFetch url e)) eqn:?; simpl; fin ].

(** Whatever the per-URL step does, it adds to the trace, sends at most
    the request for its URL, after the line of line 82, and does not
    sleep. *)
Lemma fetch_and_extract_trace url t (σ : io) :
  ∃ t',
    trace (fetch url t σ).2 = trace σ ++ t'
    ∧ gets t'
      = (if truthy url && stdout_takes (InfoGet url) then [url] else [])
    ∧ sleeps t' = [].
Proof.
  destruct (truthy url) eqn:Hu.
  2:{ rewrite fetch_and_extract_falsy by done. exists [].
      by rewrite app_nil_r. }
  unfold_io. rewrite Hu. simpl.
  fetch_cases url t σ
    ltac:(eexists;
          split; [first [ rewrite <-?app_assoc; reflexivity
                        | symmetry; apply app_nil_r ]|];
          split; reflexivity).
Qed.


(** ** The merge loop *)

Lemma add_site_with_processed a n s :
  add_site (with_processed a n) s = with_processed (add_site a s) n.
Proof. unfold add_site. simpl. by destruct (decide _). Qed.

Lemma foldl_add_site_with_processed a n l :
  foldl add_site (with_processed a n) l
  = with_processed (foldl add_site a l) n.
Proof.
  revert a. induction l as [|s l IH]; intros a; simpl; [done|].
  by rewrite add_site_with_processed, IH.
Qed.

Lemma foldl_add_site_processed a l :
  processed (foldl add_site a l) = processed a.
Proof.
  revert a. induction l as [|s l IH]; intros a; simpl; [done|].
  rewrite IH. unfold add_site. by destruct (decide _).
Qed.

Lemma with_processed_id a : with_processed a (processed a) = a.
Proof. by destruct a. Qed.

Lemma loop_cons max delay u urls a (σ σ1 : io) l :
  cap_reached max a = false →
  slept delay →
  fetch u 25 σ = (Ok l, σ1) →
  let a1 := count_url (foldl add_site a l) in
  let σ2 := {| world := elapse delay (world σ1);
               trace := trace σ1 ++ [ESleep delay] |} in
  loop max delay (u :: urls) a σ = loop max delay urls a1 σ2
  ∧ fetches max delay (u :: urls) a σ = l :: fetches max delay urls a1 σ2.
Proof.
  intros Hcap Hd Hf. simpl. rewrite Hcap.
  unfold cbind at 1. rewrite Hf.
  unfold cbind at 1. by rewrite Hd.
Qed.

Lemma loop_spec max delay :
  slept delay →
  ∀ urls a (σ : io),
    Forall prints urls →
    let fs := fetches max delay urls a σ in
    ∃ σ' t',
      loop max delay urls a σ
      = (Ok (with_processed (foldl add_site a (concat fs))
                            (processed a + Z.of_nat (length fs))%Z), σ')
      ∧ trace σ' = trace σ ++ t'
      ∧ gets t' = filter (λ u, truthy u = true) (take (length fs) urls)
      ∧ sleeps t' = replicate (length fs) delay
      ∧ (length fs ≤ length urls)%nat.
Proof.
  intros Hd. induction urls as [|u urls IH]; intros a σ Hp.
  { simpl. exists σ, []. rewrite Z.add_0_r, with_processed_id, app_nil_r.
    done. }
  destruct (cap_reached max a) eqn:Hcap.
  { simpl. rewrite Hcap. simpl. exists σ, [].
    rewrite Z.add_0_r, with_processed_id, app_nil_r.
    repeat split; try done. lia. }
  apply Forall_cons in Hp as [Hu Hp].
  destruct (fetch_and_extract_spec u 25 σ Hu) as (l&t1&Hf&Hg1&Hs1).
  destruct (loop_cons max delay u urls a σ _ l Hcap Hd Hf) as [Hl Hfs].
  cbv zeta in Hl, Hfs. intros fs. subst fs. rewrite Hl, Hfs. clear Hl Hfs.
  set (a1 := count_url (foldl add_site a l)).
  match goal with
  | |- context [loop max delay urls a1 ?σ2] =>
      destruct (IH a1 σ2 Hp) as (σ'&t2&Hloop&Htr&Hg2&Hs2&Hlen);
      set (F := fetches max delay urls a1 σ2) in *
  end.
  cbv zeta in Hloop. exists σ', (t1 ++ [ESleep delay] ++ t2).
  split; [|split; [|split; [|split]]].
  - rewrite Hloop. f_equal.
    rewrite concat_cons, foldl_app. subst a1.
    change (count_url ?b) with (with_processed b (processed b + 1)%Z).
    rewrite foldl_add_site_with_processed, foldl_add_site_processed.
    unfold with_processed. cbn [merged seen processed length].
    by replace (processed a + Z.of_nat (S (length F)))%Z
      with (processed a + 1 + Z.of_nat (length F))%Z by lia.
  - rewrite Htr. cbn [trace]. by rewrite <-!app_assoc.
  - unfold gets in *. rewrite !omap_app, Hg1, Hg2. cbn [length take].
    rewrite filter_cons. cbn [omap list_omap app].
    destruct (truthy u); by case_decide.
  - unfold sleeps in *. rewrite !omap_app, Hs1, Hs2. done.
  - cbn [length]. lia.
Qed.

Lemma cap_reached_zero a : cap_reached 0 a = false.
Proof. done. Qed.

Lemma processed_count_url a l :
  processed (count_url (foldl add_site a l)) = (processed a + 1)%Z.
Proof. simpl. by rewrite foldl_add_site_processed. Qed.

Lemma fetches_length_unbounded delay :
  slept delay →
  ∀ urls a (σ : io),
    Forall prints urls → length (fetches 0 delay urls a σ) = length urls.
Proof.
  intros Hd. induction urls as [|u urls IH]; intros a σ Hp; [done|].
  apply Forall_cons in Hp as [Hu Hp].
  destruct (fetch_and_extract_spec u 25 σ Hu) as (l&t1&Hf&_).
  destruct (loop_cons 0 delay u urls a σ _ l (cap_reached_zero a) Hd Hf)
    as [_ ->].
  cbn [length]. by rewrite IH.
Qed.

Lemma loop_capped max delay :
  max ≠ 0%Z →
  ∀ urls a (σ : io),
    let k := Z.to_nat (max - processed a) in
    loop max delay urls a σ = loop 0 delay (take k urls) a σ
    ∧ fetches max delay urls a σ = fetches 0 delay (take k urls) a σ.
Proof.
  intros Hmax. induction urls as [|u urls IH]; intros a σ k.
  { by rewrite take_nil. }
  assert (truthy (JInt max) = true) as Ht.
  { simpl. by apply negb_true_iff, Z.eqb_neq. }
  destruct (Z.leb_spec max (processed a)) as [Hle|Hlt].
  - assert (k = O) as -> by (subst k; lia).
    cbn [take merge_loop loop_fetches]. unfold cap_reached. rewrite Ht.
    by rewrite (proj2 (Z.leb_le _ _) Hle).
  - assert (k = S (Z.to_nat (max - (processed a + 1)))) as ->
      by (subst k; lia).
    cbn [take merge_loop loop_fetches]. unfold cap_reached at 1 3.
    rewrite Ht, (proj2 (Z.leb_gt _ _) Hlt), cap_reached_zero.
    cbn [andb]. unfold cbind at 1 3.
    destruct (fetch u 25 σ) as [[l|e] σ1]; [|done].
    unfold cbind.
    destruct (time_sleep World elapse delay σ1) as [[[]|e] σ2]; [|done].
    pose proof (IH (count_url (foldl add_site a l)) σ2) as IH'.
    cbv zeta in IH'. rewrite processed_count_url in IH'.
    destruct IH' as [-> ->]. done.
Qed.

Lemma loop_unbounded_requests delay :
  slept delay →
  ∀ urls (σ : io),
    Forall prints urls →
    ∃ a' σ' t',
      loop 0 delay urls acc0 σ = (Ok a', σ')
      ∧ processed a' = Z.of_nat (length urls)
      ∧ trace σ' = trace σ ++ t'
      ∧ gets t' = filter (λ u, truthy u = true) urls
      ∧ sleeps t' = replicate (length urls) delay.
Proof.
  intros Hd urls σ Hp.
  pose proof (fetches_length_unbounded delay Hd urls acc0 σ Hp) as Hfn.
  destruct (loop_spec 0 delay Hd urls acc0 σ Hp)
    as (σ'&t'&Hloop&Htr&Hg&Hs&_).
  cbv zeta in Hloop. rewrite Hfn in Hloop, Hg, Hs.
  rewrite firstn_all in Hg.
  eexists _, σ', t'. split; [exact Hloop|]. done.
Qed.

Lemma Forall_prints_take n urls :
  Forall prints urls → Forall prints (take n urls).
Proof. apply Forall_take. Qed.

(** C2.  With a delay that [time.sleep] takes and URLs whose lines
    [sys.stdout] takes, the loop ends normally, and its merged list is the
    concatenation of the lists fetched, URL after URL in the order of the
    index and each list in its own order, in which only the first site
    with each canonical key is kept: no two entries of the result have one
    key, the result is a sublist of what was fetched, each entry of it is
    the first site fetched with its key, and when the fetched sites are
    decoded values, each of them has exactly one structurally equal copy
    in the result, whatever the order of the keys of its other
    occurrences. *)
Theorem merged_first_seen_once
  (max : Z) (delay : Q) (urls : list json) (σ : io) :
  time_sleep_range delay → (0 <= delay)%Q → Forall prints urls →
  let all := concat (fetches max delay urls acc0 σ) in
  ∃ a' σ',
    loop max delay urls acc0 σ = (Ok a', σ')
    ∧ merged a' = first_seen all
    ∧ NoDup (normalize_site <$> merged a')
    ∧ merged a' `sublist_of` all
    ∧ (∀ s, s ∈ merged a' →
            ∃ l1 l2, all = l1 ++ s :: l2
                     ∧ normalize_site s ∉ normalize_site <$> l1)
    ∧ (Forall (λ x, json_wf x = true) all →
       ∀ s, s ∈ all →
            length (filter (λ x, json_eqb x s = true) (merged a')) = 1%nat).
Proof.
  intros Hr Hd Hp all.
  pose proof (time_sleep_takes delay Hr Hd) as Hsleep.
  destruct (loop_spec max delay Hsleep urls acc0 σ Hp) as (σ'&t'&Hloop&_).
  cbv zeta in Hloop. fold all in Hloop.
  eexists _, σ'. split; [exact Hloop|].
  cbn [with_processed merged]. rewrite merged_acc0.
  split; [done|]. split; [apply first_seen_NoDup|].
  split; [apply first_seen_sublist|].
  split; [intros s; apply first_seen_first|].
  intros Hwf s Hs. by apply first_seen_one_copy.
Qed.

(** The script as a whole, from the loaded index: with a delay that
    [time.sleep] takes and URLs whose lines are printed it returns the
    first-seen sites of what the loop fetched from the resolved URLs. *)
Lemma main_returns_first_seen data max delay (σ : io) :
  time_sleep_range delay → (0 <= delay)%Q →
  Forall prints (resolve_urls data) →
  let urls := resolve_urls data in
  let σ1 := emit World (EPrint (InfoFound (length urls) max)) σ in
  ∃ σ',
    main parse_float World requests_get elapse stdout_takes data max delay σ
    = (Ok (first_seen (concat (fetches max delay urls acc0 σ1))), σ').
Proof.
  intros Hr Hd Hp urls σ1. unfold main, cbind, print, cret.
  cbn [line_url]. fold urls. fold σ1.
  pose proof (time_sleep_takes delay Hr Hd) as Hsleep.
  destruct (loop_spec max delay Hsleep urls acc0 σ1 Hp) as (σ'&t'&Hloop&_).
  cbv zeta in Hloop. rewrite Hloop. cbn [with_processed merged].
  rewrite merged_acc0. eauto.
Qed.

(** C8.  With a delay that [time.sleep] takes, URLs whose lines
    [sys.stdout] takes, a cap [n > 0] and more than [n] URLs, the loop
    runs the per-URL step for the first [n] URLs and for no other: it
    behaves as the loop without a cap on the first [n] URLs, it counts [n]
    processed URLs, [fetch_and_extract] is called [n] times whatever it
    returns, it sleeps [n] times, and the requests sent are those of the
    true URLs among the first [n].  With the cap 0 every URL is
    processed. *)
Theorem max_caps_processed_urls
  (delay : Q) (urls : list json) (σ : io) (n : nat) :
  time_sleep_range delay → (0 <= delay)%Q → Forall prints urls →
  (0 < n)%nat → (n < length urls)%nat →
  (∃ a' σ' t',
      loop (Z.of_nat n) delay urls acc0 σ = (Ok a', σ')
      ∧ loop (Z.of_nat n) delay urls acc0 σ
        = loop 0 delay (take n urls) acc0 σ
      ∧ processed a' = Z.of_nat n
      ∧ length (fetches (Z.of_nat n) delay urls acc0 σ) = n
      ∧ trace σ' = trace σ ++ t'
      ∧ gets t' = filter (λ u, truthy u = true) (take n urls)
      ∧ sleeps t' = replicate n delay)
  ∧ (∃ a' σ' t',
        loop 0 delay urls acc0 σ = (Ok a', σ')
        ∧ processed a' = Z.of_nat (length urls)
        ∧ length (fetches 0 delay urls acc0 σ) = length urls
        ∧ trace σ' = trace σ ++ t'
        ∧ gets t' = filter (λ u, truthy u = true) urls
        ∧ sleeps t' = replicate (length urls) delay).
Proof.
  intros Hr Hd0 Hp Hn Hlen.
  pose proof (time_sleep_takes delay Hr Hd0) as Hd. split.
  - destruct (loop_capped (Z.of_nat n) delay ltac:(lia) urls acc0 σ)
      as [Hl Hf].
    cbv zeta in Hl, Hf. cbn [processed acc0] in Hl, Hf.
    rewrite Z.sub_0_r, Nat2Z.id in Hl, Hf.
    assert (length (fetches (Z.of_nat n) delay urls acc0 σ) = n) as Hfn.
    { rewrite Hf, fetches_length_unbounded;
        [|done|by apply Forall_prints_take].
      rewrite length_take. lia. }
    destruct (loop_spec (Z.of_nat n) delay Hd urls acc0 σ Hp)
      as (σ'&t'&Hloop&Htr&Hg&Hs&_).
    cbv zeta in Hloop. rewrite Hfn in Hloop, Hg, Hs.
    eexists _, σ', t'. split; [exact Hloop|]. split; [exact Hl|].
    split; [done|]. done.
  - destruct (loop_unbounded_requests delay Hd urls σ Hp)
      as (a'&σ'&t'&Hloop&Hpr&Htr&Hg&Hs).
    exists a', σ', t'. split; [done|]. split; [done|].
    split; [by apply fetches_length_unbounded|]. done.
Qed.

(** C9.  For a URL whose lines [sys.stdout] takes, the per-URL step never
    raises.  It returns the empty list when the request raises, when the
    status is not 200, and when the status is 200 but [r.json()] raises or
    gives a value without a sites list and the recovery finds nothing in
    the text.  A URL for which it returns the empty list leaves the merged
    list and the set of keys as they were, and the loop goes on with the
    next URL; with a delay that [time.sleep] takes the loop ends normally
    whatever the network and the URLs, provided their lines are
    printed. *)
Theorem url_failure_contributes_nothing (max : Z) (delay : Q) :
  time_sleep_range delay → (0 <= delay)%Q →
  (∀ url t (σ : io), prints url → ∃ l σ', fetch url t σ = (Ok l, σ'))
  ∧ (∀ url t (σ : io) e w,
       truthy url = true → prints url →
       requests_get url t (world σ) = (Raise e, w) →
       (fetch url t σ).1 = Ok [])
  ∧ (∀ url t (σ : io) r w,
       truthy url = true → prints url →
       requests_get url t (world σ) = (Ok r, w) →
       status_code r ≠ 200%Z →
       (fetch url t σ).1 = Ok [])
  ∧ (∀ url t (σ : io) r w,
       truthy url = true → prints url →
       requests_get url t (world σ) = (Ok r, w) →
       status_code r = 200%Z →
       ((∃ e, json_ r = Raise e)
        ∨ (∃ obj, json_ r = Ok obj ∧ has_sites_list obj = false
                  ∧ is_list obj = false)) →
       extract_sites_from_text parse_float (text r) = Ok [] →
       (fetch url t σ).1 = Ok [])
  ∧ (∀ u urls a (σ σ1 : io),
       cap_reached max a = false → fetch u 25 σ = (Ok [], σ1) →
       loop max delay (u :: urls) a σ
       = loop max delay urls (count_url a)
           {| world := elapse delay (world σ1);
              trace := trace σ1 ++ [ESleep delay] |}
       ∧ merged (count_url a) = merged a ∧ seen (count_url a) = seen a)
  ∧ (∀ urls a (σ : io),
       Forall prints urls → ∃ a' σ', loop max delay urls a σ = (Ok a', σ')).
Proof.
  intros Hr Hd0. pose proof (time_sleep_takes delay Hr Hd0) as Hd.
  split.
  { intros url t σ Hp.
    destruct (fetch_and_extract_spec url t σ Hp) as (l&t'&H&_). eauto. }
  split.
  { intros url t σ e w Hu Hp Hg.
    by rewrite (fetch_and_extract_get_raises _ _ _ _ _ Hu Hp Hg). }
  split.
  { intros url t σ r w Hu Hp Hg Hs.
    by rewrite (fetch_and_extract_bad_status _ _ _ _ _ Hu Hp Hg Hs). }
  split.
  { intros url t σ r w Hu Hp Hg Hs Hj He.
    by rewrite (fetch_and_extract_nothing _ _ _ _ _ Hu Hp Hg Hs Hj He). }
  split.
  { intros u urls a σ σ1 Hcap Hf.
    destruct (loop_cons max delay u urls a σ σ1 [] Hcap Hd Hf) as [Hl _].
    done. }
  intros urls a σ Hp.
  destruct (loop_spec max delay Hd urls a σ Hp) as (σ'&t'&Hloop&_). eauto.
Qed.

(** C10.  For the empty string the per-URL step returns the empty list at
    once: nothing is printed, no request is sent, the network is as it
    was.  The loop still counts this URL as processed and sleeps after
    it, for a delay that [time.sleep] takes; with the cap 1 it is the only
    URL processed.  An index whose [urls] holds an empty string resolves
    to it. *)
Theorem empty_url_counts_without_request
  (max : Z) (delay : Q) (urls : list json) (a : acc) (σ : io) :
  time_sleep_range delay → (0 <= delay)%Q → cap_reached max a = false →
  fetch (JStr []) 25 σ = (Ok [], σ)
  ∧ loop max delay (JStr [] :: urls) a σ
    = loop max delay urls (count_url a)
        {| world := elapse delay (world σ);
           trace := trace σ ++ [ESleep delay] |}
  ∧ processed (count_url a) = (processed a + 1)%Z
  ∧ loop 1 delay (JStr [] :: urls) acc0 σ
    = (Ok (count_url acc0),
       {| world := elapse delay (world σ);
          trace := trace σ ++ [ESleep delay] |})
  ∧ resolve_urls (JDict [(py "urls", JList [JStr []])]) = [JStr []].
Proof.
  intros Hr Hd0 Hcap. pose proof (time_sleep_takes delay Hr Hd0) as Hd.
  assert (fetch (JStr []) 25 σ = (Ok [], σ)) as Hf
    by (by apply fetch_and_extract_falsy).
  split; [done|]. split.
  { by destruct (loop_cons max delay (JStr []) urls a σ σ [] Hcap Hd Hf). }
  split; [done|]. split; [|done].
  destruct (loop_cons 1 delay (JStr []) urls acc0 σ σ [] eq_refl Hd Hf)
    as [-> _].
  by destruct urls.
Qed.

End merge_proofs.

(** ** The theorems on the example network *)

Lemma half_second_nonneg : (0 <= 1 # 2)%Q.
Proof. unfold Qle. simpl. lia. Defined.

Lemma half_second_counts : time_sleep_range (1 # 2).
Proof. split; by vm_compute. Defined.

Lemma minus_half_second_negative : (-1 # 2 < 0)%Q.
Proof. reflexivity. Defined.

Lemma minus_half_second_counts : time_sleep_range (-1 # 2).
Proof. split; by vm_compute. Defined.

(** In UTF-8 the lines of a string URL without a surrogate are printed. *)
Lemma utf8_stdout_prints s :
  existsb surrogate s = false → url_prints utf8_stdout (JStr s).
Proof. intros Hs _ l Hl. unfold utf8_stdout. by rewrite Hl, Hs. Defined.

Lemma demo_urls_print : Forall (url_prints utf8_stdout) demo_urls.
Proof. repeat constructor; by apply utf8_stdout_prints. Defined.

Lemma merged_first_seen_once_witness :
  time_sleep_range (1 # 2) ∧ (0 <= 1 # 2)%Q
  ∧ Forall (url_prints utf8_stdout) demo_urls
  ∧ ∃ a' σ',
      merge_loop id nat demo_get demo_elapse utf8_stdout 0 (1 # 2)
                 demo_urls acc0 demo_io
      = (Ok a', σ')
      ∧ merged a'
        = first_seen
            (concat (loop_fetches id nat demo_get demo_elapse utf8_stdout
                                  0 (1 # 2) demo_urls acc0 demo_io))
      ∧ merged a' = [site_ab].
Proof.
  split; [exact half_second_counts|]. split; [exact half_second_nonneg|].
  split; [exact demo_urls_print|].
  destruct (merged_first_seen_once id nat demo_get demo_elapse utf8_stdout
              0 (1 # 2) demo_urls demo_io half_second_counts
              half_second_nonneg demo_urls_print)
    as (a'&σ'&Hloop&Hmerged&_).
  exists a', σ'. split; [exact Hloop|]. split; [exact Hmerged|].
  rewrite Hmerged. by vm_compute.
Defined.


Lemma max_caps_processed_urls_witness :
  time_sleep_range (1 # 2) ∧ (0 <= 1 # 2)%Q
  ∧ Forall (url_prints utf8_stdout) demo_urls
  ∧ (0 < 2)%nat ∧ (2 < length demo_urls)%nat
  ∧ ∃ a' σ' t',
      merge_loop id nat demo_get demo_elapse utf8_stdout 2 (1 # 2)
                 demo_urls acc0 demo_io
      = (Ok a', σ')
      ∧ processed a' = 2%Z
      ∧ trace σ' = trace demo_io ++ t'
      ∧ gets t' = [JStr (py "http://x/1"); JStr (py "http://x/2")].
Proof.
  split; [exact half_second_counts|]. split; [exact half_second_nonneg|].
  split; [exact demo_urls_print|].
  assert (0 < 2)%nat as H2 by (vm_compute; lia).
  assert (2 < length demo_urls)%nat as H3 by (vm_compute; lia).
  split; [exact H2|]. split; [exact H3|].
  destruct (proj1 (max_caps_processed_urls id nat demo_get demo_elapse
                     utf8_stdout (1 # 2) demo_urls demo_io 2
                     half_second_counts half_second_nonneg demo_urls_print
                     H2 H3))
    as (a'&σ'&t'&Hloop&_&Hp&_&Htr&Hg&_).
  exists a', σ', t'. split; [exact Hloop|]. split; [exact Hp|].
  split; [exact Htr|]. rewrite Hg. by vm_compute.
Defined.

Lemma url_failure_contributes_nothing_witness :
  time_sleep_range (1 # 2) ∧ (0 <= 1 # 2)%Q
  ∧ (fetch_and_extract id nat demo_get utf8_stdout
                       (JStr (py "http://x/2")) 25 demo_io).1
    = Ok []
  ∧ ∃ a' σ',
      merge_loop id nat demo_get demo_elapse utf8_stdout 0 (1 # 2)
                 demo_urls acc0 demo_io
      = (Ok a', σ').
Proof.
  split; [exact half_second_counts|]. split; [exact half_second_nonneg|].
  pose proof (url_failure_contributes_nothing id nat demo_get demo_elapse
                utf8_stdout 0 (1 # 2) half_second_counts half_second_nonneg)
    as (_&_&Hstatus&_&_&Htotal).
  split.
  - apply (Hstatus (JStr (py "http://x/2")) 25%Z demo_io
             {| status_code := 404; text := py "not found";
                json_ := Raise JSONDecodeError |} 1%nat);
      [by vm_compute|by apply utf8_stdout_prints|by vm_compute..].
  - apply Htotal, demo_urls_print.
Defined.

Lemma empty_url_counts_without_request_witness :
  time_sleep_range (1 # 2) ∧ (0 <= 1 # 2)%Q ∧ cap_reached 0 acc0 = false
  ∧ fetch_and_extract id nat demo_get utf8_stdout (JStr []) 25 demo_io
    = (Ok [], demo_io)
  ∧ merge_loop id nat demo_get demo_elapse utf8_stdout 1 (1 # 2)
               [JStr []; JStr (py "http://x/1")] acc0 demo_io
    = (Ok (count_url acc0),
       {| world := O; trace := [ESleep (1 # 2)] |}).
Proof.
  split; [exact half_second_counts|]. split; [exact half_second_nonneg|].
  split; [reflexivity|].
  pose proof (empty_url_counts_without_request id nat demo_get demo_elapse
                utf8_stdout 0 (1 # 2) [JStr (py "http://x/1")] acc0 demo_io
                half_second_counts half_second_nonneg eq_refl)
    as (Hf&_&_&Hcap&_).
  split; [exact Hf|exact Hcap].
Defined.

(** ** The decoder reads back what the encoder writes *)

(** *** Strings *)

Lemma hexval_hexdigit n : n < 16 → hexval (hexdigit n) = Some n.
Proof.
  intros Hn. unfold hexval, hexdigit, is_digit.
  destruct (N.ltb_spec n 10).
  - rewrite (proj2 (N.leb_le 48 (48 + n))), (proj2 (N.leb_le (48 + n) 57))
      by lia.
    simpl. f_equal. lia.
  - rewrite (proj2 (N.leb_gt (87 + n) 57)) by lia.
    rewrite andb_false_r.
    rewrite (proj2 (N.leb_le 97 (87 + n))), (proj2 (N.leb_le (87 + n) 102))
      by lia.
    simpl. f_equal. lia.
Qed.

Lemma decode_u_escape n h1 h2 h3 h4 :
  n < 65536 → u_escape n = [92; 117; h1; h2; h3; h4] →
  decode_uXXXX h1 h2 h3 h4 = Some n.
Proof.
  intros Hn [= <- <- <- <-]. unfold decode_uXXXX.
  rewrite !hexval_hexdigit by (apply N.mod_lt; lia). f_equal.
  rewrite (N.mod_small (n / 4096)) by (apply N.Div0.div_lt_upper_bound; lia).
  replace (n / 4096) with (n / 16 / 16 / 16) by (by rewrite !N.Div0.div_div).
  replace (n / 256) with (n / 16 / 16) by (by rewrite !N.Div0.div_div).
  pose proof (N.div_mod n 16 ltac:(lia)).
  pose proof (N.div_mod (n / 16) 16 ltac:(lia)).
  pose proof (N.div_mod (n / 16 / 16) 16 ltac:(lia)).
  lia.
Qed.

Lemma scanstring_escape_char c tl :
  scanstring (escape_char c ++ tl) = cons_char c (scanstring tl).
Proof.
  destruct (escape_char_cases c) as [(->&?&?&?)|[(x&->&?&Hx)|(Hu&?)]].
  - cbn [app scanstring].
    rewrite (proj2 (N.eqb_neq c 34)), (proj2 (N.eqb_neq c 92)) by done.
    by rewrite (proj2 (N.ltb_ge c 32)) by done.
  - destruct Hx as [[-> ->]|[[-> ->]|[[-> ->]|[[-> ->]|[[-> ->]|[[-> ->]|
      [-> ->]]]]]]]; reflexivity.
  - rewrite Hu. pose proof Hu as Hu'. unfold u_escape in Hu'.
    unfold u_escape. cbn [app scanstring]. cbn [N.eqb Pos.eqb].
    rewrite (decode_u_escape c _ _ _ _ ltac:(lia) eq_refl).
    rewrite (proj2 (N.leb_gt 55296 c)) by lia. done.
Qed.

Lemma scanstring_encoded s rest :
  scanstring (flat_map escape_char s ++ 34 :: rest) = Ok (s, rest).
Proof.
  induction s as [|c s IH]; [done|].
  cbn [flat_map]. rewrite <-app_assoc, scanstring_escape_char, IH. done.
Qed.

(** *** Numbers *)

Lemma value_end_head c rest :
  value_end (c :: rest) →
  is_digit c = false ∧ c ≠ 46 ∧ c ≠ 101 ∧ c ≠ 69 ∧ c ≠ 43 ∧ c ≠ 45.
Proof.
  unfold value_end, is_ws, is_digit. intros H.
  assert (c = 32 ∨ c = 9 ∨ c = 10 ∨ c = 13 ∨ c = 44 ∨ c = 93 ∨ c = 125)
    as Hc.
  { destruct H as [H|H]; [|lia].
    rewrite !orb_true_iff, !N.eqb_eq in H. lia. }
  split; [|lia].
  apply andb_false_iff. rewrite !N.leb_gt. lia.
Qed.

Lemma span_digits_app s d r rest :
  span_digits s = (d, r) → value_end rest →
  span_digits (s ++ rest) = (d, r ++ rest).
Proof.
  intros Hs Hrest. revert d r Hs.
  induction s as [|c s IH]; intros d r; simpl.
  - intros [= <- <-]. destruct rest as [|c rest]; [done|]. simpl.
    by rewrite (proj1 (value_end_head c rest Hrest)).
  - destruct (is_digit c); [|by intros [= <- <-]].
    destruct (span_digits s) as [d' r']. intros [= <- <-].
    by rewrite (IH d' r' eq_refl).
Qed.

Lemma match_integer_app s lit r rest :
  match_integer s = Some (lit, r) → value_end rest →
  match_integer (s ++ rest) = Some (lit, r ++ rest).
Proof.
  intros Hs Hrest. unfold match_integer in *.
  assert (∀ sign s0,
            match s0 with
            | c :: s1 =>
                if c =? 48 then Some (sign ++ [48], s1)
                else if is_digit c
                     then let '(d, r) := span_digits s1 in
                          Some (sign ++ c :: d, r)
                     else None
            | [] => None
            end = Some (lit, r) →
            match s0 ++ rest with
            | c :: s1 =>
                if c =? 48 then Some (sign ++ [48], s1)
                else if is_digit c
                     then let '(d, r) := span_digits s1 in
                          Some (sign ++ c :: d, r)
                     else None
            | [] => None
            end = Some (lit, r ++ rest)) as Hbody.
  { intros sign [|c s1]; [done|]. cbn [app].
    destruct (c =? 48); [by intros [= <- <-]|].
    destruct (is_digit c); [|done].
    destruct (span_digits s1) as [d r'] eqn:Hsp. intros [= <- <-].
    by rewrite (span_digits_app _ _ _ _ Hsp Hrest). }
  destruct s as [|c s']; [done|]. cbn [app].
  destruct (c =? 45).
  - by apply Hbody.
  - by apply (Hbody [] (c :: s')).
Qed.

Lemma match_frac_app s f r rest :
  match_frac s = (f, r) → value_end rest →
  match_frac (s ++ rest) = (f, r ++ rest).
Proof.
  intros Hs Hrest. unfold match_frac in *.
  destruct s as [|c s1]; cbn [app].
  - injection Hs as <- <-. destruct rest as [|c rest]; [done|].
    destruct (value_end_head c rest Hrest) as (_&Hc&_).
    by rewrite (proj2 (N.eqb_neq c 46)).
  - destruct (c =? 46); [|by injection Hs as <- <-].
    destruct (span_digits s1) as [d r'] eqn:Hsp.
    rewrite (span_digits_app _ _ _ _ Hsp Hrest).
    destruct d; by injection Hs as <- <-.
Qed.

Lemma match_exp_app s x r rest :
  match_exp s = (x, r) → value_end rest →
  match_exp (s ++ rest) = (x, r ++ rest).
Proof.
  intros Hs Hrest. unfold match_exp in *.
  destruct s as [|e s1]; cbn [app].
  - injection Hs as <- <-. destruct rest as [|c rest]; [done|].
    destruct (value_end_head c rest Hrest) as (_&_&H1&H2&_).
    by rewrite (proj2 (N.eqb_neq c 101)), (proj2 (N.eqb_neq c 69)).
  - destruct ((e =? 101) || (e =? 69)); [|by injection Hs as <- <-].
    destruct s1 as [|c s']; cbn [app].
    + cbn [span_digits] in Hs. injection Hs as <- <-.
      destruct rest as [|c rest]; [done|].
      destruct (value_end_head c rest Hrest) as (Hd&_&_&_&H1&H2).
      rewrite (proj2 (N.eqb_neq c 45)), (proj2 (N.eqb_neq c 43)) by done.
      cbn [orb span_digits]. by rewrite Hd.
    + destruct ((c =? 45) || (c =? 43)).
      * destruct (span_digits s') as [d r'] eqn:Hsp.
        rewrite (span_digits_app _ _ _ _ Hsp Hrest).
        destruct d; by injection Hs as <- <-.
      * destruct (span_digits (c :: s')) as [d r'] eqn:Hsp.
        change (c :: s' ++ rest) with ((c :: s') ++ rest).
        rewrite (span_digits_app _ _ _ _ Hsp Hrest).
        destruct d; by injection Hs as <- <-.
Qed.

Lemma match_number_app pf s v r rest :
  match_number pf s = Some (v, r) → value_end rest →
  match_number pf (s ++ rest) = Some (v, r ++ rest).
Proof.
  intros Hs Hrest. unfold match_number in *.
  destruct (match_integer s) as [[lit s1]|] eqn:Hi; [|done].
  rewrite (match_integer_app _ _ _ _ Hi Hrest).
  destruct (match_frac s1) as [f s2] eqn:Hf.
  rewrite (match_frac_app _ _ _ _ Hf Hrest).
  destruct (match_exp s2) as [x s3] eqn:Hx.
  rewrite (match_exp_app _ _ _ _ Hx Hrest).
  destruct (bool_decide (f = []) && bool_decide (x = []));
    by injection Hs as <- <-.
Qed.

Lemma digits_value_acc d acc :
  fold_left (λ a c, a * 10 + Z.of_N (c - 48))%Z (uint_chars d) (Z.pos acc)
  = Z.pos (Pos.of_uint_acc d acc).
Proof.
  revert acc. induction d; intros acc; cbn [uint_chars fold_left Pos.of_uint_acc];
    [done|..];
    match goal with
    | |- context [Pos.of_uint_acc _ ?a] => rewrite <-(IHd a)
    end; f_equal; lia.
Qed.

Lemma digits_value_uint d : digits_value (uint_chars d) = Z.of_uint d.
Proof.
  unfold digits_value, Z.of_uint.
  induction d; cbn [uint_chars fold_left Pos.of_uint]; [done|exact IHd|..];
    cbn [Z.of_N];
    match goal with
    | |- context [Pos.of_uint_acc _ ?a] =>
        rewrite <-(digits_value_acc d a)
    end; f_equal.
Qed.

Lemma to_uint_canonical p :
  ∃ c t, uint_chars (Pos.to_uint p) = c :: t ∧ 49 ≤ c ≤ 57.
Proof.
  pose proof (DecimalPos.Unsigned.to_of (Pos.to_uint p)) as Hn.
  rewrite DecimalPos.Unsigned.of_to in Hn. cbn [N.to_uint] in Hn.
  pose proof (DecimalPos.Unsigned.to_uint_nonzero p) as Hz.
  destruct (Pos.to_uint p) as [|d| | | | | | | | |] eqn:Hp;
    try (do 2 eexists; split; [reflexivity|lia]).
  - by destruct (DecimalPos.Unsigned.to_uint_nonnil p).
  - exfalso. rewrite DecimalFacts.unorm_D0 in Hn.
    destruct d as [| | | | | | | | | |] eqn:Hd; [done|..];
      (assert (d ≠ Decimal.Nil) as Hne by (by subst);
       pose proof (DecimalFacts.nb_digits_unorm d Hne) as Hlen;
       rewrite Hd, <-Hn in Hlen; cbn [Decimal.nb_digits] in Hlen; lia).
Qed.

Lemma span_digits_all d :
  Forall (λ c, 48 ≤ c ≤ 57) d → span_digits d = (d, []).
Proof.
  induction 1 as [|c d Hc _ IH]; [done|]. simpl. unfold is_digit.
  rewrite (proj2 (N.leb_le 48 c)), (proj2 (N.leb_le c 57)) by lia.
  simpl. by rewrite IH.
Qed.

Lemma match_integer_canonical c t :
  49 ≤ c ≤ 57 → Forall (λ c, 48 ≤ c ≤ 57) t →
  match_integer (c :: t) = Some (c :: t, [])
  ∧ match_integer (45 :: c :: t) = Some (45 :: c :: t, []).
Proof.
  intros Hc Ht. unfold match_integer. cbn [N.eqb Pos.eqb].
  rewrite (proj2 (N.eqb_neq c 45)), (proj2 (N.eqb_neq c 48)) by lia.
  unfold is_digit.
  rewrite (proj2 (N.leb_le 48 c)), (proj2 (N.leb_le c 57)) by lia.
  cbn [andb]. by rewrite span_digits_all.
Qed.

Lemma match_number_int pf z :
  match_number pf (int_repr z) = Some (JInt z, []).
Proof.
  assert (∀ lit, match_integer (int_repr z) = Some (lit, []) →
                 lit = int_repr z →
                 match_number pf (int_repr z) = Some (JInt z, [])) as Hfin.
  { intros lit Hm ->. unfold match_number. rewrite Hm. cbn.
    do 2 f_equal. rewrite <-(DecimalZ.of_to z) at 2.
    unfold int_repr, parse_int. destruct (Z.to_int z) as [d|d] eqn:Hz.
    - pose proof (to_int_nonnil z) as Hnn. rewrite Hz in Hnn.
      destruct (uint_chars_nonnil d Hnn) as (c&t&Hd&Hc).
      rewrite Hd, (proj2 (N.eqb_neq c 45)) by lia.
      by rewrite <-Hd, digits_value_uint.
    - cbn [N.eqb Pos.eqb Z.of_int]. by rewrite digits_value_uint. }
  destruct z as [|p|p].
  - by apply (Hfin (py "0")).
  - destruct (to_uint_canonical p) as (c&t&Hp&Hc).
    pose proof (uint_chars_digits (Pos.to_uint p)) as Hd. rewrite Hp in Hd.
    apply Forall_cons_1 in Hd as [_ Hd].
    apply (Hfin (c :: t)); unfold int_repr; cbn [Z.to_int]; rewrite Hp;
      [|done].
    by apply match_integer_canonical.
  - destruct (to_uint_canonical p) as (c&t&Hp&Hc).
    pose proof (uint_chars_digits (Pos.to_uint p)) as Hd. rewrite Hp in Hd.
    apply Forall_cons_1 in Hd as [_ Hd].
    apply (Hfin (45 :: c :: t)); unfold int_repr; cbn [Z.to_int]; rewrite Hp;
      [|done].
    by apply match_integer_canonical.
Qed.

Lemma match_integer_head s lit r :
  match_integer s = Some (lit, r) →
  ∃ c s', s = c :: s'
          ∧ (48 ≤ c ≤ 57
             ∨ (c = 45 ∧ ∃ d s'', s' = d :: s'' ∧ 48 ≤ d ≤ 57)).
Proof.
  assert (∀ c, (c =? 48) = true ∨ is_digit c = true → 48 ≤ c ≤ 57) as Hd.
  { unfold is_digit. intros c [H%N.eqb_eq|H]; [lia|].
    apply andb_true_iff in H as [?%N.leb_le ?%N.leb_le]. lia. }
  unfold match_integer. destruct s as [|c s']; [done|].
  destruct (N.eqb_spec c 45) as [->|Hc].
  - destruct s' as [|d s'']; [done|]. intros H. exists 45, (d :: s'').
    split; [done|]. right. split; [done|]. exists d, s''. split; [done|].
    apply Hd. destruct (d =? 48); [by left|].
    destruct (is_digit d); [by right|done].
  - intros H. exists c, s'. split; [done|]. left.
    apply Hd. destruct (c =? 48); [by left|].
    destruct (is_digit c); [by right|done].
Qed.

Lemma scan_once_number pf fuel s v r :
  match_number pf s = Some (v, r) → scan_once pf (S fuel) s = Ok (v, r).
Proof.
  intros Hm. assert (∃ lit r', match_integer s = Some (lit, r')) as (lit&r'&Hi).
  { unfold match_number in Hm.
    destruct (match_integer s) as [[lit r']|]; [eauto|done]. }
  apply match_integer_head in Hi as (c&s'&->&[Hc|(->&d&s''&->&Hd)]).
  - cbn [scan_once]. py_eval. cbn [strip_prefix].
    repeat match goal with
           | |- context [N.eqb ?a ?b] =>
               rewrite (proj2 (N.eqb_neq a b)) by lia
           end.
    by rewrite Hm.
  - cbn [scan_once]. py_eval. cbn [strip_prefix].
    rewrite (proj2 (N.eqb_neq 73 d)) by lia. rewrite N.eqb_refl.
    repeat match goal with
           | |- context [N.eqb ?a ?b] =>
               rewrite (proj2 (N.eqb_neq a b)) by lia
           end.
    by rewrite Hm.
Qed.

(** *** Documents *)

Lemma skip_ws_app w s :
  Forall (λ c, is_ws c = true) w → skip_ws (w ++ s) = skip_ws s.
Proof. induction 1 as [|c w Hc _ IH]; [done|]. simpl. by rewrite Hc. Qed.

Lemma skip_ws_head c s : is_ws c = false → skip_ws (c :: s) = c :: s.
Proof. intros H. simpl. by rewrite H. Qed.

Lemma starts_not_ws o c : starts o c → is_ws c = false.
Proof.
  unfold is_ws. intros H.
  assert (c ≠ 32 ∧ c ≠ 9 ∧ c ≠ 10 ∧ c ≠ 13) as (?&?&?&?)
    by (destruct o as [|[]| | | | |]; simpl in H; lia).
  by rewrite !(proj2 (N.eqb_neq c _)).
Qed.

Lemma float_read_back_head pf r :
  float_read_back pf r = true →
  ∃ c t, r = c :: t ∧ (48 ≤ c ≤ 57 ∨ c = 45 ∨ c = 78 ∨ c = 73).
Proof.
  unfold float_read_back. rewrite orb_true_iff. intros [H|H].
  - apply bool_decide_eq_true in H. py_eval.
    destruct H as [->|[->| ->]]; do 2 eexists; (split; [done|lia]).
  - destruct (match_number pf r) as [[v rest]|] eqn:Hm; [|done].
    unfold match_number in Hm.
    destruct (match_integer r) as [[lit r']|] eqn:Hi; [|done].
    apply match_integer_head in Hi as (c&s'&->&[Hc|(->&_)]);
      do 2 eexists; (split; [done|lia]).
Qed.

Lemma dict_set_fresh d k v : k ∉ d.*1 → dict_set d k v = d ++ [(k, v)].
Proof.
  induction d as [|[k' v'] d IH]; [done|]. cbn [fmap list_fmap fst].
  intros [Hne Hnin]%not_elem_of_cons. cbn [dict_set app].
  destruct (decide (k' = k)) as [->|_]; [done|]. by rewrite IH.
Qed.

Lemma join_cons_cons sep (c c' : pystr) cs r :
  join sep (c :: c' :: cs) ++ r = c ++ sep ++ join sep (c' :: cs) ++ r.
Proof. by rewrite join_cons_app. Qed.

Lemma join_singleton sep (c : pystr) r : join sep [c] ++ r = c ++ r.
Proof. done. Qed.

Lemma reads_no_fuel {X} (v : X) rest : reads (Raise RecursionError) v rest.
Proof. by right. Qed.

Section encoder_shape.
Context (pf : pystr → pystr) (ea : bool).
Context (indent : option pystr) (item_sep key_sep : pystr).

Local Abbreviation nl := (newline_indent indent).

Lemma newline_indent_ws level :
  match indent with
  | Some i => Forall (λ c, is_ws c = true) i
  | None => True
  end →
  Forall (λ c, is_ws c = true) (nl level).
Proof.
  unfold newline_indent. destruct indent as [i|]; [|constructor].
  intros Hi. constructor; [done|]. induction level as [|n IH]; [constructor|].
  cbn [replicate concat]. by apply Forall_app.
Qed.

Lemma make_iterencode_list sk level l r :
  l ≠ [] →
  make_iterencode ea sk indent item_sep key_sep level (JList l) ++ r
  = 91 :: nl (S level)
       ++ join (item_sep ++ nl (S level))
               (map (make_iterencode ea sk indent item_sep key_sep (S level)) l)
       ++ nl level ++ 93 :: r.
Proof.
  intros Hl. cbn [make_iterencode].
  rewrite bool_decide_eq_false_2 by done. py_eval.
  by rewrite <-!app_assoc.
Qed.

Lemma make_iterencode_dict level d r :
  d ≠ [] →
  make_iterencode ea false indent item_sep key_sep level (JDict d) ++ r
  = 123 :: nl (S level)
        ++ join (item_sep ++ nl (S level))
             (map (λ kv, encoder ea kv.1 ++ key_sep
                         ++ make_iterencode ea false indent item_sep key_sep
                              (S level) kv.2) d)
        ++ nl level ++ 125 :: r.
Proof.
  intros Hd. cbn [make_iterencode].
  rewrite bool_decide_eq_false_2 by done. py_eval.
  rewrite map_map, <-!app_assoc. done.
Qed.

Lemma make_iterencode_head sk level o :
  floats_read_back pf o = true →
  ∃ c t, make_iterencode ea sk indent item_sep key_sep level o = c :: t
         ∧ starts o c.
Proof.
  destruct o as [|[]|z|r|s|l|d]; intros Hok.
  1-3: by do 2 eexists.
  - apply int_repr_head.
  - by apply float_read_back_head in Hok.
  - cbn [make_iterencode]. unfold encoder, encode_basestring_ascii,
      encode_basestring. destruct ea; by do 2 eexists.
  - cbn [make_iterencode]. destruct (bool_decide (l = [])); by do 2 eexists.
  - cbn [make_iterencode]. destruct (bool_decide (d = [])); by do 2 eexists.
Qed.
End encoder_shape.

Section read_back.
Context (pf : pystr → pystr).
Context (indent : option pystr) (item_sep key_sep : pystr).

(** The indent is white space, the item separator a comma and white space,
    the key separator a colon in white space. *)
Hypothesis indent_ws :
  match indent with
  | Some i => Forall (λ c, is_ws c = true) i
  | None => True
  end.
Hypothesis item_sep_comma :
  ∃ w, item_sep = 44 :: w ∧ Forall (λ c, is_ws c = true) w.
Hypothesis key_sep_colon :
  ∃ w1 w2, key_sep = w1 ++ 58 :: w2
           ∧ Forall (λ c, is_ws c = true) w1
           ∧ Forall (λ c, is_ws c = true) w2.

Local Abbreviation E := (make_iterencode false false indent item_sep key_sep).
Local Abbreviation nl := (newline_indent indent).

Lemma value_end_close level c rest :
  c = 93 ∨ c = 125 → value_end (nl level ++ c :: rest).
Proof.
  intros Hc. pose proof (newline_indent_ws indent level indent_ws) as Hw.
  destruct (nl level) as [|x w]; simpl; [lia|].
  apply Forall_cons_1 in Hw as [Hx _]. by left.
Qed.

Lemma value_end_item_sep s : value_end (item_sep ++ s).
Proof. destruct item_sep_comma as (w&Hw&_). rewrite Hw. simpl. lia. Qed.

Lemma skip_ws_close level c rest :
  c = 93 ∨ c = 125 → skip_ws (nl level ++ c :: rest) = c :: rest.
Proof.
  intros Hc. rewrite skip_ws_app by (by apply newline_indent_ws).
  apply skip_ws_head. unfold is_ws.
  by rewrite !(proj2 (N.eqb_neq c _)) by lia.
Qed.

(** The premise on the elements of a list or the values of a dict: each is
    read back, whatever follows it. *)
Local Abbreviation read_back_at v :=
  (floats_read_back pf v = true
   ∧ ∀ level rest fuel,
       value_end rest → reads (scan_once pf fuel (E level v ++ rest)) v rest).

Lemma skip_ws_value level v s :
  floats_read_back pf v = true → skip_ws (E level v ++ s) = E level v ++ s.
Proof.
  intros Hv. destruct (make_iterencode_head pf false indent item_sep key_sep false level v Hv) as (c&t&->&Hc).
  apply skip_ws_head. by eapply starts_not_ws.
Qed.

Lemma parse_array_reads level rest l :
  Forall (λ v, read_back_at v) l → l ≠ [] →
  ∀ fuel acc,
    reads (parse_array pf fuel
             (join (item_sep ++ nl (S level)) (map (E (S level)) l)
              ++ nl level ++ 93 :: rest) acc)
          (JList (acc ++ l)) rest.
Proof.
  intros Hl. induction Hl as [|x l [Hfx Hx] Hl IH]; [done|]. intros _.
  intros [|fuel] acc; [apply reads_no_fuel|].
  destruct l as [|y l'].
  - cbn [map]. rewrite join_singleton. cbn [parse_array].
    destruct (Hx (S level) (nl level ++ 93 :: rest) fuel
                (value_end_close level 93 rest ltac:(auto)))
      as [-> | ->]; [|apply reads_no_fuel].
    rewrite (skip_ws_close level 93 rest) by auto.
    cbn [N.eqb Pos.eqb]. by left.
  - cbn [map]. rewrite join_cons_cons. cbn [parse_array].
    set (more := join _ _ ++ nl level ++ 93 :: rest).
    rewrite <-(app_assoc item_sep).
    destruct (Hx (S level) (item_sep ++ nl (S level) ++ more) fuel
                (value_end_item_sep _)) as [-> | ->]; [|apply reads_no_fuel].
    destruct item_sep_comma as (w&Hw0&Hw). rewrite Hw0 at 1. cbn [app].
    rewrite skip_ws_head by done. cbn [N.eqb Pos.eqb].
    rewrite skip_ws_app by done.
    rewrite skip_ws_app by (by apply newline_indent_ws).
    assert (skip_ws more = more) as ->.
    { unfold more. rewrite join_cons_app.
      apply Forall_cons_1 in Hl as [[Hfy _] _]. by apply skip_ws_value. }
    specialize (IH ltac:(done) fuel (acc ++ [x])).
    by rewrite <-app_assoc in IH.
Qed.

Lemma parse_object_reads level rest d :
  Forall (λ kv, read_back_at kv.2) d → d ≠ [] →
  ∀ fuel pairs,
    NoDup (pairs.*1 ++ d.*1) →
    reads (parse_object pf fuel
             (join (item_sep ++ nl (S level))
                   (map (λ kv, encoder false kv.1 ++ key_sep
                               ++ E (S level) kv.2) d)
              ++ nl level ++ 125 :: rest) pairs)
          (JDict (pairs ++ d)) rest.
Proof.
  intros Hd. induction Hd as [|[k v] d [Hfv Hv] Hd IH]; [done|]. intros _.
  intros [|fuel] pairs Hnd; [apply reads_no_fuel|].
  assert (k ∉ pairs.*1) as Hk.
  { cbn [fmap list_fmap fst] in Hnd. apply NoDup_app in Hnd as (_&Hnd&_).
    intros Hin. apply (Hnd k Hin). left. }
  assert (NoDup ((pairs ++ [(k, v)]).*1 ++ d.*1)) as Hnd'.
  { rewrite fmap_app, <-app_assoc. done. }
  destruct key_sep_colon as (w1&w2&Hks&Hw1&Hw2).
  cbn [fst snd] in *.
  destruct d as [|kv' d'].
  - cbn [map fst snd]. rewrite join_singleton.
    unfold encoder at 1, encode_basestring. cbn [parse_object app].
    cbn [N.eqb Pos.eqb]. rewrite <-!app_assoc. cbn [app].
    rewrite scanstring_encoded. rewrite Hks at 1.
    rewrite <-!app_assoc. cbn [app].
    rewrite skip_ws_app, skip_ws_head by done. cbn [N.eqb Pos.eqb].
    rewrite skip_ws_app by done.
    rewrite skip_ws_value by done.
    destruct (Hv (S level) (nl level ++ 125 :: rest) fuel
                (value_end_close level 125 rest ltac:(auto)))
      as [-> | ->]; [|apply reads_no_fuel].
    rewrite (skip_ws_close level 125 rest) by auto.
    cbn [N.eqb Pos.eqb]. rewrite dict_set_fresh by done. by left.
  - cbn [map fst snd]. rewrite join_cons_cons.
    set (more := join _ _ ++ nl level ++ 125 :: rest).
    unfold encoder at 1, encode_basestring. cbn [parse_object app].
    cbn [N.eqb Pos.eqb]. rewrite <-!app_assoc. cbn [app].
    rewrite scanstring_encoded. rewrite Hks at 1.
    rewrite <-!app_assoc. cbn [app].
    rewrite skip_ws_app, skip_ws_head by done. cbn [N.eqb Pos.eqb].
    rewrite skip_ws_app by done.
    rewrite skip_ws_value by done.
    destruct (Hv (S level) (item_sep ++ nl (S level) ++ more) fuel
                (value_end_item_sep _)) as [-> | ->]; [|apply reads_no_fuel].
    destruct item_sep_comma as (w&Hw0&Hw). rewrite Hw0 at 1. cbn [app].
    rewrite skip_ws_head by done. cbn [N.eqb Pos.eqb].
    rewrite skip_ws_app by done.
    rewrite skip_ws_app by (by apply newline_indent_ws).
    assert (skip_ws more = more) as ->.
    { unfold more. rewrite join_cons_app.
      unfold encoder at 1, encode_basestring. done. }
    rewrite dict_set_fresh by done.
    specialize (IH ltac:(done) fuel (pairs ++ [(k, v)]) Hnd').
    by rewrite <-app_assoc in IH.
Qed.

Lemma scan_once_reads v :
  keys_distinct v = true → floats_read_back pf v = true →
  ∀ level rest fuel,
    value_end rest → reads (scan_once pf fuel (E level v ++ rest)) v rest.
Proof.
  induction v as [|b|z|r|s|l IH|d IH] using json_ind';
    intros Hk Hf level rest [|fuel] Hrest; try apply reads_no_fuel.
  - by left.
  - destruct b; by left.
  - left. apply scan_once_number.
    exact (match_number_app pf (int_repr z) (JInt z) [] rest
             (match_number_int pf z) Hrest).
  - left. cbn [make_iterencode]. cbn [floats_read_back] in Hf.
    unfold float_read_back in Hf. apply orb_true_iff in Hf as [Hf|Hf].
    + apply bool_decide_eq_true in Hf. destruct Hf as [->|[->| ->]]; done.
    + destruct (match_number pf r) as [[[] [|]]|] eqn:Hm; try done.
      apply bool_decide_eq_true in Hf. subst.
      apply scan_once_number.
      exact (match_number_app pf r (JFloat r) [] rest Hm Hrest).
  - left. cbn [make_iterencode]. unfold encoder, encode_basestring.
    cbn [scan_once app]. cbn [N.eqb Pos.eqb]. rewrite <-app_assoc.
    cbn [app]. by rewrite scanstring_encoded.
  - destruct l as [|x l]; [by left|].
    rewrite (make_iterencode_list false indent item_sep key_sep false level (x :: l) rest) by done.
    cbn [scan_once]. cbn [N.eqb Pos.eqb].
    rewrite skip_ws_app by (by apply newline_indent_ws).
    apply keys_distinct_list in Hk. cbn [floats_read_back] in Hf.
    apply forallb_Forall in Hf.
    assert (Forall (λ v, read_back_at v) (x :: l)) as Hall.
    { apply Forall_forall. intros v Hv. rewrite !Forall_forall in *.
      split; [by apply Hf|]. apply IH; auto. }
    cbn [map]. rewrite join_cons_app.
    pose proof (Forall_inv Hf) as Hfx. cbn beta in Hfx.
    rewrite skip_ws_value by done.
    destruct (make_iterencode_head pf false indent item_sep key_sep false (S level) x Hfx) as (c&t&Hc&Hs).
    rewrite Hc. cbn [app].
    rewrite (proj2 (N.eqb_neq c 93)) by (apply starts_not_delim in Hs; lia).
    match goal with
    | |- context [c :: t ++ ?X] => change (c :: t ++ X) with ((c :: t) ++ X)
    end.
    rewrite <-Hc.
    pose proof (parse_array_reads level rest (x :: l) Hall ltac:(done)
                  fuel []) as Hp.
    cbn [map] in Hp. rewrite join_cons_app in Hp. exact Hp.
  - destruct d as [|[k v] d]; [by left|].
    rewrite (make_iterencode_dict false indent item_sep key_sep level ((k, v) :: d) rest) by done.
    cbn [scan_once]. cbn [N.eqb Pos.eqb].
    rewrite skip_ws_app by (by apply newline_indent_ws).
    apply keys_distinct_dict in Hk as [Hnd Hk].
    cbn [floats_read_back] in Hf. apply forallb_Forall in Hf.
    assert (Forall (λ kv, read_back_at kv.2) ((k, v) :: d)) as Hall.
    { apply Forall_forall. intros kv Hkv. rewrite !Forall_forall in *.
      split; [by apply Hf|]. apply IH; auto. }
    pose proof (parse_object_reads level rest ((k, v) :: d) Hall ltac:(done)
                  fuel [] Hnd) as Hp.
    cbn [map fst snd] in *. rewrite join_cons_app in *.
    unfold encoder at 1, encode_basestring in Hp.
    unfold encoder at 1, encode_basestring. cbn [app] in *.
    cbn [skip_ws is_ws N.eqb Pos.eqb orb].
    exact Hp.
Qed.
End read_back.

Lemma json_loads_no_bom pf c t :
  c ≠ 65279 →
  json_loads pf (c :: t)
  = match scan_once pf (2 * length (c :: t) + 2) (skip_ws (c :: t)) with
    | Raise e => Raise e
    | Ok (obj, rest) =>
        match skip_ws rest with
        | [] => Ok obj
        | _ :: _ => Raise JSONDecodeError
        end
    end.
Proof.
  intros Hc. unfold json_loads. destruct c as [|p]; [done|].
  repeat (destruct p as [p|p|]; try reflexivity); try done.
Qed.

Lemma json_loads_encoded pf indent item_sep key_sep level v :
  match indent with
  | Some i => Forall (λ c, is_ws c = true) i
  | None => True
  end →
  (∃ w, item_sep = 44 :: w ∧ Forall (λ c, is_ws c = true) w) →
  (∃ w1 w2, key_sep = w1 ++ 58 :: w2
            ∧ Forall (λ c, is_ws c = true) w1
            ∧ Forall (λ c, is_ws c = true) w2) →
  keys_distinct v = true → floats_read_back pf v = true →
  json_loads pf (make_iterencode false false indent item_sep key_sep level v)
  = Ok v.
Proof.
  intros Hi Hs Hk Hkd Hf.
  set (s := make_iterencode false false indent item_sep key_sep level v).
  destruct (make_iterencode_head pf false indent item_sep key_sep false
              level v Hf) as (c&t&Hc&Hst). fold s in Hc.
  pose proof (starts_not_ws _ _ Hst) as Hws.
  assert (c ≠ 65279) as Hbom by (destruct v as [|[]| | | | |]; simpl in Hst; lia).
  pose proof (scan_once_reads pf indent item_sep key_sep Hi Hs Hk v Hkd Hf
                level [] (2 * length s + 2) I) as Hr.
  rewrite app_nil_r in Hr. fold s in Hr.
  pose proof (proj1 (scanner_fuel pf (2 * length s + 2)) s ltac:(lia)) as Hadv.
  rewrite Hc, json_loads_no_bom, skip_ws_head, <-Hc by done.
  destruct Hr as [-> | Hr]; [done|by rewrite Hr in Hadv].
Qed.

Lemma keys_distinct_sort_keys_of o :
  keys_distinct o = true → keys_distinct (sort_keys_of o) = true.
Proof.
  induction o as [| | | | |l IH|d IH] using json_ind'; try done.
  - rewrite !keys_distinct_list. cbn [sort_keys_of].
    rewrite keys_distinct_list.
    intros Hl. change (map sort_keys_of l) with (sort_keys_of <$> l).
    rewrite Forall_fmap. exact (Forall_mp _ _ _ IH Hl).
  - rewrite keys_distinct_dict. cbn [sort_keys_of].
    rewrite keys_distinct_dict. intros [Hnd Hd]. split.
    + rewrite sorted_items_perm. change (map ?f d) with (f <$> d).
      by rewrite <-list_fmap_compose.
    + rewrite sorted_items_perm. change (map ?f d) with (f <$> d).
      rewrite Forall_fmap. exact (Forall_mp _ _ _ IH Hd).
Qed.

Lemma floats_read_back_sort_keys_of pf o :
  floats_read_back pf o = true → floats_read_back pf (sort_keys_of o) = true.
Proof.
  induction o as [| | | | |l IH|d IH] using json_ind'; try done.
  - cbn [sort_keys_of floats_read_back]. rewrite !forallb_Forall.
    intros Hl. change (map sort_keys_of l) with (sort_keys_of <$> l).
    rewrite Forall_fmap. exact (Forall_mp _ _ _ IH Hl).
  - cbn [sort_keys_of floats_read_back]. rewrite !forallb_Forall.
    intros Hd. rewrite sorted_items_perm.
    change (map ?f d) with (f <$> d).
    rewrite Forall_fmap. exact (Forall_mp _ _ _ IH Hd).
Qed.

Lemma sort_keys_of_idemp o :
  keys_distinct o = true → sort_keys_of (sort_keys_of o) = sort_keys_of o.
Proof.
  induction o as [| | | | |l IH|d IH] using json_ind'; try done.
  - rewrite keys_distinct_list. intros Hl. cbn [sort_keys_of]. f_equal.
    rewrite map_map. apply map_ext_Forall. exact (Forall_mp _ _ _ IH Hl).
  - rewrite keys_distinct_dict. intros [Hnd Hd]. cbn [sort_keys_of]. f_equal.
    set (M := map (λ kv : pystr * json, (kv.1, sort_keys_of kv.2))).
    assert (∀ l, sorted_items (M l) = M (sorted_items l)) as HM
      by apply (sorted_items_map sort_keys_of).
    rewrite (HM (sorted_items (M d))).
    rewrite (sorted_items_unique (sorted_items (M d)) (M d)).
    + rewrite (HM d). unfold M. rewrite map_map. apply map_ext_Forall.
      rewrite sorted_items_perm.
      eapply Forall_impl; [exact (Forall_mp _ _ _ IH Hd)|].
      intros [k v] Hv. cbn [fst snd] in *. by rewrite Hv.
    + rewrite sorted_items_perm. unfold M. change (map ?f d) with (f <$> d).
      by rewrite <-list_fmap_compose.
    + apply sorted_items_perm.
Qed.

Lemma iterencode_make ea sk level o :
  iterencode ea sk o = make_iterencode ea sk None (py ", ") (py ": ") level o.
Proof.
  revert level. induction o as [| | | | |l IH|d IH] using json_ind';
    intros level; try done.
  - cbn [iterencode make_iterencode]. case_bool_decide; [done|].
    unfold newline_indent, item_separator. rewrite !app_nil_r. cbn [app].
    do 3 f_equal. apply map_ext_Forall.
    eapply Forall_impl; [exact IH|]. intros v Hv. apply Hv.
  - cbn [iterencode make_iterencode]. case_bool_decide; [done|].
    unfold newline_indent, item_separator, key_separator.
    rewrite !app_nil_r. cbn [app].
    assert (map (λ kv : pystr * json, (kv.1, iterencode ea sk kv.2)) d
            = map (λ kv, (kv.1, make_iterencode ea sk None (py ", ")
                                  (py ": ") (S level) kv.2)) d) as ->; [|done].
    apply map_ext_Forall.
    eapply Forall_impl; [exact IH|]. intros [k v] Hv. cbn [fst snd] in *.
    by rewrite (Hv (S level)).
Qed.

(** ** The canonical key and the output file are JSON documents *)

Lemma json_loads_normalize_site pf v :
  keys_distinct v = true → floats_read_back pf v = true →
  json_loads pf (normalize_site v) = Ok (sort_keys_of v).
Proof.
  intros Hk Hf. unfold normalize_site, json_dumps.
  rewrite iterencode_sorted, (iterencode_make false false 0).
  apply json_loads_encoded.
  - done.
  - exists [32]. split; [done|]. by repeat constructor.
  - exists [], [32]. split; [done|]. split; by repeat constructor.
  - by apply keys_distinct_sort_keys_of.
  - by apply floats_read_back_sort_keys_of.
Qed.

Lemma normalize_site_sort_keys_of v :
  keys_distinct v = true →
  normalize_site (sort_keys_of v) = normalize_site v.
Proof.
  intros Hk. unfold normalize_site, json_dumps.
  by rewrite !iterencode_sorted, sort_keys_of_idemp.
Qed.

Lemma json_loads_json_dump pf n v :
  keys_distinct v = true → floats_read_back pf v = true →
  json_loads pf (json_dump false n v) = Ok v.
Proof.
  intros Hk Hf. unfold json_dump. apply json_loads_encoded; try done.
  - by apply Forall_replicate.
  - exists []. split; [done|]. constructor.
  - exists [], [32]. split; [done|]. split; by repeat constructor.
Qed.

(** The canonical key of a site is a JSON document: [json.loads] reads it
    back as the site with the items of every dict in key order, and that
    value has the same key.  (For a site whose dicts have distinct keys and
    whose floats are read back as they are.) *)
Theorem normalize_site_reads_back (parse_float : pystr → pystr) (s : json) :
  site_ok parse_float s = true →
  json_loads parse_float (normalize_site s) = Ok (sort_keys_of s)
  ∧ normalize_site (sort_keys_of s) = normalize_site s.
Proof.
  unfold site_ok. intros [Hk Hf]%andb_true_iff. split.
  - by apply json_loads_normalize_site.
  - by apply normalize_site_sort_keys_of.
Qed.

Lemma normalize_site_reads_back_witness :
  site_ok id site_rate = true
  ∧ json_loads id (normalize_site site_rate) = Ok site_rate_sorted.
Proof.
  split; [reflexivity|].
  exact (proj1 (normalize_site_reads_back id site_rate eq_refl)).
Defined.

Lemma out_of_site_ok pf merged :
  Forall (λ s, site_ok pf s = true) merged →
  keys_distinct (out_of merged) = true
  ∧ floats_read_back pf (out_of merged) = true.
Proof.
  intros Hall. split.
  - apply keys_distinct_dict. split; [apply NoDup_singleton|].
    repeat constructor. apply keys_distinct_list.
    eapply Forall_impl; [exact Hall|]. unfold site_ok.
    by intros s [? _]%andb_true_iff.
  - cbn [out_of floats_read_back forallb snd]. rewrite andb_true_r.
    apply forallb_Forall.
    eapply Forall_impl; [exact Hall|]. unfold site_ok.
    by intros s [_ ?]%andb_true_iff.
Qed.

Lemma json_loads_output pf merged :
  Forall (λ s, site_ok pf s = true) merged →
  json_loads pf (json_dump false 2 (out_of merged)) = Ok (out_of merged).
Proof.
  intros [Hk Hf]%out_of_site_ok. by apply json_loads_json_dump.
Qed.

Lemma extract_output pf merged :
  Forall (λ s, site_ok pf s = true) merged →
  extract_sites_from_text pf (json_dump false 2 (out_of merged)) = Ok merged.
Proof.
  intros Hall. unfold extract_sites_from_text, strict_parse.
  by rewrite (json_loads_output pf merged Hall).
Qed.

(** The output file is not misread: whenever [json.loads] decodes the text
    [json.dump] writes for [{"sites": merged}] with an indent of two
    spaces, it gives that object and nothing else, and
    [extract_sites_from_text] then returns [merged] from the text.  (For
    sites whose dicts have distinct keys and whose floats are read back as
    they are.  That the text decodes is a premise: the interpreter refuses
    a text nested deeper than its recursion limit.) *)
Theorem output_file_is_not_misread
  (parse_float : pystr → pystr) (merged : list json) (v : json) :
  Forall (λ s, site_ok parse_float s = true) merged →
  let text := json_dump false 2 (out_of merged) in
  json_loads parse_float text = Ok v →
  v = out_of merged
  ∧ extract_sites_from_text parse_float text = Ok merged.
Proof.
  intros Hall text Hv. split.
  - subst text. rewrite (json_loads_output parse_float merged Hall) in Hv.
    by injection Hv.
  - by apply extract_output.
Qed.

Lemma output_file_is_not_misread_witness :
  Forall (λ s, site_ok id s = true) [site_rate; site_ab]
  ∧ json_loads id (json_dump false 2 (out_of [site_rate; site_ab]))
    = Ok (out_of [site_rate; site_ab])
  ∧ extract_sites_from_text id (json_dump false 2 (out_of [site_rate; site_ab]))
    = Ok [site_rate; site_ab].
Proof.
  assert (Forall (λ s, site_ok id s = true) [site_rate; site_ab]) as Hall
    by (by repeat constructor).
  assert (json_loads id (json_dump false 2 (out_of [site_rate; site_ab]))
          = Ok (out_of [site_rate; site_ab])) as Hv by (by vm_compute).
  split; [exact Hall|]. split; [exact Hv|].
  exact (proj2 (output_file_is_not_misread id [site_rate; site_ab] _ Hall Hv)).
Defined.

(** ** What the decoder builds can be written and read back *)

Lemma floats_read_back_list pf l :
  floats_read_back pf (JList l) = true
  ↔ Forall (λ x, floats_read_back pf x = true) l.
Proof. cbn [floats_read_back]. apply forallb_Forall. Qed.

Lemma floats_read_back_dict pf d :
  floats_read_back pf (JDict d) = true
  ↔ Forall (λ kv, floats_read_back pf kv.2 = true) d.
Proof. cbn [floats_read_back]. apply forallb_Forall. Qed.

Lemma dict_set_read_back pf d k v :
  floats_read_back pf (JDict d) = true → floats_read_back pf v = true →
  floats_read_back pf (JDict (dict_set d k v)) = true.
Proof.
  rewrite !floats_read_back_dict. intros Hall Hv.
  induction Hall as [|[k0 v0] d H0 Hd IH]; simpl.
  - by repeat constructor.
  - destruct (decide (k0 = k)); constructor; done.
Qed.

Lemma match_number_read_back pf s v r :
  (∀ lit, float_read_back pf (pf lit) = true) →
  match_number pf s = Some (v, r) → floats_read_back pf v = true.
Proof.
  intros Hpf. unfold match_number.
  repeat case_match; intros; simplify_eq; [done|]. apply Hpf.
Qed.

Lemma scanner_read_back pf fuel :
  (∀ lit, float_read_back pf (pf lit) = true) →
  (∀ s v r, scan_once pf fuel s = Ok (v, r) → floats_read_back pf v = true)
  ∧ (∀ s values v r,
       floats_read_back pf (JList values) = true →
       parse_array pf fuel s values = Ok (v, r) →
       floats_read_back pf v = true)
  ∧ (∀ s pairs v r,
       floats_read_back pf (JDict pairs) = true →
       parse_object pf fuel s pairs = Ok (v, r) →
       floats_read_back pf v = true).
Proof.
  intros Hpf. induction fuel as [|fuel (IHs&IHa&IHo)]; [done|].
  split; [|split].
  - intros s v r. cbn [scan_once].
    repeat case_match; intros; simplify_eq; try done;
      first [ by (eapply IHa; [|eassumption])
            | by (eapply IHo; [|eassumption])
            | by eapply match_number_read_back ].
  - intros s values v r Hvalues. cbn [parse_array].
    destruct (scan_once pf fuel s) as [[value s1]|e] eqn:Hscan; [|done].
    apply IHs in Hscan.
    assert (floats_read_back pf (JList (values ++ [value])) = true)
      as Hvalues'.
    { apply floats_read_back_list, Forall_app.
      split; [by apply floats_read_back_list|]. by repeat constructor. }
    repeat case_match; intros; simplify_eq;
      [done|by (eapply IHa; [|eassumption])].
  - intros s pairs v r Hpairs. cbn [parse_object].
    repeat case_match; intros; simplify_eq;
      match goal with
      | H : scan_once _ _ _ = Ok _ |- _ => apply IHs in H
      end;
      [by apply dict_set_read_back
      |eapply IHo; [|eassumption]; by apply dict_set_read_back].
Qed.

Lemma scanner_keys_distinct pf fuel :
  (∀ s v r, scan_once pf fuel s = Ok (v, r) → keys_distinct v = true)
  ∧ (∀ s values v r,
       keys_distinct (JList values) = true →
       parse_array pf fuel s values = Ok (v, r) → keys_distinct v = true)
  ∧ (∀ s pairs v r,
       keys_distinct (JDict pairs) = true →
       parse_object pf fuel s pairs = Ok (v, r) → keys_distinct v = true).
Proof.
  assert (∀ d k v, keys_distinct (JDict d) = true → keys_distinct v = true →
                   keys_distinct (JDict (dict_set d k v)) = true) as Hset.
  { intros d k v. rewrite !keys_distinct_dict. intros [Hnd Hall] Hv.
    split; [by apply dict_set_keys|].
    clear Hnd. induction Hall as [|[k0 v0] d H0 Hd IH]; simpl.
    - by repeat constructor.
    - destruct (decide (k0 = k)); constructor; done. }
  induction fuel as [|fuel (IHs&IHa&IHo)]; [done|].
  split; [|split].
  - intros s v r. cbn [scan_once]. unfold match_number.
    repeat case_match; intros; simplify_eq; try done;
      first [ by (eapply IHa; [|eassumption])
            | by (eapply IHo; [|eassumption]) ].
  - intros s values v r Hvalues. cbn [parse_array].
    destruct (scan_once pf fuel s) as [[value s1]|e] eqn:Hscan; [|done].
    apply IHs in Hscan.
    assert (keys_distinct (JList (values ++ [value])) = true) as Hvalues'.
    { apply keys_distinct_list, Forall_app.
      split; [by apply keys_distinct_list|]. by repeat constructor. }
    repeat case_match; intros; simplify_eq;
      [done|by (eapply IHa; [|eassumption])].
  - intros s pairs v r Hpairs. cbn [parse_object].
    repeat case_match; intros; simplify_eq;
      match goal with
      | H : scan_once _ _ _ = Ok _ |- _ => apply IHs in H
      end;
      [by apply Hset|eapply IHo; [|eassumption]; by apply Hset].
Qed.

Lemma json_loads_site_ok pf text v :
  (∀ lit, float_read_back pf (pf lit) = true) →
  json_loads pf text = Ok v → site_ok pf v = true.
Proof.
  intros Hpf. unfold json_loads, site_ok.
  repeat case_match; intros; simplify_eq; apply andb_true_iff; split;
    first [ by eapply (proj1 (scanner_keys_distinct pf _))
          | by eapply (proj1 (scanner_read_back pf _ Hpf)) ].
Qed.

Lemma match_number_parse_float pf s v r :
  match_number id s = Some (v, r) →
  match_number pf s
  = Some (match v with JFloat lit => JFloat (pf lit) | _ => v end, r).
Proof.
  unfold match_number. repeat case_match; intros; by simplify_eq.
Qed.

Lemma demo_parse_float_read_back lit :
  float_read_back demo_parse_float (demo_parse_float lit) = true.
Proof.
  unfold demo_parse_float at 2.
  destruct (float_read_back id lit) eqn:Hlit; [|reflexivity].
  pose proof Hlit as Hkeep.
  unfold float_read_back in Hlit |- *. apply orb_true_iff in Hlit as [Hc|Hn].
  { by rewrite Hc. }
  apply orb_true_iff. right.
  destruct (match_number id lit) as [[[| | |r'| | |] [|]]|] eqn:Hm; try done.
  apply bool_decide_eq_true in Hn. subst r'.
  rewrite (match_number_parse_float demo_parse_float _ _ _ Hm).
  apply bool_decide_eq_true. unfold demo_parse_float. by rewrite Hkeep.
Qed.

(** Whatever [json.loads] decodes can be written and read back: the text
    [json.dump] writes for it with an indent of two spaces decodes to the
    same value, and its canonical key decodes to it with the items of every
    dict in key order.  (For a [parse_float] whose floats are read back as
    they are, as [repr] ensures.) *)
Theorem decoded_value_reads_back
  (parse_float : pystr → pystr) (text : pystr) (v : json) :
  (∀ lit, float_read_back parse_float (parse_float lit) = true) →
  json_loads parse_float text = Ok v →
  json_loads parse_float (json_dump false 2 v) = Ok v
  ∧ json_loads parse_float (normalize_site v) = Ok (sort_keys_of v).
Proof.
  intros Hpf Hv.
  apply (json_loads_site_ok _ _ _ Hpf), andb_true_iff in Hv as [Hk Hf].
  split.
  - by apply json_loads_json_dump.
  - by apply json_loads_normalize_site.
Qed.

Lemma decoded_value_reads_back_witness :
  let v := JList [JDict [(py "rate", JFloat (py "1.5"));
                         (py "n", JInt (-2))];
                  JFloat (py "7.0")] in
  json_loads demo_parse_float text_rate = Ok v
  ∧ json_loads demo_parse_float (json_dump false 2 v) = Ok v.
Proof.
  intros v.
  assert (json_loads demo_parse_float text_rate = Ok v) as Hv
    by (by vm_compute).
  split; [exact Hv|].
  exact (proj1 (decoded_value_reads_back demo_parse_float text_rate v
                  demo_parse_float_read_back Hv)).
Defined.

(** ** What the sites pattern captures *)

Lemma search_sound r s m :
  Re.search r s = Some m → ∃ pre post, s = pre ++ post ∧ Re.match_at r post = Some m.
Proof.
  induction s as [|c s IH]; cbn [Re.search].
  - destruct (Re.match_at r []) eqn:Hm; [|done].
    intros [= ->]. by exists [], [].
  - destruct (Re.match_at r (c :: s)) eqn:Hm.
    + intros [= ->]. by exists [], (c :: s).
    + intros (pre&post&->&H)%IH. by exists (c :: pre), post.
Qed.

Lemma search_leftmost r s m :
  Re.search r s = Some m →
  ∃ pre post, s = pre ++ post ∧ Re.match_at r post = Some m
              ∧ ∀ a b, pre = a ++ b → b ≠ [] →
                       Re.match_at r (b ++ post) = None.
Proof.
  induction s as [|c s IH]; cbn [Re.search].
  - destruct (Re.match_at r []) eqn:Hm; [|done].
    intros [= ->]. exists [], []. repeat split; try done.
    intros a b Hab Hb. by destruct a, b.
  - destruct (Re.match_at r (c :: s)) eqn:Hm.
    + intros [= ->]. exists [], (c :: s). repeat split; try done.
      intros a b Hab Hb. by destruct a, b.
    + intros (pre&post&->&H&Hmin)%IH. exists (c :: pre), post.
      repeat split; try done. intros [|c' a] b; simpl.
      * by intros <- _.
      * intros [= <- ->]. by apply (Hmin a).
Qed.

(** A lazy repetition stops at the first position where what follows
    matches. *)
Lemma lazy_star_first {R} p s (k : pystr → option R) x :
  Re.lazy_star p s k = Some x →
  ∃ pre s', s = pre ++ s' ∧ Forall (λ c, p c = true) pre ∧ k s' = Some x
            ∧ ∀ a b, pre = a ++ b → b ≠ [] → k (b ++ s') = None.
Proof.
  induction s as [|c s IH]; simpl.
  - destruct (k []) eqn:Hk; [|done]. intros [= ->]. exists [], [].
    repeat split; try done. intros a b Hab Hb. by destruct a, b.
  - destruct (k (c :: s)) eqn:Hk.
    { intros [= ->]. exists [], (c :: s). repeat split; try done.
      intros a b Hab Hb. by destruct a, b. }
    destruct (p c) eqn:Hc; [|done].
    intros H. destruct (IH H) as (pre&s'&->&Hpre&Hk'&Hmin).
    exists (c :: pre), s'. repeat split; auto.
    intros [|c' a] b; simpl.
    + by intros <- _.
    + intros [= <- ->]. by apply (Hmin a).
Qed.

Lemma lit_i_quote x : Re.lit_i 34 x = true → x = 34.
Proof. change (Re.lit_i 34 x) with (34 =? x). by intros ->%N.eqb_eq. Qed.

Lemma match_at_SITES_REGEX s m :
  Re.match_at SITES_REGEX s = Some m →
  ∃ key ws1 ws2 body,
    s = 34 :: key ++ 34 :: ws1 ++ 58 :: ws2 ++ 91 :: body ++ 93 :: Re.after m
    ∧ Forall2 (λ c x, Re.lit_i c x = true) (py "sites") key
    ∧ Forall (λ c, Re.space c = true) ws1
    ∧ Forall (λ c, Re.space c = true) ws2
    ∧ (93 ∉ body)
    ∧ Re.group1 m = Some (91 :: body ++ [93]).
Proof.
  unfold Re.match_at, SITES_REGEX. py_eval. cbn [Re.lits Re.run].
  destruct s as [|q1 s]; [done|].
  destruct (Re.lit_i 34 q1) eqn:Hq1; [|done]. apply lit_i_quote in Hq1 as ->.
  destruct s as [|k1 s]; [done|]. destruct (Re.lit_i 115 k1) eqn:Hk1; [|done].
  destruct s as [|k2 s]; [done|]. destruct (Re.lit_i 105 k2) eqn:Hk2; [|done].
  destruct s as [|k3 s]; [done|]. destruct (Re.lit_i 116 k3) eqn:Hk3; [|done].
  destruct s as [|k4 s]; [done|]. destruct (Re.lit_i 101 k4) eqn:Hk4; [|done].
  destruct s as [|k5 s]; [done|]. destruct (Re.lit_i 115 k5) eqn:Hk5; [|done].
  destruct s as [|q2 s]; [done|].
  destruct (Re.lit_i 34 q2) eqn:Hq2; [|done]. apply lit_i_quote in Hq2 as ->.
  intros (ws1&s1&->&Hws1&H)%star_sound.
  destruct s1 as [|c1 s1]; [done|].
  destruct (Re.lit 58 c1) eqn:Hc1; [|done].
  apply N.eqb_eq in Hc1 as <-.
  apply star_sound in H as (ws2&s2&->&Hws2&H).
  destruct s2 as [|c2 s2]; [done|].
  destruct (Re.lit 91 c2) eqn:Hc2; [|done].
  apply N.eqb_eq in Hc2 as <-.
  apply lazy_star_first in H as (body&s3&->&_&H&Hmin).
  destruct s3 as [|c3 s3]; [done|].
  destruct (Re.lit 93 c3) eqn:Hc3; [|done].
  apply N.eqb_eq in Hc3 as <-. injection H as <-. cbn [Re.after Re.group1].
  exists [k1; k2; k3; k4; k5], ws1, ws2, body.
  split; [done|]. split; [by repeat constructor|].
  split; [done|]. split; [done|]. split.
  - intros (a&b&->)%list_elem_of_split.
    specialize (Hmin a (93 :: b) eq_refl ltac:(done)).
    cbn [app] in Hmin. by rewrite (N.eqb_refl 93 : Re.lit 93 93 = true) in Hmin.
  - f_equal. cbn [length]. rewrite length_app. cbn [length].
    replace (S (length body + S (length s3)) - length s3)%nat
      with (length (91 :: body ++ [93]))
      by (cbn [length]; rewrite length_app; cbn [length]; lia).
    change (91 :: body ++ 93 :: s3) with ((91 :: body) ++ [93] ++ s3).
    rewrite (app_assoc (91 :: body) [93] s3). apply take_app_length.
Qed.

(** When the sites pattern is found in a text, the match is the leftmost
    one: the text holds, after a double quote, the word sites in any case, a
    double quote, white space, a colon, white space and an opening square
    bracket, and the pattern matches at no earlier position.  The capture
    runs from that bracket to the first closing square bracket after it, so
    that it holds no other closing bracket. *)
Theorem sites_capture_ends_at_first_bracket (text : pystr) (m : Re.match_) :
  Re.search SITES_REGEX text = Some m →
  ∃ pre found key ws1 ws2 body,
    text = pre ++ found
    ∧ found = 34 :: key ++ 34 :: ws1 ++ 58 :: ws2
                 ++ 91 :: body ++ 93 :: Re.after m
    ∧ (∀ a b, pre = a ++ b → b ≠ [] →
              Re.match_at SITES_REGEX (b ++ found) = None)
    ∧ Forall2 (λ c x, Re.lit_i c x = true) (py "sites") key
    ∧ Forall (λ c, Re.space c = true) ws1
    ∧ Forall (λ c, Re.space c = true) ws2
    ∧ (93 ∉ body)
    ∧ Re.group1 m = Some (91 :: body ++ [93]).
Proof.
  intros (pre&post&->&Hm&Hleft)%search_leftmost.
  apply match_at_SITES_REGEX in Hm as (key&ws1&ws2&body&Hpost&H).
  by exists pre, post, key, ws1, ws2, body.
Qed.

Lemma sites_capture_ends_at_first_bracket_witness :
  ∃ m body,
    Re.search SITES_REGEX text_truncated = Some m
    ∧ Re.group1 m = Some (91 :: body ++ [93]) ∧ (93 ∉ body)
    ∧ Re.group1 m = Some (pyq "[{'ext': [1, 2]").
Proof.
  destruct (Re.search SITES_REGEX text_truncated) as [m|] eqn:Hm;
    [|by vm_compute in Hm].
  destruct (sites_capture_ends_at_first_bracket text_truncated m Hm)
    as (pre&found&key&ws1&ws2&body&_&_&_&_&_&_&Hbody&Hg).
  exists m, body. split; [done|]. split; [exact Hg|]. split; [exact Hbody|].
  vm_compute in Hm. by injection Hm as <-.
Defined.

(** ** The trailing-comma repair deletes commas and white space only *)

Lemma match_at_TRAILING_COMMA_inv s m :
  Re.match_at TRAILING_COMMA s = Some m →
  ∃ ws b rest, s = 44 :: ws ++ b :: rest
               ∧ Forall (λ c, Re.space c = true) ws ∧ (b = 93 ∨ b = 125).
Proof.
  unfold Re.match_at, TRAILING_COMMA. cbn [Re.run].
  destruct s as [|c s]; [done|].
  destruct (Re.lit 44 c) eqn:Hc; [|done]. apply N.eqb_eq in Hc as <-.
  intros (ws&s1&->&Hws&H)%star_sound.
  destruct s1 as [|b rest]; [done|].
  destruct ((b =? 93) || (b =? 125)) eqn:Hb; [|done].
  exists ws, b, rest. split; [done|]. split; [done|].
  apply orb_true_iff in Hb. rewrite !N.eqb_eq in Hb. done.
Qed.

Lemma sub_trailing_comma_cases s :
  match s with
  | [] => Re.sub_group1 TRAILING_COMMA s = []
  | c :: s' =>
      (∃ ws b rest, s = 44 :: ws ++ b :: rest
                    ∧ Forall (λ c, Re.space c = true) ws
                    ∧ (b = 93 ∨ b = 125)
                    ∧ Re.sub_group1 TRAILING_COMMA s
                      = b :: Re.sub_group1 TRAILING_COMMA rest)
      ∨ Re.sub_group1 TRAILING_COMMA s
        = c :: Re.sub_group1 TRAILING_COMMA s'
  end.
Proof.
  destruct s as [|c s'].
  - unfold Re.sub_group1. cbn [Re.sub_from].
    destruct (Re.match_at TRAILING_COMMA []) eqn:Hm; [|done].
    by apply match_at_TRAILING_COMMA_inv in Hm as (?&?&?&?&_).
  - destruct (Re.match_at TRAILING_COMMA (c :: s')) as [m|] eqn:Hm.
    + left. apply match_at_TRAILING_COMMA_inv in Hm as (ws&b&rest&Hs&Hws&Hb).
      exists ws, b, rest. repeat split; try done.
      rewrite Hs. by apply sub_trailing_comma.
    + right. unfold Re.sub_group1. cbn [Re.sub_from]. by rewrite Hm.
Qed.

Lemma kept_closer b : b = 93 ∨ b = 125 → kept b.
Proof. intros [-> | ->]; by split. Qed.

Lemma filter_kept_space ws :
  Forall (λ c, Re.space c = true) ws → filter kept ws = [].
Proof.
  induction 1 as [|c ws Hc _ IH]; [done|].
  rewrite filter_cons_False; [done|]. intros [_ H]. congruence.
Qed.

Lemma sub_trailing_comma_sublist s :
  Re.sub_group1 TRAILING_COMMA s `sublist_of` s.
Proof.
  remember (length s) as n eqn:Hn. revert s Hn.
  induction n as [n IH] using lt_wf_ind. intros s ->.
  pose proof (sub_trailing_comma_cases s) as Hc.
  destruct s as [|c s']; [by rewrite Hc|].
  destruct Hc as [(ws&b&rest&Hs&Hws&Hb&Hsub)|Hsub]; rewrite Hsub.
  - rewrite Hs. apply sublist_cons, sublist_inserts_l, sublist_skip.
    apply (IH (length rest)); [|done].
    rewrite Hs. cbn [length]. rewrite length_app. cbn [length]. lia.
  - apply sublist_skip. apply (IH (length s')); [simpl; lia|done].
Qed.

Lemma sub_trailing_comma_kept s :
  filter kept (Re.sub_group1 TRAILING_COMMA s) = filter kept s.
Proof.
  remember (length s) as n eqn:Hn. revert s Hn.
  induction n as [n IH] using lt_wf_ind. intros s ->.
  pose proof (sub_trailing_comma_cases s) as Hc.
  destruct s as [|c s']; [by rewrite Hc|].
  destruct Hc as [(ws&b&rest&Hs&Hws&Hb&Hsub)|Hsub]; rewrite Hsub.
  - rewrite Hs. rewrite (filter_cons_False _ 44) by (by intros [? _]).
    rewrite filter_app, (filter_kept_space ws Hws).
    rewrite !(filter_cons_True _ b) by (by apply kept_closer).
    cbn [app]. f_equal. apply (IH (length rest)); [|done].
    rewrite Hs. cbn [length]. rewrite length_app. cbn [length]. lia.
  - rewrite !(filter_cons _ c). destruct (decide (kept c)); [f_equal|];
      (apply (IH (length s')); [simpl; lia|done]).
Qed.

(** The repair of line 69 only deletes commas and white space: its result
    is a subsequence of [s], the other characters are all kept, in order,
    and a text without a comma is not changed; a comma and the white space
    after it are deleted before a closing bracket or brace. *)
Theorem trailing_comma_repair_deletes_only (s : pystr) :
  let cleaned := Re.sub_group1 TRAILING_COMMA s in
  cleaned `sublist_of` s
  ∧ filter kept cleaned = filter kept s
  ∧ (44 ∉ s → cleaned = s)
  ∧ (∀ ws b rest,
       s = 44 :: ws ++ b :: rest →
       Forall (λ c, Re.space c = true) ws → b = 93 ∨ b = 125 →
       cleaned = b :: Re.sub_group1 TRAILING_COMMA rest).
Proof.
  intros cleaned. split; [apply sub_trailing_comma_sublist|].
  split; [apply sub_trailing_comma_kept|].
  split; [apply sub_no_comma|].
  intros ws b rest -> Hws Hb. by apply sub_trailing_comma.
Qed.

(** ** The regex recovery cannot return a site that holds a list *)

Lemma closers_cons c s :
  closers (c :: s)
  = Nat.add (if decide (c = 93) then 1%nat else 0%nat) (closers s).
Proof. unfold closers. rewrite filter_cons. by destruct (decide (c = 93)). Qed.

Lemma closers_suffix r s : r `suffix_of` s → (closers r ≤ closers s)%nat.
Proof.
  intros [k ->]. unfold closers. rewrite filter_app, length_app. lia.
Qed.

Lemma closers_sublist r s : r `sublist_of` s → (closers r ≤ closers s)%nat.
Proof.
  induction 1 as [|x l1 l2 _ IH|x l1 l2 _ IH]; rewrite ?closers_cons;
    [done|lia|lia].
Qed.

Ltac solve_suffix :=
  first [ reflexivity | assumption | apply suffix_cons_r; solve_suffix ].

Lemma skip_ws_suffix s : skip_ws s `suffix_of` s.
Proof.
  induction s as [|c s IH]; simpl; [done|].
  destruct (is_ws c); [by apply suffix_cons_r|done].
Qed.

Lemma scanstring_suffix s str r : scanstring s = Ok (str, r) → r `suffix_of` s.
Proof.
  remember (length s) as n eqn:Hn. revert s str r Hn.
  induction n as [n IH] using lt_wf_ind. intros s str r ->.
  assert (∀ c s', (length s' < length s)%nat → s' `suffix_of` s →
                  cons_char c (scanstring s') = Ok (str, r) →
                  r `suffix_of` s) as Hrec.
  { intros c s' Hlt Hs' H. destruct (scanstring s') as [[str' r']|] eqn:Hs;
      [|done]. injection H as <- <-.
    etrans; [|exact Hs']. by eapply (IH (length s')). }
  destruct s as [|c s1]; [done|]. cbn [scanstring].
  repeat case_match; subst; try done;
    try (intros [= <- <-]; by apply suffix_cons_r);
    intros Hfin; eapply Hrec; try exact Hfin; cbn [length]; try lia;
    solve_suffix.
Qed.

Lemma span_digits_suffix s d r : span_digits s = (d, r) → r `suffix_of` s.
Proof.
  revert d r. induction s as [|c s IH]; simpl; intros d r.
  - by intros [= <- <-].
  - destruct (is_digit c); [|by intros [= <- <-]].
    destruct (span_digits s) as [d' r']. intros [= <- <-].
    apply suffix_cons_r. by eapply IH.
Qed.

Lemma match_integer_suffix s lit r :
  match_integer s = Some (lit, r) → r `suffix_of` s.
Proof.
  unfold match_integer. intros H.
  repeat case_match; simplify_eq;
    repeat match goal with
           | H : span_digits _ = _ |- _ => apply span_digits_suffix in H
           end; solve_suffix.
Qed.

Lemma match_frac_suffix s f r : match_frac s = (f, r) → r `suffix_of` s.
Proof.
  unfold match_frac. intros H.
  repeat case_match; simplify_eq;
    repeat match goal with
           | H : span_digits _ = _ |- _ => apply span_digits_suffix in H
           end; solve_suffix.
Qed.

Lemma match_exp_suffix s x r : match_exp s = (x, r) → r `suffix_of` s.
Proof.
  unfold match_exp. intros H.
  repeat case_match; simplify_eq;
    repeat match goal with
           | H : span_digits _ = _ |- _ => apply span_digits_suffix in H
           end; solve_suffix.
Qed.

Lemma match_number_suffix pf s v r :
  match_number pf s = Some (v, r) → r `suffix_of` s.
Proof.
  unfold match_number. intros H.
  destruct (match_integer s) as [[lit s1]|] eqn:Hi; [|done].
  destruct (match_frac s1) as [f s2] eqn:Hf.
  destruct (match_exp s2) as [x s3] eqn:Hx.
  apply match_integer_suffix in Hi. apply match_frac_suffix in Hf.
  apply match_exp_suffix in Hx.
  assert (r = s3) as -> by (case_match; by simplify_eq).
  by repeat (etrans; [eassumption|]).
Qed.

Lemma strip_prefix_suffix lit s r :
  strip_prefix lit s = Some r → r `suffix_of` s.
Proof.
  revert s. induction lit as [|c lit IH]; intros s; simpl.
  - by intros [= ->].
  - destruct s as [|c' s]; [done|]. destruct (c =? c'); [|done].
    intros H%IH. by apply suffix_cons_r.
Qed.

Lemma lists_in_snoc values value :
  lists_in (JList (values ++ [value]))
  = (lists_in (JList values) + lists_in value)%nat.
Proof.
  cbn [lists_in]. induction values as [|x values IH]; simpl; lia.
Qed.

Lemma lists_in_dict_set pairs k v :
  (lists_in (JDict (dict_set pairs k v))
   ≤ lists_in (JDict pairs) + lists_in v)%nat.
Proof.
  cbn [lists_in]. induction pairs as [|[k' v'] pairs IH]; simpl; [lia|].
  destruct (decide (k' = k)); simpl; lia.
Qed.

Ltac closer_facts :=
  repeat match goal with
         | H : scanstring ?s = Ok (_, ?r) |- _ =>
             apply scanstring_suffix, closers_suffix in H
         | H : skip_ws ?s = ?r |- _ =>
             let F := fresh "F" in
             pose proof (closers_suffix _ _ (skip_ws_suffix s)) as F;
             rewrite H in F; clear H
         | H : strip_prefix ?lit ?s = Some _ |- _ =>
             apply strip_prefix_suffix, closers_suffix in H
         | H : match_number _ _ = Some _ |- _ =>
             apply match_number_suffix, closers_suffix in H
         | H : (_ =? _) = true |- _ => apply N.eqb_eq in H; subst
         end;
  rewrite ?closers_cons in *; cbn [lists_in foldr] in *;
  repeat match goal with
         | H : context [decide (?a = 93)] |- _ => destruct (decide (a = 93))
         | |- context [decide (?a = 93)] => destruct (decide (a = 93))
         end.

Lemma scanner_closers pf fuel :
  (∀ s v r, scan_once pf fuel s = Ok (v, r) →
            (lists_in v + closers r ≤ closers s)%nat)
  ∧ (∀ s values v r,
       parse_array pf fuel s values = Ok (v, r) →
       (lists_in v + closers r + 1
        ≤ lists_in (JList values) + closers s)%nat)
  ∧ (∀ s pairs v r,
       parse_object pf fuel s pairs = Ok (v, r) →
       (lists_in v + closers r ≤ lists_in (JDict pairs) + closers s)%nat).
Proof.
  induction fuel as [|fuel (IHs&IHa&IHo)]; [done|].
  split; [|split].
  - intros s v r. cbn [scan_once].
    repeat case_match; intros; simplify_eq;
      repeat match goal with
             | H : parse_array _ _ _ _ = Ok _ |- _ => apply IHa in H
             | H : parse_object _ _ _ _ = Ok _ |- _ => apply IHo in H
             | vr : (json * pystr)%type |- _ => destruct vr
             end;
      try (assert (lists_in v = O) as ->
             by (unfold match_number in *; repeat case_match; by simplify_eq));
      closer_facts; try done; try lia.
  - intros s values v r. cbn [parse_array].
    destruct (scan_once pf fuel s) as [[value s1]|e] eqn:Hscan; [|done].
    apply IHs in Hscan.
    repeat case_match; intros; simplify_eq;
      repeat match goal with
             | H : parse_array _ _ _ _ = Ok _ |- _ => apply IHa in H
             end;
      rewrite ?lists_in_snoc in *;
      try match goal with
          | |- context [skip_ws ?x] =>
              pose proof (closers_suffix _ _ (skip_ws_suffix x))
          | H : context [skip_ws ?x] |- _ =>
              pose proof (closers_suffix _ _ (skip_ws_suffix x))
          end;
      closer_facts; try done; try lia.
  - intros s pairs v r. cbn [parse_object].
    repeat case_match; intros; simplify_eq;
      repeat match goal with
             | H : scan_once _ _ _ = Ok _ |- _ => apply IHs in H
             | H : parse_object _ _ _ _ = Ok _ |- _ => apply IHo in H
             end;
      repeat match goal with
             | H : context [dict_set ?p ?k ?v] |- _ =>
                 lazymatch goal with
                 | _ : (lists_in (JDict (dict_set p k v)) ≤ _)%nat |- _ => fail
                 | _ => pose proof (lists_in_dict_set p k v)
                 end
             | |- context [dict_set ?p ?k ?v] =>
                 lazymatch goal with
                 | _ : (lists_in (JDict (dict_set p k v)) ≤ _)%nat |- _ => fail
                 | _ => pose proof (lists_in_dict_set p k v)
                 end
             end;
      repeat match goal with
             | H : context [closers (skip_ws ?x)] |- _ =>
                 lazymatch goal with
                 | _ : (closers (skip_ws x) ≤ closers x)%nat |- _ => fail
                 | _ => pose proof (closers_suffix _ _ (skip_ws_suffix x))
                 end
             end;
      closer_facts; try done; try lia.
Qed.

Lemma json_loads_closers pf s v :
  json_loads pf s = Ok v → (lists_in v ≤ closers s)%nat.
Proof.
  unfold json_loads. intros H.
  assert (∃ r, scan_once pf (2 * length s + 2) (skip_ws s) = Ok (v, r))
    as [r Hs] by (repeat case_match; simplify_eq; eauto).
  apply (proj1 (scanner_closers pf _)) in Hs.
  pose proof (closers_suffix _ _ (skip_ws_suffix s)). lia.
Qed.

Lemma lists_in_flat l :
  (lists_in (JList l) ≤ 1)%nat → Forall (λ x, lists_in x = O) l.
Proof.
  cbn [lists_in]. induction l as [|x l IH]; [constructor|].
  cbn [foldr]. intros H. constructor; [lia|]. apply IH. lia.
Qed.

Lemma closers_capture body : 93 ∉ body → closers (91 :: body ++ [93]) = 1%nat.
Proof.
  intros Hb. rewrite closers_cons. unfold closers.
  rewrite decide_False by done. rewrite filter_app, length_app.
  replace (filter (λ c, c = 93) body) with (@nil N).
  - by rewrite filter_cons_True.
  - symmetry. induction body as [|c body IH]; [done|].
    apply not_elem_of_cons in Hb as [Hc Hb].
    rewrite filter_cons_False by done. by apply IH.
Qed.

(** When the strict parse returns nothing, no site of the result holds a
    list, at any depth: the capture of the pattern ends at the first closing
    square bracket, the repair adds none, and the decoder needs one closing
    bracket for each list.  (In [text_truncated] the first site holds a
    list: the capture is cut inside that site and nothing is recovered.) *)
Theorem regex_recovery_returns_flat_sites
  (parse_float : pystr → pystr) (text : pystr) (l : list json) :
  strict_parse parse_float text = Next →
  extract_sites_from_text parse_float text = Ok l →
  Forall (λ site, lists_in site = O) l.
Proof.
  intros Hstrict. unfold extract_sites_from_text. rewrite Hstrict.
  cbn [seq]. unfold regex_recovery.
  destruct (Re.search SITES_REGEX text) as [m|] eqn:Hm;
    [|by intros [= <-]].
  apply search_sound in Hm as (pre&post&_&Hm).
  apply match_at_SITES_REGEX in Hm as (_&_&_&body&_&_&_&_&Hbody&->).
  cbn [default from_option]. unfold id.
  pose proof (closers_capture body Hbody) as Hc.
  remember (91 :: body ++ [93]) as arr_text eqn:Harr_text. clear Harr_text.
  assert (∀ s arr, (closers s ≤ 1)%nat → json_loads parse_float s = Ok arr →
                   is_list arr = true →
                   Forall (λ site, lists_in site = O) (elements arr)) as Hflat.
  { intros s [| | | | |l'|] Hs Hl Hlist; try done.
    apply json_loads_closers in Hl. cbn [elements]. apply lists_in_flat. lia. }
  destruct (json_loads parse_float arr_text) as [arr|e] eqn:Harr;
    cbn [bind_flow try_except].
  - destruct (is_list arr) eqn:Hl; cbn [ends_with]; intros [= <-];
      [|constructor].
    apply (Hflat arr_text); [lia|done..].
  - pose proof (closers_sublist _ _ (sub_trailing_comma_sublist arr_text))
      as Hsub.
    destruct (json_loads parse_float (Re.sub_group1 TRAILING_COMMA arr_text))
      as [arr|e2] eqn:Harr2; cbn [bind_flow try_except];
      [|by intros [= <-]].
    destruct (is_list arr) eqn:Hl; cbn [ends_with]; intros [= <-];
      [|constructor].
    eapply Hflat; [|exact Harr2|done]. lia.
Qed.

Lemma regex_recovery_returns_flat_sites_witness :
  strict_parse id text_trailing_comma = Next
  ∧ extract_sites_from_text id text_trailing_comma = Ok [JInt 1; JInt 2]
  ∧ Forall (λ site, lists_in site = O) [JInt 1; JInt 2]
  ∧ extract_sites_from_text id text_truncated = Ok [].
Proof.
  assert (strict_parse id text_trailing_comma = Next) as H1 by (by vm_compute).
  assert (extract_sites_from_text id text_trailing_comma
          = Ok [JInt 1; JInt 2]) as H2 by (by vm_compute).
  split; [exact H1|]. split; [exact H2|]. split; [|by vm_compute].
  exact (regex_recovery_returns_flat_sites id text_trailing_comma
           [JInt 1; JInt 2] H1 H2).
Defined.

(** ** The URLs found by the pattern are printable ASCII *)

Lemma hexdigit_printable n : n < 16 → 32 ≤ hexdigit n ≤ 126.
Proof. unfold hexdigit. intros. destruct (N.ltb_spec n 10); lia. Qed.

Lemma u_escape_printable n : Forall (λ x, 32 ≤ x ≤ 126) (u_escape n).
Proof.
  unfold u_escape.
  repeat (constructor; [first [lia | apply hexdigit_printable, N.mod_lt; lia]|]).
  constructor.
Qed.

Lemma escape_char_ascii_printable c :
  Forall (λ x, 32 ≤ x ≤ 126) (escape_char_ascii c).
Proof.
  unfold escape_char_ascii.
  destruct ((32 <=? c) && (c <=? 126) && negb (c =? 92) && negb (c =? 34))
    eqn:Hc.
  { rewrite !andb_true_iff, !N.leb_le in Hc. repeat constructor; lia. }
  unfold ESCAPE_DCT.
  repeat case_match; simplify_eq;
    first [ apply u_escape_printable
          | apply Forall_app; split; apply u_escape_printable
          | repeat constructor; lia ].
Qed.

Lemma encode_basestring_ascii_printable s :
  Forall (λ x, 32 ≤ x ≤ 126) (encode_basestring_ascii s).
Proof.
  unfold encode_basestring_ascii. apply Forall_app. split; [by repeat constructor|].
  apply Forall_app. split; [|by repeat constructor].
  induction s as [|c s IH]; [constructor|]. cbn [flat_map].
  apply Forall_app. split; [apply escape_char_ascii_printable|done].
Qed.

Lemma join_Forall (P : N → Prop) sep chunks :
  Forall P sep → Forall (Forall P) chunks → Forall P (join sep chunks).
Proof.
  intros Hsep. induction 1 as [|c cs Hc Hcs IH]; [constructor|].
  cbn [join]. destruct cs; [done|].
  apply Forall_app. split; [done|]. apply Forall_app. split; done.
Qed.

Lemma json_dumps_printable o :
  floats_ok o = true → Forall (λ x, 32 ≤ x ≤ 126) (json_dumps true false o).
Proof.
  unfold json_dumps.
  induction o as [| | | | |l IH|d IH] using json_ind'; intros Hok.
  - by repeat constructor.
  - destruct b; by repeat constructor.
  - eapply Forall_impl; [apply int_repr_chars|]. simpl. lia.
  - apply floatstr_ok_cases in Hok as (Hr&_&_).
    eapply Forall_impl; [exact Hr|]. simpl. intros c Hc.
    unfold number_char in Hc. char_class. lia.
  - apply encode_basestring_ascii_printable.
  - rewrite <-(app_nil_r (iterencode _ _ _)), iterencode_list.
    constructor; [lia|]. apply Forall_app. split; [|by repeat constructor].
    apply join_Forall; [by repeat constructor|].
    apply floats_ok_list in Hok.
    change (map ?f l) with (f <$> l). apply Forall_fmap.
    exact (Forall_mp _ _ _ IH Hok).
  - rewrite <-(app_nil_r (iterencode _ _ _)), iterencode_dict.
    constructor; [lia|]. apply Forall_app. split; [|by repeat constructor].
    apply join_Forall; [by repeat constructor|].
    apply floats_ok_dict in Hok.
    change (map ?f d) with (f <$> d). apply Forall_fmap.
    eapply Forall_impl; [exact (Forall_mp _ _ _ IH Hok)|].
    intros [k v] Hv. unfold enc_item. cbn [fst snd] in *.
    apply Forall_app. split; [apply encode_basestring_ascii_printable|].
    apply Forall_app. split; [by repeat constructor|done].
Qed.

Lemma scan_within r s toks :
  scan r s toks → Forall (λ t, ∀ c, c ∈ t → c ∈ s) toks.
Proof.
  induction 1 as [|gap t rest toks m _ _ _ _ _ IH]; constructor.
  - intros c Hc. rewrite !elem_of_app. auto.
  - eapply Forall_impl; [exact IH|]. simpl. intros t' Ht' c Hc.
    rewrite !elem_of_app. auto.
Qed.

Lemma url_token_no_space t c : url_token t → c ∈ t → c ≠ 32.
Proof.
  intros (tail&Ht&_&Htail) Hc.
  assert (c ∈ py "https://" ∨ c ∈ tail) as [Hp|Hp].
  { destruct Ht as [-> | ->]; apply elem_of_app in Hc as [Hc|Hc]; auto.
    left. revert Hc. py_eval. rewrite !elem_of_cons. tauto. }
  - revert Hp. py_eval. rewrite !elem_of_cons, elem_of_nil. lia.
  - rewrite Forall_forall in Htail. apply Htail in Hp.
    intros ->. done.
Qed.

(** Without a [urls] list, every URL the script resolves is a string of
    printable ASCII characters other than the space: it is found in the text
    of [json.dumps], which escapes every other character, so that a
    character outside ASCII in a URL of the index reaches the request as
    its escape.  Such a URL is never empty, so each of them is requested. *)
Theorem fallback_urls_are_ascii (data : json) :
  has_urls_list data = false → floats_ok data = true →
  Forall (λ u, ∃ s, u = JStr s ∧ url_token s
                    ∧ Forall (λ c, 32 < c < 127) s ∧ truthy u = true)
         (resolve_urls data).
Proof.
  intros Hdata Hok. rewrite (fallback_is_finditer data Hdata).
  pose proof (finditer_scan URL_REGEX URL_REGEX_nonempty
                (json_dumps true false data)) as Hscan.
  pose proof (scan_tokens _ _ _ Hscan) as Htok.
  pose proof (scan_within _ _ _ Hscan) as Hin.
  pose proof (json_dumps_printable data Hok) as Hascii.
  rewrite Forall_forall in Hascii.
  apply Forall_fmap. clear Hscan. revert Htok Hin.
  induction (Re.finditer URL_REGEX (json_dumps true false data))
    as [|t toks IH]; [constructor|].
  intros [Ht Htok]%Forall_cons_1 [Hti Hin]%Forall_cons_1.
  constructor; [|by apply IH].
  apply matches_URL_REGEX in Ht. exists t. split; [done|]. split; [done|].
  split.
  - apply Forall_forall. intros c Hc.
    pose proof (Hascii c (Hti c Hc)). pose proof (url_token_no_space t c Ht Hc).
    lia.
  - destruct Ht as (tail&[-> | ->]&_&_); done.
Qed.

Lemma fallback_urls_are_ascii_witness :
  has_urls_list index_accent = false ∧ floats_ok index_accent = true
  ∧ resolve_urls index_accent = [JStr (py "http://x/\u00e9")]
  ∧ Forall (λ u, ∃ s, u = JStr s ∧ url_token s
                      ∧ Forall (λ c, 32 < c < 127) s ∧ truthy u = true)
           [JStr (py "http://x/\u00e9")].
Proof.
  split; [reflexivity|]. split; [reflexivity|].
  assert (resolve_urls index_accent = [JStr (py "http://x/\u00e9")]) as Hr
    by (by vm_compute).
  split; [exact Hr|]. rewrite <-Hr.
  exact (fallback_urls_are_ascii index_accent eq_refl eq_refl).
Defined.

(** ** More on the merge loop *)

Lemma first_seen_key_iff l k :
  k ∈ normalize_site <$> first_seen l ↔ k ∈ normalize_site <$> l.
Proof.
  split.
  - intros (x&->&Hx)%list_elem_of_fmap_1. apply list_elem_of_fmap_2.
    eapply elem_of_sublist; [exact Hx|apply first_seen_sublist].
  - intros (x&->&Hx)%list_elem_of_fmap_1. by apply first_seen_keys.
Qed.

Lemma filter_key_all (l : list json) k :
  k ∉ normalize_site <$> l → filter (λ x, normalize_site x ≠ k) l = l.
Proof.
  induction l as [|x l IH]; [done|]. cbn [fmap list_fmap].
  intros [Hne Hnin]%not_elem_of_cons.
  rewrite filter_cons_True by congruence. f_equal. by apply IH.
Qed.

Lemma first_seen_fixed l :
  NoDup (normalize_site <$> l) → first_seen l = l.
Proof.
  induction l as [|s l IH]; [done|]. cbn [fmap list_fmap first_seen].
  intros [Hnin Hnd]%NoDup_cons. rewrite IH by done. f_equal.
  by apply filter_key_all.
Qed.

Lemma first_seen_idemp l : first_seen (first_seen l) = first_seen l.
Proof. apply first_seen_fixed, first_seen_NoDup. Qed.

Lemma foldl_add_site_seen a l :
  seen (foldl add_site a l)
  = seen a ∪ list_to_set (normalize_site <$> l).
Proof.
  revert a. induction l as [|s l IH]; intros a; cbn [foldl fmap list_fmap].
  - apply set_eq. intros k.
    rewrite elem_of_union, elem_of_list_to_set, elem_of_nil. tauto.
  - rewrite IH. apply set_eq. intros k.
    rewrite !elem_of_union, !elem_of_list_to_set, elem_of_cons.
    unfold add_site.
    destruct (decide (normalize_site s ∈ seen a)) as [Hin|Hnin]; cbn [seen].
    + split; [tauto|]. intros [?|[->|?]]; auto.
    + rewrite elem_of_union, elem_of_singleton. tauto.
Qed.

Lemma foldl_add_site_known a l :
  Forall (λ s, normalize_site s ∈ seen a) l → foldl add_site a l = a.
Proof.
  intros Hl. induction Hl as [|s l Hs _ IH]; [done|]. cbn [foldl].
  unfold add_site at 2. by rewrite decide_True.
Qed.

(** The number of unique sites is the number of distinct canonical keys
    among the sites fetched, so that it does not depend on the order in
    which they are fetched; the keys kept are the same in any order, and
    only the site that stands for a key and the order of the result can
    change. *)
Theorem unique_sites_counted_by_key (l l' : list json) :
  l ≡ₚ l' →
  length (merged (foldl add_site acc0 l))
  = size (list_to_set (normalize_site <$> l) : gset pystr)
  ∧ length (merged (foldl add_site acc0 l))
    = length (merged (foldl add_site acc0 l'))
  ∧ normalize_site <$> merged (foldl add_site acc0 l)
    ≡ₚ normalize_site <$> merged (foldl add_site acc0 l').
Proof.
  intros Hperm. rewrite !merged_acc0.
  assert (normalize_site <$> first_seen l
          ≡ₚ normalize_site <$> first_seen l') as Hkeys.
  { apply NoDup_Permutation; [apply first_seen_NoDup..|].
    intros k. rewrite !first_seen_key_iff. by rewrite Hperm. }
  split; [|split; [|done]].
  - rewrite <-(length_fmap normalize_site).
    rewrite <-(size_list_to_set (C:=gset pystr)) by apply first_seen_NoDup.
    f_equal. apply set_eq. intros k.
    rewrite !elem_of_list_to_set. apply first_seen_key_iff.
  - rewrite <-!(length_fmap normalize_site (first_seen _)). by rewrite Hkeys.
Qed.

Lemma unique_sites_counted_by_key_witness :
  sites_one_order ≡ₚ sites_other_order
  ∧ length (merged (foldl add_site acc0 sites_one_order))
    = length (merged (foldl add_site acc0 sites_other_order))
  ∧ merged (foldl add_site acc0 sites_one_order) = [site_ab; site_rate]
  ∧ merged (foldl add_site acc0 sites_other_order) = [site_ba; site_rate].
Proof.
  assert (sites_one_order ≡ₚ sites_other_order) as Hperm.
  { unfold sites_one_order, sites_other_order.
    etrans; [apply perm_skip, perm_swap|apply perm_swap]. }
  split; [exact Hperm|].
  split; [exact (proj1 (proj2 (unique_sites_counted_by_key _ _ Hperm)))|].
  split; by vm_compute.
Defined.

Lemma add_site_invariant a s :
  seen a = list_to_set (normalize_site <$> merged a) →
  NoDup (normalize_site <$> merged a) →
  seen (add_site a s) = list_to_set (normalize_site <$> merged (add_site a s))
  ∧ NoDup (normalize_site <$> merged (add_site a s))
  ∧ merged a `prefix_of` merged (add_site a s).
Proof.
  intros Hseen Hnd. unfold add_site.
  destruct (decide (normalize_site s ∈ seen a)) as [Hin|Hnin];
    cbn [merged seen]; [done|].
  split; [|split].
  - apply set_eq. intros k.
    rewrite elem_of_union, elem_of_singleton, elem_of_list_to_set, fmap_app,
      elem_of_app, Hseen, elem_of_list_to_set.
    cbn [fmap list_fmap]. rewrite elem_of_cons, elem_of_nil. tauto.
  - rewrite fmap_app. apply NoDup_app. split; [done|]. split.
    + intros k Hk [->|[]%elem_of_nil]%elem_of_cons. apply Hnin.
      by rewrite Hseen, elem_of_list_to_set.
    + apply NoDup_singleton.
  - by apply prefix_app_r.
Qed.

Lemma foldl_add_site_invariant a l :
  seen a = list_to_set (normalize_site <$> merged a) →
  NoDup (normalize_site <$> merged a) →
  seen (foldl add_site a l)
  = list_to_set (normalize_site <$> merged (foldl add_site a l))
  ∧ NoDup (normalize_site <$> merged (foldl add_site a l))
  ∧ merged a `prefix_of` merged (foldl add_site a l).
Proof.
  revert a. induction l as [|s l IH]; intros a Hseen Hnd; [done|].
  cbn [foldl]. destruct (add_site_invariant a s Hseen Hnd) as (H1&H2&H3).
  destruct (IH (add_site a s) H1 H2) as (H4&H5&H6).
  split; [done|]. split; [done|]. by etrans.
Qed.

Section more_merge_proofs.
Context (parse_float : pystr → pystr) (World : Type).
Context (requests_get : json → Z → World → result response * World).
Context (elapse : Q → World → World).
Context (stdout_takes : line → bool).

Local Abbreviation fetch :=
  (fetch_and_extract parse_float World requests_get stdout_takes).
Local Abbreviation loop :=
  (merge_loop parse_float World requests_get elapse stdout_takes).
Local Abbreviation io := (io World).

(** The loop over two lists of URLs, one after the other, is the loop over
    the first followed by the loop over the second from the state the first
    has reached, with or without a cap, whether it ends normally or
    raises. *)
Theorem merge_loop_app
  (max : Z) (delay : Q) (urls1 urls2 : list json) (a : acc) (σ : io) :
  loop max delay (urls1 ++ urls2) a σ
  = cbind World (loop max delay urls1 a) (λ a1, loop max delay urls2 a1) σ.
Proof.
  revert a σ. induction urls1 as [|u urls1 IH]; intros a σ; [done|].
  cbn [app merge_loop]. destruct (cap_reached max a) eqn:Hcap.
  - unfold cbind, cret. destruct urls2 as [|u2 urls2]; [done|].
    cbn [merge_loop]. by rewrite Hcap.
  - unfold cbind in IH |- *.
    destruct (fetch u 25 σ) as [[sites|e] σ1]; [|done].
    destruct (time_sleep World elapse delay σ1) as [[[]|e] σ2]; [|done].
    apply IH.
Qed.

(** The loop keeps the invariant of lines 150-154: [seen] is the set of the
    canonical keys of [merged], no two entries of [merged] have one key,
    [merged] only grows at its end, the count of processed URLs grows by at
    most one for each URL, and what was done before stays in the trace. *)
Theorem merge_loop_invariant
  (max : Z) (delay : Q) (urls : list json) (a a' : acc) (σ σ' : io) :
  seen a = list_to_set (normalize_site <$> merged a) →
  NoDup (normalize_site <$> merged a) →
  loop max delay urls a σ = (Ok a', σ') →
  seen a' = list_to_set (normalize_site <$> merged a')
  ∧ NoDup (normalize_site <$> merged a')
  ∧ merged a `prefix_of` merged a'
  ∧ (processed a ≤ processed a' ≤ processed a + Z.of_nat (length urls))%Z
  ∧ trace σ `prefix_of` trace σ'.
Proof.
  revert a σ. induction urls as [|u urls IH]; intros a σ Hseen Hnd.
  { intros [= <- <-]. cbn [length]. repeat split; try done; lia. }
  cbn [merge_loop]. destruct (cap_reached max a).
  { intros [= <- <-]. cbn [length]. repeat split; try done; lia. }
  unfold cbind at 1.
  pose proof (fetch_and_extract_trace parse_float World requests_get
                stdout_takes u 25 σ) as (t1&Htr&_&_).
  destruct (fetch u 25 σ) as [[sites|e] σ1]; [|done]. cbn [snd] in Htr.
  unfold cbind at 1.
  destruct (time_sleep World elapse delay σ1) as [[[]|e] σ2] eqn:Hsleep;
    [|done].
  apply time_sleep_returns in Hsleep as ->.
  destruct (foldl_add_site_invariant a sites Hseen Hnd) as (H1&H2&H3).
  intros Hloop. apply IH in Hloop as (H4&H5&H6&H7&H8); [|done..].
  cbn [count_url merged seen processed trace] in *.
  rewrite foldl_add_site_processed in H7.
  split; [done|]. split; [done|]. split; [by etrans|].
  split; [cbn [length]; lia|].
  etrans; [|exact H8]. rewrite Htr, <-app_assoc. by apply prefix_app_r.
Qed.
End more_merge_proofs.

(** Merging is idempotent: adding the merged sites again to the
    accumulator that holds them changes neither the merged list nor the
    set of keys nor the count, and merging the merged list alone gives the
    same list. *)
Theorem merging_again_changes_nothing (l : list json) :
  let a := foldl add_site acc0 l in
  foldl add_site a (merged a) = a
  ∧ merged (foldl add_site acc0 (merged a)) = merged a.
Proof.
  intros a. subst a. split.
  - apply foldl_add_site_known, Forall_forall. intros s Hs.
    rewrite foldl_add_site_seen, elem_of_union, elem_of_list_to_set. right.
    apply list_elem_of_fmap_2. rewrite merged_acc0 in Hs.
    eapply elem_of_sublist; [exact Hs|apply first_seen_sublist].
  - by rewrite !merged_acc0, first_seen_idemp.
Qed.

Section main_proofs.
Context (parse_float : pystr → pystr) (World : Type).
Context (requests_get : json → Z → World → result response * World).
Context (elapse : Q → World → World).
Context (stdout_takes : line → bool).

Local Abbreviation fetch :=
  (fetch_and_extract parse_float World requests_get stdout_takes).
Local Abbreviation loop :=
  (merge_loop parse_float World requests_get elapse stdout_takes).
Local Abbreviation lines_127_158 :=
  (main parse_float World requests_get elapse stdout_takes).
Local Abbreviation io := (io World).
Local Abbreviation prints := (url_prints stdout_takes).

(** With a cap that is reached, the loop does nothing, whatever the URLs
    left; a negative cap is reached from the start, so that the script
    processes no URL at all, sends no request, does not sleep, and reports
    no site, even with a negative delay. *)
Theorem negative_max_processes_nothing
  (data : json) (max : Z) (delay : Q) (σ : io) :
  (max < 0)%Z →
  (∀ urls a, (max ≤ processed a)%Z → loop max delay urls a σ = (Ok a, σ))
  ∧ lines_127_158 data max delay σ
    = (Ok [], {| world := world σ;
                 trace := trace σ
                          ++ [EPrint (InfoFound (length (resolve_urls data)) max);
                              EPrint (InfoTotal 0)] |}).
Proof.
  intros Hmax.
  assert (∀ urls a (σ0 : io), (max ≤ processed a)%Z →
                              loop max delay urls a σ0 = (Ok a, σ0)) as Hloop.
  { intros [|u urls] a σ0 Ha; [done|]. cbn [merge_loop].
    unfold cap_reached. cbn [truthy].
    rewrite (proj2 (Z.eqb_neq max 0)) by lia.
    by rewrite (proj2 (Z.leb_le max (processed a))). }
  split; [intros urls a; apply Hloop|].
  unfold main, cbind, print, cret, emit. cbn [line_url].
  rewrite Hloop by (cbn; lia). cbn [merged acc0 length trace world].
  by rewrite <-app_assoc.
Qed.

(** With a negative delay, [time.sleep] raises after the first URL has
    been processed, when [sys.stdout] takes the lines of that URL: the
    script ends with a [ValueError] in the state the first call of
    [fetch_and_extract] has left, in which at most one request has been
    sent and nothing has been slept, and the sites fetched are lost.
    Without any URL the delay is never used.  (For a delay that
    [time.sleep] can count, and a cap that is not negative.) *)
Theorem negative_delay_raises_after_first_url
  (data : json) (max : Z) (delay : Q) (σ : io) :
  time_sleep_range delay → (delay < 0)%Q → (0 ≤ max)%Z →
  (∀ u urls,
     resolve_urls data = u :: urls → prints u →
     ∃ sites σ1,
       fetch u 25 (emit World (EPrint (InfoFound (S (length urls)) max)) σ)
       = (Ok sites, σ1)
       ∧ lines_127_158 data max delay σ = (Raise ValueError, σ1)
       ∧ gets (trace σ1) = gets (trace σ) ++ (if truthy u then [u] else [])
       ∧ sleeps (trace σ1) = sleeps (trace σ))
  ∧ (resolve_urls data = [] →
     ∃ σ', lines_127_158 data max delay σ = (Ok [], σ')).
Proof.
  intros Hr Hdelay Hmax.
  split.
  - intros u urls Hurls Hp.
    set (σ0 := emit World (EPrint (InfoFound (S (length urls)) max)) σ).
    destruct (fetch_and_extract_spec parse_float World requests_get
                stdout_takes u 25 σ0 Hp)
      as (sites&t1&Hf&Hg&Hs).
    eexists sites, _. split; [exact Hf|].
    split; [|split].
    + unfold main. rewrite Hurls. unfold cbind at 1, print.
      cbn [length line_url]. fold σ0. cbn [merge_loop].
      assert (cap_reached max acc0 = false) as ->.
      { unfold cap_reached. cbn [truthy processed acc0].
        destruct (Z.eqb_spec max 0) as [->|Hne]; [done|].
        cbn [negb andb]. apply Z.leb_gt. lia. }
      unfold cbind at 1. unfold cbind at 1. rewrite Hf.
      unfold cbind at 1.
      by rewrite (time_sleep_refuses World elapse delay _ Hr Hdelay).
    + cbn [trace]. unfold gets in *. subst σ0. unfold emit. cbn [trace].
      rewrite !omap_app, Hg. cbn [omap list_omap]. by rewrite app_nil_r.
    + cbn [trace]. unfold sleeps in *. subst σ0. unfold emit. cbn [trace].
      rewrite !omap_app, Hs. cbn [omap list_omap]. by rewrite !app_nil_r.
  - intros Hurls. unfold main. rewrite Hurls.
    unfold cbind, print, cret. cbn [merge_loop line_url]. unfold cret. eauto.
Qed.

(** For a URL that is not empty and a response with status 200 whose
    [r.json()] is what [json.loads] gives for [r.text], the list
    [fetch_and_extract] returns is the list [extract_sites_from_text]
    extracts from the text: the block of lines 90-101 returns nothing that
    the call of line 103 would not return.  It returns that list whenever
    [sys.stdout] takes the lines of the URL; whenever it returns a list at
    all, it is that list; and it raises only [UnicodeEncodeError], for a
    line that is refused. *)
Theorem fetch_returns_extraction_of_text
  (url : json) (t : Z) (σ : io) (r : response) (w : World) :
  truthy url = true →
  requests_get url t (world σ) = (Ok r, w) →
  status_code r = 200%Z →
  json_ r = json_loads parse_float (text r) →
  (prints url →
   (fetch url t σ).1 = extract_sites_from_text parse_float (text r))
  ∧ (∀ l, (fetch url t σ).1 = Ok l →
          extract_sites_from_text parse_float (text r) = Ok l)
  ∧ (∀ e, (fetch url t σ).1 = Raise e →
          e = UnicodeEncodeError ∧ ¬ prints url).
Proof.
  intros Hu Hget Hst Hjson.
  destruct (extract_sites_from_text_total parse_float (text r))
    as [sites Hsites].
  assert ((fetch url t σ).1 = extract_sites_from_text parse_float (text r)
          ∨ ((fetch url t σ).1 = Raise UnicodeEncodeError
             ∧ ∃ l, line_url l = Some url ∧ stdout_takes l = false))
    as Hcases.
  { unfold fetch_and_extract, sends, sseq, sdo, stry, ctry, cbind, cret,
      print, get, pure_, snext, sreturn, emit.
    rewrite Hu. cbn [negb trace world line_url].
    destruct (stdout_takes (InfoGet url)) eqn:Hline.
    2:{ right. split; [done|]. by exists (InfoGet url). }
    cbn [trace world]. rewrite Hget, Hst, Z.eqb_refl.
    cbn [negb]. rewrite Hjson, Hsites.
    destruct (json_loads parse_float (text r)) as [obj|e] eqn:Hload.
    - destruct (has_sites_list obj) eqn:Hs.
      { left. cbn [fst]. rewrite <-Hsites.
        unfold extract_sites_from_text, strict_parse. rewrite Hload.
        cbn [bind_flow]. by rewrite Hs. }
      destruct (is_list obj) eqn:Hl.
      { left. cbn [fst]. rewrite <-Hsites.
        unfold extract_sites_from_text, strict_parse. rewrite Hload.
        cbn [bind_flow]. by rewrite Hs, Hl. }
      rewrite (has_sites_list_false_item obj Hs).
      destruct (is_dict obj); destruct sites as [|s0 sites];
        cbn [truthy]; rewrite ?bool_decide_eq_true_2 by done;
        rewrite ?bool_decide_eq_false_2 by done; try (by left);
        (destruct (stdout_takes (InfoNoSites url)) eqn:Hnone; simpl;
         [by left|];
         destruct (stdout_takes (ErrorFetch url UnicodeEncodeError))
           eqn:Herr; simpl; [by left|];
         right; split; [done|];
         by exists (ErrorFetch url UnicodeEncodeError)).
    - destruct sites as [|s0 sites];
        cbn [truthy]; rewrite ?bool_decide_eq_true_2 by done;
        rewrite ?bool_decide_eq_false_2 by done; try (by left).
      destruct (stdout_takes (InfoNoSites url)) eqn:Hnone; simpl;
        [by left|].
      destruct (stdout_takes (ErrorFetch url UnicodeEncodeError)) eqn:Herr;
        simpl; [by left|].
      right. split; [done|]. by exists (ErrorFetch url UnicodeEncodeError). }
  split; [|split].
  - intros Hp. destruct Hcases as [H|(_&l&Hl&Hno)]; [done|].
    by rewrite (Hp Hu l Hl) in Hno.
  - intros l Hl. destruct Hcases as [H|[H _]]; rewrite H in Hl; [done|].
    discriminate.
  - intros e He. destruct Hcases as [H|(H&l&Hl&Hno)]; rewrite H in He.
    + by rewrite Hsites in He.
    + injection He as <-. split; [done|]. intros Hp.
      by rewrite (Hp Hu l Hl) in Hno.
Qed.

(** A cap that is not below the number of URLs changes nothing: the loop
    does what it does without a cap, whatever the delay and the network. *)
Theorem cap_not_below_url_count_changes_nothing
  (max : Z) (delay : Q) (urls : list json) (σ : io) :
  (Z.of_nat (length urls) ≤ max)%Z →
  loop max delay urls acc0 σ = loop 0 delay urls acc0 σ.
Proof.
  intros Hmax. destruct (Z.eq_dec max 0%Z) as [->|Hne]; [done|].
  destruct (loop_capped parse_float World requests_get elapse stdout_takes
              max delay Hne urls acc0 σ) as [-> _].
  cbn [processed acc0]. rewrite Z.sub_0_r.
  rewrite take_ge; [done|]. lia.
Qed.


End main_proofs.

Lemma merge_loop_invariant_witness :
  ∃ a' σ',
    merge_loop id nat demo_get demo_elapse utf8_stdout 0 (1 # 2)
               demo_urls acc0 demo_io
    = (Ok a', σ')
    ∧ seen a' = list_to_set (normalize_site <$> merged a')
    ∧ NoDup (normalize_site <$> merged a').
Proof.
  destruct (loop_spec id nat demo_get demo_elapse utf8_stdout 0 (1 # 2)
              (time_sleep_takes nat demo_elapse (1 # 2) half_second_counts
                 half_second_nonneg)
              demo_urls acc0 demo_io demo_urls_print) as (σ'&t'&Hloop&_).
  cbv zeta in Hloop.
  destruct (merge_loop_invariant id nat demo_get demo_elapse utf8_stdout
              0 (1 # 2) demo_urls acc0 _ demo_io σ' eq_refl
              (NoDup_nil_2 (A:=pystr)) Hloop)
    as (H1&H2&_).
  eauto.
Defined.

Lemma negative_max_processes_nothing_witness :
  (-1 < 0)%Z
  ∧ main id nat demo_get demo_elapse utf8_stdout index_example (-1) (1 # 2)
         demo_io
    = (Ok [], {| world := O;
                 trace := [EPrint (InfoFound 3 (-1)); EPrint (InfoTotal 0)] |}).
Proof.
  assert (-1 < 0)%Z as Hneg by lia.
  split; [exact Hneg|].
  exact (proj2 (negative_max_processes_nothing id nat demo_get demo_elapse
                  utf8_stdout index_example (-1) (1 # 2) demo_io Hneg)).
Defined.

Lemma negative_delay_raises_after_first_url_witness :
  time_sleep_range (-1 # 2) ∧ (-1 # 2 < 0)%Q ∧ (0 ≤ 0)%Z
  ∧ url_prints utf8_stdout (JStr (py "http://x/1"))
  ∧ ∃ σ1,
      main id nat demo_get demo_elapse utf8_stdout index_example 0 (-1 # 2)
           demo_io
      = (Raise ValueError, σ1)
      ∧ gets (trace σ1) = [JStr (py "http://x/1")]
      ∧ sleeps (trace σ1) = [].
Proof.
  split; [exact minus_half_second_counts|].
  split; [exact minus_half_second_negative|]. split; [done|].
  assert (url_prints utf8_stdout (JStr (py "http://x/1"))) as Hp
    by (by apply utf8_stdout_prints).
  split; [exact Hp|].
  destruct (proj1 (negative_delay_raises_after_first_url id nat demo_get
                     demo_elapse utf8_stdout index_example 0 (-1 # 2) demo_io
                     minus_half_second_counts
                     minus_half_second_negative ltac:(done))
              (JStr (py "http://x/1"))
              [JStr (py "http://x/2"); JStr (py "http://x/3")] eq_refl Hp)
    as (sites&σ1&_&Hmain&Hg&Hs).
  exists σ1. split; [exact Hmain|]. split; [exact Hg|exact Hs].
Defined.

Lemma cap_not_below_url_count_changes_nothing_witness :
  (Z.of_nat (length demo_urls) ≤ 3)%Z
  ∧ merge_loop id nat demo_get demo_elapse utf8_stdout 3 (1 # 2)
               demo_urls acc0 demo_io
    = merge_loop id nat demo_get demo_elapse utf8_stdout 0 (1 # 2)
                 demo_urls acc0 demo_io.
Proof.
  assert (Z.of_nat (length demo_urls) ≤ 3)%Z as Hmax by (cbn; lia).
  split; [exact Hmax|].
  exact (cap_not_below_url_count_changes_nothing id nat demo_get demo_elapse
           utf8_stdout 3 (1 # 2) demo_urls demo_io Hmax).
Defined.

Lemma fetch_returns_extraction_of_text_witness :
  url_prints utf8_stdout (JStr (py "http://x/1"))
  ∧ (fetch_and_extract id nat same_get utf8_stdout
                       (JStr (py "http://x/1")) 25 demo_io).1
    = extract_sites_from_text id text_sites_object
  ∧ extract_sites_from_text id text_sites_object = Ok [JInt 1; JInt 2].
Proof.
  assert (url_prints utf8_stdout (JStr (py "http://x/1"))) as Hp
    by (by apply utf8_stdout_prints).
  split; [exact Hp|]. split; [|by vm_compute].
  exact (proj1 (fetch_returns_extraction_of_text id nat same_get utf8_stdout
                  (JStr (py "http://x/1")) 25 demo_io
                  {| status_code := 200; text := text_sites_object;
                     json_ := json_loads id text_sites_object |} 1%nat
                  eq_refl eq_refl eq_refl eq_refl) Hp).
Defined.


(** ** Resolution of a list of URLs *)

(** For an index whose [urls] is a list, there are at most as many
    resolved URLs as entries; a resolved URL that is not true in the sense
    of [bool] is the empty string, taken from an entry that is the empty
    string; and a list of strings is resolved to itself, repeated and empty
    strings included. *)
Theorem urls_list_resolution
  (d : list (pystr * json)) (entries : list json) :
  dict_lookup (py "urls") d = Some (JList entries) →
  let urls := resolve_urls (JDict d) in
  (length urls ≤ length entries)%nat
  ∧ Forall (λ u, truthy u = true ∨ (u = JStr [] ∧ JStr [] ∈ entries)) urls
  ∧ (Forall (λ e, is_str e = true) entries → urls = entries).
Proof.
  intros Hd urls. subst urls. rewrite (resolve_urls_entries d entries Hd).
  clear Hd. split; [|split].
  - induction entries as [|e entries IH]; [done|]. cbn [omap list_omap].
    change (list_omap json json ?f entries) with (omap f entries).
    destruct (resolve_entry e); cbn [length]; lia.
  - induction entries as [|e entries IH]; [constructor|].
    cbn [omap list_omap].
    change (list_omap json json ?f entries) with (omap f entries).
    assert (Forall (λ u, truthy u = true ∨ u = JStr [] ∧ JStr [] ∈ e :: entries)
                   (omap resolve_entry entries)) as Hrest.
    { eapply Forall_impl; [exact IH|]. intros u [?|[? ?]]; [by left|right].
      split; [done|]. by right. }
    destruct e as [| | | |s|l|d']; cbn [resolve_entry]; try done.
    + constructor; [|done]. destruct s as [|c s]; [right|by left].
      split; [done|]. by left.
    + rewrite first_truthy_entry_url.
      destruct (truthy (entry_url d')) eqn:Ht; [|done].
      constructor; [by left|done].
  - induction 1 as [|e entries He _ IH]; [done|]. cbn [omap list_omap].
    change (list_omap json json ?f entries) with (omap f entries).
    destruct e; try done. cbn [resolve_entry]. by rewrite IH.
Qed.

Lemma urls_list_resolution_witness :
  let entries := [JStr (py "http://x/1"); JStr []; JStr (py "http://x/1")] in
  dict_lookup (py "urls") [(py "urls", JList entries)] = Some (JList entries)
  ∧ resolve_urls (JDict [(py "urls", JList entries)]) = entries.
Proof.
  intros entries. split; [reflexivity|].
  apply (urls_list_resolution [(py "urls", JList entries)] entries eq_refl).
  by repeat constructor.
Defined.

(** ** The script as a whole *)

Section script_proofs.
Context (parse_float : pystr → pystr) (World : Type).
Context (requests_get : json → Z → World → result response * World).
Context (elapse : Q → World → World).
Context (stdout_takes : line → bool).
Context (urlparse_scheme : pystr → result pystr).
Context (read_text : pystr → World → option pystr * World).
Context (write_text : pystr → pystr → World → bool * World).

Local Abbreviation load_input :=
  (Script.load_input parse_float World requests_get urlparse_scheme read_text).
Local Abbreviation script_main :=
  (Script.main parse_float World requests_get elapse stdout_takes
               urlparse_scheme read_text write_text).
Local Abbreviation sys := (Script.sys World).

Lemma load_input_log path (s : sys) :
  ∃ t, Script.log (load_input path s).2 = Script.log s ++ t
       ∧ Script.files_written t = [] ∧ Script.naps t = []
       ∧ ((Script.requests t = [(JStr path, 30%Z)] ∧ Script.files_read t = [])
          ∨ (Script.requests t = [] ∧ Script.files_read t = [path])
          ∨ (Script.requests t = [] ∧ Script.files_read t = [])).
Proof.
  unfold Script.load_input.
  destruct (urlparse_scheme path) as [scheme|e].
  2:{ exists []. rewrite app_nil_r. repeat split; auto. }
  case_bool_decide.
  - unfold Script.run, get, Script.say. cbn [Script.net Script.log world trace].
    exists [Script.Say (Script.InfoFetchingInput path);
            Script.Loop (EGet (JStr path) 30)].
    split; [|split; [done|split; [done|by left]]].
    destruct (requests_get (JStr path) 30 (Script.net s)) as [[r|e] w];
      [|by rewrite <-app_assoc].
    destruct (Script.raise_for_status r); [by rewrite <-app_assoc|].
    destruct (json_ r); by rewrite <-app_assoc.
  - unfold Script.say. cbn [Script.net Script.log].
    exists [Script.Say (Script.InfoLoadingInput path); Script.ReadFile path].
    split; [|split; [done|split; [done|by right; left]]].
    destruct (read_text path (Script.net s)) as [[text|] w];
      [|by rewrite <-app_assoc].
    destruct (json_loads parse_float text); by rewrite <-app_assoc.
Qed.

(** When loading the index fails, whatever is raised ([urlparse], the
    request, a status from 400 to 599, a file that cannot be read, a text
    that is not JSON), the script prints the fatal line and exits with
    status 1: no site URL is requested, nothing is slept and no file is
    written.  Loading itself has sent at most one request, for the index
    with a timeout of 30 seconds, or read at most one file, never both. *)
Theorem load_failure_exits_with_status_1
  (a : Script.args) (s s1 : sys) (e : Script.raised) :
  load_input (Script.input a) s = (inr e, s1) →
  script_main a s = (Script.Exited 1, Script.say (Script.Fatal e) s1)
  ∧ ∃ t, Script.log s1 = Script.log s ++ t
         ∧ Script.files_written t = [] ∧ Script.naps t = []
         ∧ ((Script.requests t = [(JStr (Script.input a), 30%Z)]
             ∧ Script.files_read t = [])
            ∨ (Script.requests t = []
               ∧ Script.files_read t = [Script.input a])
            ∨ (Script.requests t = [] ∧ Script.files_read t = [])).
Proof.
  intros Hload. split.
  - unfold Script.main. by rewrite Hload.
  - pose proof (load_input_log (Script.input a) s) as Hlog.
    by rewrite Hload in Hlog.
Qed.
End script_proofs.

Section script_results.
Context (parse_float : pystr → pystr) (World : Type).
Context (requests_get : json → Z → World → result response * World).
Context (elapse : Q → World → World).
Context (stdout_takes : line → bool).
Context (urlparse_scheme : pystr → result pystr).
Context (read_text : pystr → World → option pystr * World).
Context (write_text : pystr → pystr → World → bool * World).

Local Abbreviation load_input :=
  (Script.load_input parse_float World requests_get urlparse_scheme read_text).
Local Abbreviation script_main :=
  (Script.main parse_float World requests_get elapse stdout_takes
               urlparse_scheme read_text write_text).
Local Abbreviation sys := (Script.sys World).
Local Abbreviation lines_127_158 :=
  (main parse_float World requests_get elapse stdout_takes).
Local Abbreviation prints := (url_prints stdout_takes).

(** An index given by an http or https URL is requested once, with a
    timeout of 30 seconds, and no file is read.  A status from 400 to 599
    raises; with any other status, 200 or not, what [r.json()] gives is the
    index. *)
Theorem index_url_accepts_any_status_but_4xx_5xx
  (path scheme : pystr) (s : sys) (r : response) (w : World) :
  urlparse_scheme path = Ok scheme →
  scheme = py "http" ∨ scheme = py "https" →
  requests_get (JStr path) 30 (Script.net s) = (Ok r, w) →
  Script.log (load_input path s).2
  = Script.log s ++ [Script.Say (Script.InfoFetchingInput path);
                     Script.Loop (EGet (JStr path) 30)]
  ∧ ((400 ≤ status_code r < 600)%Z →
     (load_input path s).1 = inr (Script.HTTPError (status_code r)))
  ∧ ((status_code r < 400 ∨ 600 ≤ status_code r)%Z →
     (load_input path s).1
     = match json_ r with
       | Ok data => inl data
       | Raise e => inr (Script.Lib e)
       end).
Proof.
  intros Hscheme Hhttp Hget. unfold Script.load_input. rewrite Hscheme.
  rewrite bool_decide_eq_true_2 by done.
  unfold Script.run, get, Script.say. cbn [Script.net Script.log world trace].
  rewrite Hget. unfold Script.raise_for_status. split; [|split].
  - destruct ((400 <=? status_code r)%Z && (status_code r <? 600)%Z);
      [by rewrite <-app_assoc|].
    destruct (json_ r); by rewrite <-app_assoc.
  - intros [H1 H2]. by rewrite (proj2 (Z.leb_le _ _) H1), (proj2 (Z.ltb_lt _ _) H2).
  - intros H.
    assert ((400 <=? status_code r)%Z && (status_code r <? 600)%Z = false)
      as ->.
    { apply andb_false_iff. rewrite Z.leb_gt, Z.ltb_ge. lia. }
    by destruct (json_ r).
Qed.

Lemma run_lines_127_158 data max delay (s : sys) :
  time_sleep_range delay → (0 <= delay)%Q →
  Forall prints (resolve_urls data) →
  ∃ merged s3 t,
    Script.run (lines_127_158 data max delay) s = (Ok merged, s3)
    ∧ NoDup (normalize_site <$> merged)
    ∧ Script.log s3 = Script.log s ++ (Script.Loop <$> t).
Proof.
  intros Hr Hd Hp. unfold Script.run.
  destruct (main_returns_first_seen parse_float World requests_get elapse
              stdout_takes data max delay
              {| world := Script.net s; trace := [] |} Hr Hd Hp)
    as (σ'&Hmain).
  cbv zeta in Hmain. rewrite Hmain.
  eexists _, _, (trace σ'). split; [reflexivity|].
  split; [apply first_seen_NoDup|done].
Qed.

(** When the index is loaded, the delay is one that [time.sleep] takes and
    [sys.stdout] takes the lines of the resolved URLs, the script goes
    through the loop and then opens the output file, once, after the last
    request and the last sleep: the text it writes is that of [json.dump]
    for [{"sites": merged}] with an indent of two spaces, [merged] having
    no two sites with one canonical key.  After that nothing is done but
    printing the last line.  When writing fails the script ends with the
    exception of the writing, and it ends normally only when the file was
    written. *)
Theorem output_file_written_once_after_loop
  (a : Script.args) (s s1 : sys) (data : json) :
  load_input (Script.input a) s = (inl data, s1) →
  time_sleep_range (Script.delay a) → (0 <= Script.delay a)%Q →
  Forall prints (resolve_urls data) →
  ∃ merged s3 t written w tail,
    let content := json_dump false 2 (out_of merged) in
    Script.run (lines_127_158 data (Script.max a) (Script.delay a))
               (Script.warned data s1) = (Ok merged, s3)
    ∧ NoDup (normalize_site <$> merged)
    ∧ Script.log s3 = Script.log (Script.warned data s1) ++ (Script.Loop <$> t)
    ∧ write_text (Script.output a) content (Script.net s3) = (written, w)
    ∧ Script.log (script_main a s).2
      = Script.log s3 ++ Script.WriteFile (Script.output a) content :: tail
    ∧ (∀ x, x ∈ tail → x = Script.Say (Script.InfoWrote (Script.output a)))
    ∧ (written = false
       → (script_main a s).1 = Script.Uncaught Script.FileError)
    ∧ ((script_main a s).1 = Script.Completed → written = true).
Proof.
  intros Hload Hr Hd Hp.
  destruct (run_lines_127_158 data (Script.max a) (Script.delay a)
              (Script.warned data s1) Hr Hd Hp)
    as (merged&s3&t&Hrun&Hnd&Hlog).
  destruct (write_text (Script.output a) (json_dump false 2 (out_of merged))
              (Script.net s3)) as [written w] eqn:Hw.
  exists merged, s3, t, written, w.
  exists (if written then [Script.Say (Script.InfoWrote (Script.output a))]
          else []).
  cbv zeta.
  split; [done|]. split; [done|]. split; [done|]. split; [done|].
  unfold Script.main. rewrite Hload, Hrun, Hw.
  destruct written; cbn [fst snd Script.say Script.log Script.net].
  - split; [by rewrite <-app_assoc|].
    split; [by intros x [->|[]%elem_of_nil]%elem_of_cons|done].
  - split; [done|]. split; [by intros x []%elem_of_nil|done].
Qed.
End script_results.

Lemma load_failure_exits_with_status_1_witness :
  ∃ s1,
    Script.load_input id nat demo_get Script.demo_scheme Script.demo_read
                      (py "missing.json") Script.demo_sys
    = (inr Script.FileError, s1)
    ∧ Script.main id nat demo_get demo_elapse utf8_stdout Script.demo_scheme
                  Script.demo_read Script.demo_write
                  {| Script.input := py "missing.json";
                     Script.output := py "out.json";
                     Script.delay := 1 # 2; Script.max := 0 |}
                  Script.demo_sys
      = (Script.Exited 1, Script.say (Script.Fatal Script.FileError) s1).
Proof.
  eexists. split; [reflexivity|].
  refine (proj1 (load_failure_exits_with_status_1 id nat demo_get demo_elapse
                   utf8_stdout
                   Script.demo_scheme Script.demo_read Script.demo_write
                   {| Script.input := py "missing.json";
                      Script.output := py "out.json";
                      Script.delay := 1 # 2; Script.max := 0 |}
                   Script.demo_sys _ Script.FileError eq_refl)).
Defined.

Lemma index_url_accepts_any_status_but_4xx_5xx_witness :
  (Script.load_input id nat demo_get Script.demo_scheme Script.demo_read
                     (py "http://x/2") Script.demo_sys).1
  = inr (Script.HTTPError 404)
  ∧ (Script.load_input id nat demo_get Script.demo_scheme Script.demo_read
                       (py "http://x/1") Script.demo_sys).1
    = inl (JDict [(py "sites", JList [site_ab; site_ba])]).
Proof.
  split.
  - refine (proj1 (proj2 (index_url_accepts_any_status_but_4xx_5xx
                            id nat demo_get Script.demo_scheme
                            Script.demo_read (py "http://x/2") (py "http")
                            Script.demo_sys
                            {| status_code := 404; text := py "not found";
                               json_ := Raise JSONDecodeError |} 1%nat
                            eq_refl (or_introl eq_refl) eq_refl)) _).
    cbn [status_code]. lia.
  - refine (proj2 (proj2 (index_url_accepts_any_status_but_4xx_5xx
                            id nat demo_get Script.demo_scheme
                            Script.demo_read (py "http://x/1") (py "http")
                            Script.demo_sys
                            {| status_code := 200; text := py "";
                               json_ := Ok (JDict [(py "sites",
                                                    JList [site_ab; site_ba])]) |}
                            1%nat eq_refl (or_introl eq_refl) eq_refl)) _).
    cbn [status_code]. lia.
Defined.

Lemma demo_index_urls_print :
  Forall (url_prints utf8_stdout)
         [JStr (py "http://x/1"); JStr (py "http://x/2")].
Proof. repeat constructor; by apply utf8_stdout_prints. Defined.

Lemma output_file_written_once_after_loop_witness :
  (Script.main id nat demo_get demo_elapse utf8_stdout Script.demo_scheme
               Script.demo_read Script.demo_write Script.demo_args
               Script.demo_sys).1
  = Script.Completed
  ∧ Script.files_written
      (Script.log
         (Script.main id nat demo_get demo_elapse utf8_stdout
                      Script.demo_scheme Script.demo_read Script.demo_write
                      Script.demo_args Script.demo_sys).2)
    = [(py "files/merged_sites.json", json_dump false 2 (out_of [site_ab]))].
Proof.
  destruct (output_file_written_once_after_loop id nat demo_get demo_elapse
              utf8_stdout Script.demo_scheme Script.demo_read
              Script.demo_write Script.demo_args Script.demo_sys _ _ eq_refl
              half_second_counts half_second_nonneg demo_index_urls_print)
    as (merged&s3&t&written&w&tail&Hrun&_&_&Hw&Hlog&_).
  split; by vm_compute.
Defined.

(** ** A URL found by the pattern goes as far as it can *)

Lemma star_total {R} p s (k : pystr → option R) :
  (∀ s', is_Some (k s')) → is_Some (Re.star p s k).
Proof.
  intros Hk. induction s as [|c s IH]; simpl; [done|].
  destruct (p c); [|done]. by destruct IH as [x ->].
Qed.

(** A greedy repetition followed by something that always matches takes
    every character it can. *)
Lemma star_greedy {R} p s (k : pystr → option R) x :
  (∀ s', is_Some (k s')) → Re.star p s k = Some x →
  ∃ pre s', s = pre ++ s' ∧ Forall (λ c, p c = true) pre ∧ k s' = Some x
            ∧ match s' with [] => True | c :: _ => p c = false end.
Proof.
  intros Hk. induction s as [|c s IH]; simpl.
  - intros H. by exists [], [].
  - destruct (p c) eqn:Hc.
    + destruct (star_total p s k Hk) as [y Hy]. rewrite Hy in *.
      intros [= <-]. destruct (IH eq_refl) as (pre&s'&->&Hpre&Hk'&Hend).
      exists (c :: pre), s'. repeat split; auto.
    + intros H. exists [], (c :: s). repeat split; auto.
Qed.

Lemma run_plus_greedy {R} p lead s g
      (kf : pystr → option pystr → option R) x :
  (∀ s' g', is_Some (kf s' g')) →
  Re.run (Re.lits Re.lit lead (Re.Plus p)) s g kf = Some x →
  ∃ rest, kf rest g = Some x
          ∧ match rest with [] => True | c :: _ => p c = false end.
Proof.
  intros Hk. revert s. induction lead as [|c lead IH]; intros s.
  - cbn [Re.lits Re.Plus Re.run].
    destruct s as [|c s]; [done|]. destruct (p c); [|done].
    intros H. apply star_greedy in H as (pre&s'&_&_&H&Hend); [eauto|].
    intros s'. apply Hk.
  - cbn [Re.lits Re.run]. destruct s as [|c' s]; [done|].
    destruct (Re.lit c c'); [|done]. apply IH.
Qed.

Lemma match_at_URL_REGEX_end s m :
  Re.match_at URL_REGEX s = Some m → url_end (Re.after m).
Proof.
  unfold Re.match_at, URL_REGEX.
  set (kf := λ (s' : pystr) (g : option pystr),
         Some {| Re.group0 := take (length s - length s') s;
                 Re.group1 := g; Re.after := s' |}).
  assert (∀ s' g', is_Some (kf s' g')) as Hkf by (intros; by eexists).
  assert (∀ s0 g m0,
            Re.run (Re.lits Re.lit (py "://") (Re.Plus url_char)) s0 g kf
            = Some m0 → url_end (Re.after m0)) as Htail.
  { intros s0 g m0 H.
    apply run_plus_greedy in H as (rest&[= <-]&Hend); done. }
  fold url_char.
  remember (Re.lits Re.lit (py "://") (Re.Plus url_char)) as T eqn:HT.
  py_eval. cbn [Re.lits Re.run]. clear HT.
  destruct s as [|c1 s]; [done|]. destruct (Re.lit 104 c1); [|done].
  destruct s as [|c2 s]; [done|]. destruct (Re.lit 116 c2); [|done].
  destruct s as [|c3 s]; [done|]. destruct (Re.lit 116 c3); [|done].
  destruct s as [|c4 s]; [done|]. destruct (Re.lit 112 c4); [|done].
  destruct s as [|c5 s]; [apply Htail|].
  destruct (Re.lit 115 c5); [|apply Htail].
  destruct (Re.run T s None kf) as [m0|] eqn:Hopt.
  - intros [= <-]. by eapply Htail.
  - apply Htail.
Qed.

Lemma scan_splits r s toks :
  scan r s toks →
  Forall (λ t, ∃ pre rest m, s = pre ++ t ++ rest
                             ∧ Re.match_at r (t ++ rest) = Some m
                             ∧ Re.group0 m = t) toks.
Proof.
  induction 1 as [|gap t rest toks m _ Hm Ht _ _ IH]; constructor.
  - by exists gap, rest, m.
  - eapply Forall_impl; [exact IH|]. simpl.
    intros t' (pre&rest'&m'&->&Hm'&Ht').
    exists (gap ++ t ++ pre), rest', m'. by rewrite <-!app_assoc.
Qed.

(** Without a [urls] list, each resolved URL is a piece of the text of
    [json.dumps] that goes as far as the pattern allows: it is followed by
    a white space, a quote, a comma or the end of the text, so that a URL of
    the index that holds a comma or a space is resolved to its part before
    it. *)
Theorem resolved_url_is_cut_at_delimiter (data : json) :
  has_urls_list data = false →
  Forall (λ u, ∃ t pre rest,
            u = JStr t
            ∧ json_dumps true false data = pre ++ t ++ rest
            ∧ url_token t ∧ url_end rest)
         (resolve_urls data).
Proof.
  intros Hdata. rewrite (fallback_is_finditer data Hdata).
  pose proof (finditer_scan URL_REGEX URL_REGEX_nonempty
                (json_dumps true false data)) as Hscan.
  apply scan_splits in Hscan. apply Forall_fmap.
  eapply Forall_impl; [exact Hscan|]. simpl.
  intros t (pre&rest&m&Htext&Hm&Ht).
  exists t, pre, rest. split; [done|]. split; [done|].
  pose proof (match_at_URL_REGEX_end _ _ Hm) as Hend.
  apply match_at_sound in Hm as [Hsplit Hre]. rewrite Ht in Hsplit, Hre.
  apply app_inv_head in Hsplit as ->.
  split; [by apply matches_URL_REGEX|done].
Qed.

Lemma resolved_url_is_cut_at_delimiter_witness :
  has_urls_list index_comma = false
  ∧ resolve_urls index_comma = [JStr (py "http://x/a")]
  ∧ Forall (λ u, ∃ t pre rest,
              u = JStr t
              ∧ json_dumps true false index_comma = pre ++ t ++ rest
              ∧ url_token t ∧ url_end rest)
           [JStr (py "http://x/a")].
Proof.
  split; [reflexivity|].
  assert (resolve_urls index_comma = [JStr (py "http://x/a")]) as Hr
    by (by vm_compute).
  split; [exact Hr|]. rewrite <-Hr.
  exact (resolved_url_is_cut_at_delimiter index_comma eq_refl).
Defined.
